(** * Search-string generation, session acquisition and work partitioning

    A shallow embedding of the helper module of the social-media search
    driver (the file that imports [./facebook], [./instagram], [./types] and
    [./constants]), with the properties its design document states.

    Conventions of the embedding:
    - a JavaScript string is a [string]; a template literal is [+:+];
    - a JavaScript array is a [list]; [arr[i]] is [arr !! i], which is [None]
      exactly where JavaScript yields [undefined];
    - a plain object used as a dictionary is a [JsObject.t]: its own
      properties in creation order, enumerated the way [Object.keys] does;
    - [lodash] helpers are transcribed under their own names. *)

From Stdlib Require Import ZArith Ascii Lia QArith Qround Qpower Lqa.
From Stdlib Require Import Floats.SpecFloat.
From stdpp Require Import base list sorting strings gmap.

Set Default Proof Using "Type".

(** * Part I: the embedding *)

(** ** Strings *)

Module Str.

(** [s.startsWith(needle)]. *)
Fixpoint startsWith (s needle : string) {struct needle} : bool :=
  match needle, s with
  | EmptyString, _ => true
  | String a needle', String b s' =>
      if decide (a = b) then startsWith s' needle' else false
  | String _ _, EmptyString => false
  end.

(** [s.includes(needle)]: some position of [s] starts with [needle]. *)
Fixpoint includes (s needle : string) : bool :=
  startsWith s needle ||
  match s with
  | EmptyString => false
  | String _ s' => includes s' needle
  end.

(** The property [includes] decides: [needle] occurs somewhere in [s]. *)
Definition occurs_in (needle s : string) : Prop :=
  ∃ before after, s = before +:+ needle +:+ after.

End Str.

(** ** Credentials

    [IUserCredentials] of [./types]; the declaration is not part of the
    module, its three fields are the ones the code reads. The [type] field is
    a string at run time, so it is one here: the login dispatch below has a
    branch for a type that is neither ['facebook'] nor ['instagram']. *)

Record IUserCredentials := {
  type : string;
  username : string;
  password : string;
}.

Definition getNameForStorageStateByUserCredential (userCredential : IUserCredentials) : string :=
  "storageStateFor[" +:+ type userCredential +:+ "][" +:+ username userCredential +:+ "].json".

Definition getKeyByUserCredential (userCredential : IUserCredentials) : string :=
  type userCredential +:+ "-" +:+ username userCredential.

(** ** The type-from-key classifier *)

(** The result is ['facebook'], ['instagram'] or [undefined] ([None]): the
    function falls off its end when neither test succeeds. *)
Definition getTypeForBrowserContextByUserCredentialsKey (key : string) : option string :=
  if Str.includes key "facebook-" then Some "facebook"
  else if Str.includes key "instagram-" then Some "instagram"
  else None.

(** ** Plain objects used as dictionaries

    [{}] with [memo[k] = v] and [memo[k]]: the own properties of the object,
    in the order in which they were created. Writing to an existing property
    replaces its value and keeps its place. Enumeration ([Object.keys], on
    which lodash's [keys], [reduce] and [groupBy] rest for such objects)
    lists the array-index names first, in ascending numeric order, and then
    the other names in creation order.

    The name ["__proto__"] is special. An object literal inherits an
    accessor of that name, so the assignment [memo["__proto__"] = v] runs
    the inherited setter: it replaces the prototype of [memo] when [v] is an
    object and does nothing otherwise, and in neither case creates an own
    property. [set] below is the assignment for every other name, and the
    definition of an own property of any name, which is what lodash's
    [groupBy] performs; [assign] is the assignment for any name. The
    prototype itself is not part of the model: nothing in the module reads
    an inherited property. *)

Module JsObject.

Abbreviation t V := (list (string * V)) (only parsing).

(** The value of a decimal digit string, most significant digit first. *)
Fixpoint parseDigits (acc : N) (s : string) : option N :=
  match s with
  | EmptyString => Some acc
  | String c s' =>
      match Ascii.is_nat c with
      | Some d => parseDigits (10 * acc + N.of_nat d) s'
      | None => None
      end
  end.

(** An array index is a canonical numeric string (no sign, no leading
    zero) whose value is at most [2^32 - 2]. *)
Definition arrayIndex (k : string) : option N :=
  match k with
  | EmptyString => None
  | String "0" EmptyString => Some 0%N
  | String "0" _ => None
  | _ =>
      match parseDigits 0 k with
      | Some n => if decide (n < 2 ^ 32 - 1)%N then Some n else None
      | None => None
      end
  end.

Section ops.
Context {V : Type}.
Implicit Types (o : t V) (k : string) (v : V).

Definition empty : t V := [].

(** [o[k]] for an own property; [None] when [o] has no such property. *)
Fixpoint get o k : option V :=
  match o with
  | [] => None
  | (k', v') :: o' => if decide (k' = k) then Some v' else get o' k
  end.

(** [o[k] = v]. *)
Fixpoint set o k v : t V :=
  match o with
  | [] => [(k, v)]
  | (k', v') :: o' =>
      if decide (k' = k) then (k', v) :: o' else (k', v') :: set o' k v
  end.

(** [o[k] = v] for any name [k]: no own property comes of an assignment to
    ["__proto__"]. *)
Definition assign o k v : t V :=
  if decide (k = "__proto__") then o else set o k v.

Definition indexProps o : list (N * (string * V)) :=
  omap (λ e, match arrayIndex e.1 with Some i => Some (i, e) | None => None end) o.

Definition nameProps o : list (string * V) :=
  filter (λ e, arrayIndex e.1 = None) o.

Definition indexLe (a b : N * (string * V)) : Prop := (a.1 ≤ b.1)%N.

Global Instance indexLe_dec : RelDecision indexLe :=
  λ a b, decide (a.1 ≤ b.1)%N.

(** The own properties in enumeration order. *)
Definition entries o : list (string * V) :=
  (snd <$> merge_sort indexLe (indexProps o)) ++ nameProps o.

Definition keys o : list string := fst <$> entries o.
Definition values o : list V := snd <$> entries o.

(** A run of assignments [o[k] = v], first to last. *)
Definition assignAll o (writes : list (string * V)) : t V :=
  foldl (λ memo w, set memo w.1 w.2) o writes.

(** Objects built by [set] from [empty] never hold a name twice. *)
Definition wf o : Prop := NoDup o.*1.

End ops.

Global Arguments empty {V}.

End JsObject.

(** ** The lodash helpers the module uses, on arrays *)

Module Lodash.

(** [isEmpty(array)]: the array has no element. *)
Definition isEmpty {A} (array : list A) : bool :=
  match array with [] => true | _ :: _ => false end.

(** [reduce(array, iteratee, accumulator)]: the callback receives the
    accumulator, the element and its index, first element to last. *)
Definition reduce {A B} (array : list A) (iteratee : B → A → nat → B)
    (accumulator : B) : B :=
  foldl (λ memo entry, iteratee memo entry.2 entry.1) accumulator (imap pair array).

(** [each(array, iteratee)] with a callback that assigns into the object
    [memo]: the state of [memo] after the loop. No callback of the module
    returns [false], so no loop ends early. *)
Definition each {A B} (array : list A) (iteratee : B → A → nat → B) (memo : B) : B :=
  reduce array iteratee memo.

(** [reduce(object, iteratee, accumulator)]: over the values of the own
    properties, in enumeration order. *)
Definition reduceObject {A B} (object : JsObject.t A) (iteratee : B → A → B)
    (accumulator : B) : B :=
  foldl iteratee accumulator (JsObject.values object).

(** [groupBy(array, property)]: an object with one property per value of
    [iteratee], created at the first element with that value and holding the
    elements with that value in their order in [array]. lodash defines the
    property on the result, so a value ["__proto__"] makes a group like any
    other. *)
Definition groupBy {A} (array : list A) (iteratee : A → string) : JsObject.t (list A) :=
  foldl (λ result value,
           let key := iteratee value in
           match JsObject.get result key with
           | Some group => JsObject.set result key (group ++ [value])
           | None => JsObject.set result key [value]
           end)
        JsObject.empty array.

(** [array.slice(start, end)] for indices within the bounds of a number. *)
Definition slice {A} (array : list A) (start finish : nat) : list A :=
  take (finish - start) (drop start array).

(** [Math.ceil(n / d)] for array lengths [n] and [d > 0]. Both are integers
    below [2^32], for which the rounded quotient of the two doubles has the
    same ceiling as the exact quotient. *)
Definition ceilDiv (n d : nat) : nat := (n + d - 1) / d.

(** [chunk(array, size)]: [Math.ceil(length / size)] slices of [size]
    elements each, the last one holding what remains; no slice at all for
    an empty array or a size below one. *)
Definition chunk {A} (array : list A) (size : nat) : list (list A) :=
  if decide (length array = 0 ∨ size < 1) then []
  else (λ resIndex, slice array (resIndex * size) (resIndex * size + size))
         <$> seq 0 (ceilDiv (length array) size).

End Lodash.

(** ** Investigation records and query descriptors

    [ISearchRawData] and the two result types of [./types], with the fields
    the generators read and write. [searchOptions] is passed through
    untouched, so its type is a parameter. A record without a
    [productNames] property behaves as one with the empty array ([isEmpty]
    holds of [undefined] too), so the field is a list. *)

Record ISearchRawData (SearchOptions : Type) := {
  companyName : string;
  productNames : list string;
  incidentKeywords : list string;
  searchOptions : SearchOptions;
}.
Global Arguments companyName {_} _.
Global Arguments productNames {_} _.
Global Arguments incidentKeywords {_} _.
Global Arguments searchOptions {_} _.

(** The values of [IGenerateSearchStringsBySearchRawData]. *)
Module ByIncident.
Record descriptor (SearchOptions : Type) := {
  companyName : string;
  searchString : string;
  searchOptions : SearchOptions;
}.
Global Arguments companyName {_} _.
Global Arguments searchString {_} _.
Global Arguments searchOptions {_} _.
End ByIncident.

(** The values of [IGenerateSearchStringsCompanyOrProductsBySearchRawData]. *)
Module ByCompanyOrProducts.
Record descriptor (SearchOptions : Type) := {
  companyName : string;
  incidentKeywords : list string;
  searchString : string;
  searchOptions : SearchOptions;
}.
Global Arguments companyName {_} _.
Global Arguments incidentKeywords {_} _.
Global Arguments searchString {_} _.
Global Arguments searchOptions {_} _.
End ByCompanyOrProducts.

Section generators.
Context {SearchOptions : Type}.
Implicit Types (item : ISearchRawData SearchOptions).
Implicit Types (searchRawData : list (ISearchRawData SearchOptions)).

(** *** Variant A: one entry per first-level word and incident keyword *)

(** The [firstSearchWords] of the reducer, after the conditional. *)
Definition firstSearchWordsBySearchRawData item : list string :=
  let firstSearchWords := [companyName item] in
  if negb (Lodash.isEmpty (productNames item))
  then (λ productName, companyName item +:+ " " +:+ productName) <$> productNames item
  else firstSearchWords.

(** The reducer: [memo[`${partOfSearch} ${incidentKeyword}`] = {...}] for
    every first-level word and, inside, every incident keyword. The name
    assigned to holds a space, so it is never ["__proto__"] and the
    assignment is [JsObject.set]. *)
Definition searchStringsBySearchRawDataStep
    (memo : JsObject.t (ByIncident.descriptor SearchOptions)) item :
    JsObject.t (ByIncident.descriptor SearchOptions) :=
  Lodash.each (firstSearchWordsBySearchRawData item)
    (λ memo partOfSearch _,
       Lodash.each (incidentKeywords item)
         (λ memo incidentKeyword _,
            JsObject.set memo (partOfSearch +:+ " " +:+ incidentKeyword)
              {| ByIncident.companyName := companyName item;
                 ByIncident.searchString := partOfSearch +:+ " " +:+ incidentKeyword;
                 ByIncident.searchOptions := searchOptions item |})
         memo)
    memo.

Definition generateSearchStringsBySearchRawData searchRawData :
    JsObject.t (ByIncident.descriptor SearchOptions) :=
  Lodash.reduce searchRawData
    (λ memo item _, searchStringsBySearchRawDataStep memo item)
    JsObject.empty.

(** *** Variant B: one entry per first-level word

    The name assigned to is a company or product name as the record gives
    it, so it can be any string: the assignment is [JsObject.assign]. *)

Definition firstSearchWordsCompanyOrProducts item : list string :=
  let firstSearchWords := [companyName item] in
  if negb (Lodash.isEmpty (productNames item))
  then firstSearchWords ++ productNames item
  else firstSearchWords.

Definition searchStringsCompanyOrProductsStep
    (memo : JsObject.t (ByCompanyOrProducts.descriptor SearchOptions)) item :
    JsObject.t (ByCompanyOrProducts.descriptor SearchOptions) :=
  Lodash.each (firstSearchWordsCompanyOrProducts item)
    (λ memo searchString _,
       JsObject.assign memo searchString
         {| ByCompanyOrProducts.companyName := companyName item;
            ByCompanyOrProducts.incidentKeywords := incidentKeywords item;
            ByCompanyOrProducts.searchString := searchString;
            ByCompanyOrProducts.searchOptions := searchOptions item |})
    memo.

Definition generateSearchStringsCompanyOrProductsBySearchRawData searchRawData :
    JsObject.t (ByCompanyOrProducts.descriptor SearchOptions) :=
  Lodash.reduce searchRawData
    (λ memo item _, searchStringsCompanyOrProductsStep memo item)
    JsObject.empty.

(** *** The own properties a record writes, as data *)

Definition descriptorBySearchRawData item (query : string) :
    ByIncident.descriptor SearchOptions :=
  {| ByIncident.companyName := companyName item;
     ByIncident.searchString := query;
     ByIncident.searchOptions := searchOptions item |}.

Definition writesBySearchRawData item :
    list (string * ByIncident.descriptor SearchOptions) :=
  partOfSearch ← firstSearchWordsBySearchRawData item;
  (λ incidentKeyword,
     (partOfSearch +:+ " " +:+ incidentKeyword,
      descriptorBySearchRawData item (partOfSearch +:+ " " +:+ incidentKeyword)))
    <$> incidentKeywords item.

Definition descriptorCompanyOrProducts item (word : string) :
    ByCompanyOrProducts.descriptor SearchOptions :=
  {| ByCompanyOrProducts.companyName := companyName item;
     ByCompanyOrProducts.incidentKeywords := incidentKeywords item;
     ByCompanyOrProducts.searchString := word;
     ByCompanyOrProducts.searchOptions := searchOptions item |}.

Definition writesCompanyOrProducts item :
    list (string * ByCompanyOrProducts.descriptor SearchOptions) :=
  (λ word, (word, descriptorCompanyOrProducts item word))
    <$> filter (λ word, word ≠ "__proto__") (firstSearchWordsCompanyOrProducts item).

End generators.

(** ** The session provider

    [getBrowserContextWithLoggedInStoregeState] awaits the browser engine,
    the file system and a platform login routine in turn. One invocation is
    a computation over the world it touches: the files of the working
    directory and what the file system does with a write, the sessions the
    browser has handed out, and the console. A computation returns a value
    or throws. *)

Module Session.

(** A session handle, as [browser.newContext] returns it: the order number
    of its creation and the storage state it was seeded with, if any. *)
Record BrowserContext := {
  contextId : nat;
  seededWith : option string;
}.

(** What the run did, in order. [ConsoleLog message] is [console.log] of a
    string; [ConsoleLogValue label json] is [console.log(label, value)] of
    the value whose JSON text is [json]; [WriteFile] is a write that was
    made. *)
Inductive Event :=
  | NewContext (context : BrowserContext)
  | ConsoleLog (message : string)
  | ConsoleLogValue (label json : string)
  | Login (platform : string) (userCredential : IUserCredentials)
      (context : BrowserContext)
  | WriteFile (name content : string).

(** What the file system does with a write: it makes it, or it fails (the
    name lies in a directory that does not exist, as the storage name of a
    user name with a ["/"] does; the file may not be written; no room is
    left) and leaves the file with the content [residue], or without
    one. *)
Inductive WriteResult :=
  | Written
  | Failed (residue : option string).

Record World := {
  files : gmap string string;
  fileSystem : string → string → WriteResult;
  nextContextId : nat;
  trace : list Event;
}.

Inductive Outcome (A : Type) :=
  | Returned (value : A)
  | Thrown.
Global Arguments Returned {A} _.
Global Arguments Thrown {A}.

Definition M (A : Type) : Type := World → Outcome A * World.

Definition ret {A} (value : A) : M A := λ w, (Returned value, w).

Definition throw {A} : M A := λ w, (Thrown, w).

Definition bind {A B} (m : M A) (k : A → M B) : M B :=
  λ w, match m w with
       | (Returned a, w') => k a w'
       | (Thrown, w') => (Thrown, w')
       end.

(** [try { m } catch (e) { handler }]. *)
Definition tryCatch {A} (m : M A) (handler : M A) : M A :=
  λ w, match m w with
       | (Returned a, w') => (Returned a, w')
       | (Thrown, w') => handler w'
       end.

Definition emit (e : Event) : M unit :=
  λ w, (Returned tt,
        {| files := files w; fileSystem := fileSystem w;
           nextContextId := nextContextId w;
           trace := trace w ++ [e] |}).

(** [browser.newContext(options)]. *)
Definition newContext (storageState : option string) : M BrowserContext :=
  λ w, let context :=
         {| contextId := nextContextId w; seededWith := storageState |} in
       (Returned context,
        {| files := files w; fileSystem := fileSystem w;
           nextContextId := S (nextContextId w);
           trace := trace w ++ [NewContext context] |}).

(** [fs.readFile(name, 'utf-8')]: throws when there is no such file. *)
Definition readFile (name : string) : M string :=
  λ w, match files w !! name with
       | Some content => (Returned content, w)
       | None => (Thrown, w)
       end.

(** [fs.writeFile(name, content, 'utf-8')]: throws when the file system
    fails to make the write, and the file is then as the failure left it. *)
Definition writeFile (name content : string) : M unit :=
  λ w, match fileSystem w name content with
       | Written =>
           (Returned tt,
            {| files := <[name := content]> (files w);
               fileSystem := fileSystem w;
               nextContextId := nextContextId w;
               trace := trace w ++ [WriteFile name content] |})
       | Failed residue =>
           (Thrown,
            {| files := partial_alter (λ _, residue) name (files w);
               fileSystem := fileSystem w;
               nextContextId := nextContextId w;
               trace := trace w |})
       end.

Definition consoleLog (message : string) : M unit := emit (ConsoleLog message).

(** [console.log(label, value)]. *)
Definition consoleLogValue (label json : string) : M unit :=
  emit (ConsoleLogValue label json).

End Session.

Global Instance session_ret : MRet Session.M := @Session.ret.
Global Instance session_bind : MBind Session.M := λ A B k m, Session.bind m k.

Section session_provider.

(** What lies outside the module: whether [JSON.parse] accepts a string, and
    what the two platform login routines answer for a credential on a fresh
    session: the JSON text of the storage state they obtain, or [None] when
    the browser automation throws. *)
Variable validJSON : string → bool.
Variable facebookLogin : IUserCredentials → Session.BrowserContext → option string.
Variable instagramLogin : IUserCredentials → Session.BrowserContext → option string.

Definition JSON_parse (text : string) : Session.M string :=
  if validJSON text then Session.ret text else Session.throw.

(** The routine of [./facebook]: the automation of the login page, then
    [console.log('getStorageStateAfterFacebookLogin', storage)], then
    [JSON.stringify(storage)] as the result. *)
Definition getStorageStateAfterFacebookLogin (userCredentials : IUserCredentials)
    (context : Session.BrowserContext) : Session.M string :=
  Session.emit (Session.Login "facebook" userCredentials context);;
  match facebookLogin userCredentials context with
  | Some storage =>
      Session.consoleLogValue "getStorageStateAfterFacebookLogin" storage;;
      Session.ret storage
  | None => Session.throw
  end.

(** The routine of [./instagram], of which the module uses the call and the
    result only: the trace records the call. *)
Definition getStorageStateAfterInstagramLogin (userCredentials : IUserCredentials)
    (context : Session.BrowserContext) : Session.M string :=
  Session.emit (Session.Login "instagram" userCredentials context);;
  match instagramLogin userCredentials context with
  | Some storage => Session.ret storage
  | None => Session.throw
  end.

Definition getBrowserContextWithLoggedInStoregeState
    (userCredential : IUserCredentials) : Session.M Session.BrowserContext :=
  context ← Session.newContext None ;
  storageState ←
    Session.tryCatch
      (Session.readFile (getNameForStorageStateByUserCredential userCredential))
      (Session.consoleLog
         ("No file " +:+ getNameForStorageStateByUserCredential userCredential);;
       Session.ret "");
  if decide (0 < String.length storageState) then
    state ← JSON_parse storageState ;
    Session.newContext (Some state)
  else
    let persist := λ storageState : string,
      Session.writeFile (getNameForStorageStateByUserCredential userCredential)
        storageState;;
      Session.ret context in
    if decide (type userCredential = "facebook") then
      storageState ← getStorageStateAfterFacebookLogin userCredential context ;
      persist storageState
    else if decide (type userCredential = "instagram") then
      storageState ← getStorageStateAfterInstagramLogin userCredential context ;
      persist storageState
    else
      Session.ret context.

End session_provider.

(** The keyed mapping [getBrowserContextsByUserCredentialsKey] builds once
    [Promise.all] has resolved: [browserContexts] holds, at every position,
    the session obtained for the credential at that position. The name
    assigned to is an identity key, which holds a ["-"] and so is never
    ["__proto__"]: the assignment is [JsObject.set]. *)
Definition browserContextsByUserCredentials {BrowserContext : Type}
    (userCredentials : list IUserCredentials)
    (browserContexts : list BrowserContext) : JsObject.t (option BrowserContext) :=
  Lodash.reduce userCredentials
    (λ memo item i,
       JsObject.set memo (getKeyByUserCredential item) (browserContexts !! i))
    JsObject.empty.

(** ** The work partitioner

    A share is [searchStringsByChanks[index]]: an array of keys, or
    [undefined] ([None]) when the index is past the last chunk. The second
    argument is either generator's result; only its keys are read. *)

(** The chunks of the key list for a platform group of [sizeOfParts]
    credentials. [sizeOfParts] is positive for every group [groupBy] makes. *)
Definition searchStringsByChanks (searchStringsKeys : list string)
    (sizeOfParts : nat) : list (list string) :=
  let totalSize := length searchStringsKeys in
  if decide (totalSize ≤ sizeOfParts)
  then [searchStringsKeys]
  else Lodash.chunk searchStringsKeys (Lodash.ceilDiv totalSize sizeOfParts).

(** The assignments the loop over one platform group makes, as data. *)
Definition groupAssignments (searchStringsKeys : list string)
    (group : list IUserCredentials) : list (string * option (list string)) :=
  imap (λ index userCredential,
          (getKeyByUserCredential userCredential,
           searchStringsByChanks searchStringsKeys (length group) !! index))
       group.

Section partitioner.
Context {Descriptor : Type}.

(** The reducer over the platform groups. The name assigned to is an
    identity key, never ["__proto__"]: the assignment is [JsObject.set]. *)
Definition searchStringsByBrowserContextsStep (searchStringsKeys : list string)
    (memo : JsObject.t (option (list string)))
    (userCredentialsByType : list IUserCredentials) :
    JsObject.t (option (list string)) :=
  let sizeOfParts := length userCredentialsByType in
  Lodash.each userCredentialsByType
    (λ memo userCredentialByType index,
       JsObject.set memo (getKeyByUserCredential userCredentialByType)
         (searchStringsByChanks searchStringsKeys sizeOfParts !! index))
    memo.

Definition getSearchStringsByBrowserContexts
    (userCredentials : list IUserCredentials)
    (searchStrings : JsObject.t Descriptor) : JsObject.t (option (list string)) :=
  let groupedUserCredentialsByType := Lodash.groupBy userCredentials type in
  let searchStringsKeys := JsObject.keys searchStrings in
  Lodash.reduceObject groupedUserCredentialsByType
    (searchStringsByBrowserContextsStep searchStringsKeys)
    JsObject.empty.

End partitioner.

(** ** The pacing utility

    A JavaScript number is an IEEE 754 binary64 value: a [spec_float] at
    precision 53 and exponent bound 1024, with the multiplication of the
    standard library's specification of floating-point arithmetic (round to
    nearest, ties to even). *)

Module Number.

(** [x * y]. *)
Definition mul : spec_float → spec_float → spec_float := SFmul 53 1024.

(** The values a double can take: the significand and exponent are the
    canonical ones. *)
Definition wellFormed (x : spec_float) : Prop := valid_binary 53 1024 x = true.

Definition isFinite (x : spec_float) : bool :=
  match x with
  | S754_zero _ | S754_finite _ _ _ => true
  | S754_infinity _ | S754_nan => false
  end.

(** The rational a finite number stands for. *)
Definition value (x : spec_float) : Q :=
  match x with
  | S754_finite s m e => (inject_Z (cond_Zopp s (Zpos m)) * 2 ^ e)%Q
  | _ => 0%Q
  end.

End Number.

(** [Math.floor(x)]. On a finite number the result is the integer below it,
    which is a number itself, and is returned as that integer; [None] stands
    for the [NaN] or infinity that [Math.floor] passes through. *)
Definition Math_floor (x : spec_float) : option Z :=
  if Number.isFinite x then Some (Qfloor (Number.value x)) else None.

Section pacing.

(** The constant of [./constants]. *)
Variable MAX_RANDOM_DELAY_TIME : spec_float.

(** [random] is what [Math.random()] returns in this call; [max] is [None]
    when the argument is left out, and the default then applies. *)
Definition getRandomDelayTimeInSecound (random : spec_float)
    (max : option spec_float) : option Z :=
  let max := default MAX_RANDOM_DELAY_TIME max in
  Math_floor (Number.mul random max).

End pacing.

(** ** The search URL of [./facebook]

    [encodeURIComponent] works on the UTF-8 encoding of its argument, which
    is what a [string] holds here: a byte that is an unreserved ASCII
    character stands for itself, every other byte becomes ["%"] and its two
    upper-case hexadecimal digits. A string with a lone surrogate, on which
    [encodeURIComponent] throws, has no UTF-8 encoding and is outside the
    embedding. *)

Module Uri.

(** The characters [encodeURIComponent] leaves alone: letters, digits and
    [- _ . ! ~ * ' ( )]. *)
Definition isUnreserved (c : ascii) : bool :=
  let n := N_of_ascii c in
  ((65 <=? n) && (n <=? 90) || (97 <=? n) && (n <=? 122) ||
   (48 <=? n) && (n <=? 57))%N ||
  bool_decide (c ∈ ["-"; "_"; "."; "!"; "~"; "*"; "'"; "("; ")"]%char).

Definition hexDigit (n : N) : ascii :=
  match n with
  | 0 => "0" | 1 => "1" | 2 => "2" | 3 => "3" | 4 => "4" | 5 => "5"
  | 6 => "6" | 7 => "7" | 8 => "8" | 9 => "9" | 10 => "A" | 11 => "B"
  | 12 => "C" | 13 => "D" | 14 => "E" | _ => "F"
  end%N%char.

Definition escape (c : ascii) : string :=
  let n := N_of_ascii c in
  String "%" (String (hexDigit (n / 16)) (String (hexDigit (n mod 16)) "")).

Definition encodeByte (c : ascii) : string :=
  if isUnreserved c then String c "" else escape c.

Fixpoint encodeURIComponent (s : string) : string :=
  match s with
  | EmptyString => ""
  | String c s' => encodeByte c +:+ encodeURIComponent s'
  end.

End Uri.

Section facebook_search.

(** The constant of [./constants]. *)
Variable FACEBOOK_FILTERS_STRING : string.

(** [filter] is [None] when the argument is left out. *)
Definition createFacebookUrlForSearch (searchString : string)
    (filter : option string) : string :=
  let filter := default FACEBOOK_FILTERS_STRING filter in
  "https://www.facebook.com/search/posts?q="
    +:+ Uri.encodeURIComponent searchString +:+ filter.

End facebook_search.

(** ** Sample inputs *)

Definition acme_breach : ISearchRawData unit :=
  {| companyName := "Acme"; productNames := [];
     incidentKeywords := ["breach"]; searchOptions := tt |}.

Definition acme_widget : ISearchRawData unit :=
  {| companyName := "Acme"; productNames := ["Widget"];
     incidentKeywords := ["leak"; "hack"]; searchOptions := tt |}.

(** A company whose name is an array index. *)
Definition year_2023 : ISearchRawData unit :=
  {| companyName := "2023"; productNames := [];
     incidentKeywords := ["recall"]; searchOptions := tt |}.


(** A record without incident keywords. *)
Definition acme_silent : ISearchRawData unit :=
  {| companyName := "Acme"; productNames := ["Widget"];
     incidentKeywords := []; searchOptions := tt |}.

Definition alice_facebook : IUserCredentials :=
  {| type := "facebook"; username := "alice"; password := "first" |}.

Definition alice_facebook_again : IUserCredentials :=
  {| type := "facebook"; username := "alice"; password := "second" |}.

Definition bob_instagram : IUserCredentials :=
  {| type := "instagram"; username := "bob"; password := "third" |}.

Definition carol_elsewhere : IUserCredentials :=
  {| type := "twitter"; username := "carol"; password := "fourth" |}.

Definition dave_facebook : IUserCredentials :=
  {| type := "facebook"; username := "dave"; password := "fifth" |}.

Definition erin_facebook : IUserCredentials :=
  {| type := "facebook"; username := "erin"; password := "sixth" |}.

Definition frank_facebook : IUserCredentials :=
  {| type := "facebook"; username := "frank"; password := "seventh" |}.

(** An object with the five keys ["k1"] to ["k5"]. *)
Definition five_keys : JsObject.t unit :=
  JsObject.assignAll JsObject.empty
    [("k1", tt); ("k2", tt); ("k3", tt); ("k4", tt); ("k5", tt)].

(** The double [6004799503160661 / 2^53], about two thirds. *)
Definition two_thirds : spec_float := S754_finite false 6004799503160661 (-53).

(** The double [3]. *)
Definition three : spec_float := S754_finite false 6755399441055744 (-51).

(** A file system that makes every write to a name without a ["/"], and
    fails, leaving no file, on a name with one. *)
Definition flat_directory (name content : string) : Session.WriteResult :=
  if Str.includes name "/" then Session.Failed None else Session.Written.

Definition fresh_world : Session.World :=
  {| Session.files := ∅; Session.fileSystem := flat_directory;
     Session.nextContextId := 0; Session.trace := [] |}.

(** A working directory that holds a persisted state for [name]. *)
Definition stored_world (name content : string) : Session.World :=
  {| Session.files := <[name := content]> ∅; Session.fileSystem := flat_directory;
     Session.nextContextId := 0; Session.trace := [] |}.

(** A user name with a ["/"]: the storage name lies in a directory
    ["storageStateFor[facebook][a"] that does not exist. *)
Definition slash_facebook : IUserCredentials :=
  {| type := "facebook"; username := "a/b"; password := "eighth" |}.

(** A [JSON.parse] that rejects the text ["{"] only. *)
Definition rejects_open_brace (text : string) : bool := bool_decide (text ≠ "{").

(** * Part II: properties *)

(** ** Strings *)

Section str_facts.
Import Str.

Lemma append_nil_l (s : string) : "" +:+ s = s.
Proof. reflexivity. Qed.

Lemma append_cons (a : ascii) (s t : string) : String a s +:+ t = String a (s +:+ t).
Proof. reflexivity. Qed.

Lemma append_assoc (a b c : string) : (a +:+ b) +:+ c = a +:+ b +:+ c.
Proof.
  induction a as [|x a IH]; [done|]. by rewrite !append_cons, IH.
Qed.

Lemma append_length (a b : string) :
  String.length (a +:+ b) = String.length a + String.length b.
Proof.
  induction a as [|x a IH]; [done|]. rewrite append_cons. simpl. by rewrite IH.
Qed.

Lemma startsWith_spec s needle :
  startsWith s needle = true ↔ ∃ after, s = needle +:+ after.
Proof.
  revert s. induction needle as [|a needle IH]; intros s; simpl.
  - split; [intros _; by exists s | done].
  - destruct s as [|b s].
    + split; [done | intros [after H]; discriminate].
    + destruct (decide (a = b)) as [->|Hne].
      * rewrite IH. split; intros [after H]; exists after;
          rewrite append_cons in *; congruence.
      * split; [done | intros [after H]; rewrite append_cons in H; congruence].
Qed.

Lemma includes_spec s needle : includes s needle = true ↔ occurs_in needle s.
Proof.
  unfold occurs_in. induction s as [|b s IH]; simpl.
  - rewrite orb_false_r, startsWith_spec. split.
    + intros [after H]. by exists EmptyString, after.
    + intros [[|c before] [after H]]; [by exists after | discriminate].
  - rewrite orb_true_iff, startsWith_spec, IH. split.
    + intros [[after H] | (before & after & H)].
      * by exists EmptyString, after.
      * exists (String b before), after. by rewrite append_cons, H.
    + intros [[|c before] [after H]]; [left; by exists after |].
      right. exists before, after. rewrite append_cons in H. congruence.
Qed.

Lemma includes_false s needle : includes s needle = false ↔ ¬ occurs_in needle s.
Proof. rewrite <- includes_spec. destruct (includes s needle); naive_solver. Qed.

End str_facts.

(** C10. The classifier decides by containment, not by prefix: a key in
    which ["facebook-"] occurs anywhere is classified ['facebook'], also the
    key of an instagram credential whose username contains ["facebook-"];
    otherwise a key in which ["instagram-"] occurs anywhere is classified
    ['instagram']; otherwise the result is [undefined]. *)
Theorem classifier_by_containment :
  (∀ key, Str.occurs_in "facebook-" key →
     getTypeForBrowserContextByUserCredentialsKey key = Some "facebook") ∧
  (∀ key, ¬ Str.occurs_in "facebook-" key → Str.occurs_in "instagram-" key →
     getTypeForBrowserContextByUserCredentialsKey key = Some "instagram") ∧
  (∀ key, ¬ Str.occurs_in "facebook-" key → ¬ Str.occurs_in "instagram-" key →
     getTypeForBrowserContextByUserCredentialsKey key = None) ∧
  (∀ name rest pwd,
     getTypeForBrowserContextByUserCredentialsKey
       (getKeyByUserCredential
          {| type := "instagram"; username := name +:+ "facebook-" +:+ rest;
             password := pwd |}) = Some "facebook").
Proof.
  unfold getTypeForBrowserContextByUserCredentialsKey.
  split_and!.
  - intros key H. apply includes_spec in H. by rewrite H.
  - intros key Hf Hi. apply includes_false in Hf. apply includes_spec in Hi.
    by rewrite Hf, Hi.
  - intros key Hf Hi. apply includes_false in Hf, Hi. by rewrite Hf, Hi.
  - intros name rest pwd.
    assert (Str.occurs_in "facebook-"
              (getKeyByUserCredential
                 {| type := "instagram"; username := name +:+ "facebook-" +:+ rest;
                    password := pwd |})) as H.
    { exists ("instagram-" +:+ name), rest. unfold getKeyByUserCredential. simpl.
      by rewrite append_assoc. }
    apply includes_spec in H. by rewrite H.
Qed.

Lemma classifier_by_containment_witness :
  Str.occurs_in "facebook-" "instagram-facebook-page" ∧
  getTypeForBrowserContextByUserCredentialsKey "instagram-facebook-page"
  = Some "facebook".
Proof.
  assert (Str.occurs_in "facebook-" "instagram-facebook-page") as Hoccurs
    by (exists "instagram-", "page"; reflexivity).
  split; [exact Hoccurs|].
  exact (proj1 classifier_by_containment "instagram-facebook-page" Hoccurs).
Defined.

(** ** Plain objects *)

Section obj_facts.
Import JsObject.
Context {V : Type}.
Implicit Types (o ws : list (string * V)) (k : string) (v : V).

Lemma get_set o k v k' :
  get (set o k v) k' = if decide (k = k') then Some v else get o k'.
Proof.
  induction o as [|[k0 v0] o IH]; simpl.
  - by destruct (decide (k = k')).
  - destruct (decide (k0 = k)) as [->|Hne]; simpl.
    + by destruct (decide (k = k')).
    + rewrite IH. destruct (decide (k0 = k')) as [->|]; [|done].
      by rewrite decide_False.
Qed.

Lemma get_set_eq o k v : get (set o k v) k = Some v.
Proof. rewrite get_set. by case_decide. Qed.

Lemma get_set_ne o k v k' : k ≠ k' → get (set o k v) k' = get o k'.
Proof. intros. rewrite get_set. by case_decide. Qed.

Lemma get_Some_elem_of o k v : get o k = Some v → (k, v) ∈ o.
Proof.
  induction o as [|[k0 v0] o IH]; simpl; [done|].
  destruct (decide (k0 = k)) as [->|Hne]; intros H.
  - injection H as ->. left.
  - right. auto.
Qed.

Lemma get_None o k : get o k = None ↔ k ∉ o.*1.
Proof.
  induction o as [|[k0 v0] o IH].
  - split; [intros _; apply not_elem_of_nil | done].
  - cbn [get]. rewrite fmap_cons, not_elem_of_cons. cbn [fst].
    destruct (decide (k0 = k)) as [->|Hne].
    + split; [done | by intros [? _]].
    + rewrite IH. split; [by split | by intros [_ ?]].
Qed.

Lemma get_is_Some o k : is_Some (get o k) ↔ k ∈ o.*1.
Proof.
  rewrite <- not_eq_None_Some, get_None.
  destruct (decide (k ∈ o.*1)); naive_solver.
Qed.

Lemma fst_set o k v :
  (set o k v).*1 = if decide (k ∈ o.*1) then o.*1 else o.*1 ++ [k].
Proof.
  induction o as [|[k0 v0] o IH]; [done|].
  cbn [set]. destruct (decide (k0 = k)) as [->|Hk]; rewrite !fmap_cons; cbn [fst].
  - by rewrite decide_True by left.
  - rewrite IH. destruct (decide (k ∈ o.*1)) as [Hin|Hin].
    + by rewrite decide_True by (by right).
    + rewrite decide_False; [done|]. rewrite elem_of_cons. intros [?|?]; done.
Qed.

Lemma wf_empty : wf (@JsObject.empty V).
Proof. constructor. Qed.

Lemma wf_set o k v : wf o → wf (set o k v).
Proof.
  unfold wf. rewrite fst_set. case_decide; [done|].
  intros. apply NoDup_app. split_and!; [done | | apply NoDup_singleton].
  intros x Hx ->%list_elem_of_singleton. done.
Qed.

Lemma wf_assignAll o writes : wf o → wf (assignAll o writes).
Proof.
  revert o. induction writes as [|w ws IH]; intros o Ho; [done|].
  apply IH. by apply wf_set.
Qed.

Lemma elem_of_get o k v : wf o → (k, v) ∈ o → get o k = Some v.
Proof.
  unfold wf. induction o as [|[k0 v0] o IH]; simpl.
  - by intros _ ?%elem_of_nil.
  - rewrite NoDup_cons, elem_of_cons. intros [Hk0 Ho] [?|Hin]; simplify_eq.
    + by rewrite decide_True.
    + rewrite decide_False; [auto|]. intros ->. apply Hk0.
      by apply (list_elem_of_fmap_2 fst) in Hin.
Qed.

Lemma assignAll_app o ws1 ws2 :
  assignAll o (ws1 ++ ws2) = assignAll (assignAll o ws1) ws2.
Proof. apply foldl_app. Qed.

Lemma assignAll_snoc o ws k v :
  assignAll o (ws ++ [(k, v)]) = set (assignAll o ws) k v.
Proof. by rewrite assignAll_app. Qed.

(** Reading after a run of assignments: the last assignment to the name
    decides; a name not assigned keeps what it had. *)
Lemma get_assignAll_last o ws1 k v ws2 :
  k ∉ ws2.*1 → get (assignAll o (ws1 ++ (k, v) :: ws2)) k = Some v.
Proof.
  induction ws2 as [|[k2 v2] ws2 IH] using rev_ind; intros Hk.
  - by rewrite assignAll_snoc, get_set_eq.
  - rewrite fmap_app, not_elem_of_app in Hk. destruct Hk as [Hk Hk2].
    rewrite app_comm_cons, app_assoc, assignAll_snoc, get_set_ne; [auto|].
    intros ->. apply Hk2. simpl. left.
Qed.

Lemma get_assignAll_notin o ws k :
  k ∉ ws.*1 → get (assignAll o ws) k = get o k.
Proof.
  induction ws as [|[k2 v2] ws IH] using rev_ind; intros Hk; [done|].
  rewrite fmap_app, not_elem_of_app in Hk. destruct Hk as [Hk Hk2].
  rewrite assignAll_snoc, get_set_ne; [auto|].
  intros ->. apply Hk2. simpl. left.
Qed.

(** Every name assigned has a last assignment. *)
Lemma last_assignment (ws : list (string * V)) k :
  k ∈ ws.*1 → ∃ ws1 v ws2, ws = ws1 ++ (k, v) :: ws2 ∧ k ∉ ws2.*1.
Proof.
  induction ws as [|[k2 v2] ws IH]; simpl.
  - by intros ?%elem_of_nil.
  - intros Hin. destruct (decide (k ∈ ws.*1)) as [Hk|Hk].
    + destruct (IH Hk) as (ws1 & v & ws2 & -> & Hn).
      by exists ((k2, v2) :: ws1), v, ws2.
    + apply elem_of_cons in Hin as [->|?]; [|done].
      by exists [], v2, ws.
Qed.

Lemma get_assignAll_Some o ws k v :
  get (assignAll o ws) k = Some v →
  ((k ∉ ws.*1) ∧ get o k = Some v) ∨
  (∃ ws1 ws2, ws = ws1 ++ (k, v) :: ws2 ∧ k ∉ ws2.*1).
Proof.
  intros Hget. destruct (decide (k ∈ ws.*1)) as [Hk|Hk].
  - right. destruct (last_assignment ws k Hk) as (ws1 & v' & ws2 & -> & Hn).
    rewrite get_assignAll_last in Hget by done. simplify_eq. eauto.
  - left. by rewrite get_assignAll_notin in Hget.
Qed.

Lemma fst_assignAll_elem_of o ws k :
  k ∈ (assignAll o ws).*1 ↔ k ∈ o.*1 ∨ k ∈ ws.*1.
Proof.
  revert o. induction ws as [|[k2 v2] ws IH]; intros o; simpl.
  - rewrite elem_of_nil. tauto.
  - rewrite IH, fst_set, elem_of_cons.
    destruct (decide (k2 ∈ o.*1)) as [Hin|Hin].
    + split; [tauto|]. intros [?|[->|?]]; tauto.
    + rewrite elem_of_app, list_elem_of_singleton. tauto.
Qed.

Lemma entries_Permutation o : entries o ≡ₚ o.
Proof.
  unfold entries, indexProps, nameProps.
  rewrite merge_sort_Permutation.
  induction o as [|[k v] o IH]; [done|].
  cbn [omap list_omap fst]. destruct (arrayIndex k) as [i|] eqn:Hk.
  - rewrite filter_cons_False by (cbn [fst]; congruence).
    rewrite fmap_cons. cbn [snd]. by rewrite <- app_comm_cons, IH.
  - rewrite filter_cons_True by done.
    rewrite <- Permutation_middle. by rewrite IH.
Qed.

Lemma keys_Permutation o : keys o ≡ₚ o.*1.
Proof. unfold keys. by rewrite entries_Permutation. Qed.

Lemma values_Permutation o : values o ≡ₚ o.*2.
Proof. unfold values. by rewrite entries_Permutation. Qed.

Lemma elem_of_keys o k : k ∈ keys o ↔ is_Some (get o k).
Proof. by rewrite keys_Permutation, get_is_Some. Qed.

Lemma NoDup_keys o : wf o → NoDup (keys o).
Proof. unfold wf. by rewrite keys_Permutation. Qed.

(** Without array-index names, enumeration order is creation order. *)
Lemma entries_no_index o :
  Forall (λ e, arrayIndex e.1 = None) o → entries o = o.
Proof.
  intros Hall. unfold entries, indexProps, nameProps.
  replace (omap _ o) with (@nil (N * (string * V))).
  - cbn [merge_sort merge_sort_aux merge_stack fmap list_fmap app].
    induction Hall as [|e o He Hall IH]; [done|].
    rewrite filter_cons_True by done. by rewrite IH.
  - induction Hall as [|e o He Hall IH]; [done|].
    cbn [omap list_omap]. by rewrite He.
Qed.

Lemma get_assignAll_functional o ws k v :
  k ∈ ws.*1 → (∀ v', (k, v') ∈ ws → v' = v) → get (assignAll o ws) k = Some v.
Proof.
  intros Hk Hfun.
  destruct (last_assignment ws k Hk) as (ws1 & v' & ws2 & -> & Hn).
  rewrite get_assignAll_last by done. f_equal. apply Hfun.
  rewrite elem_of_app, elem_of_cons. auto.
Qed.

Lemma elem_of_keys_assignAll ws k : k ∈ keys (assignAll empty ws) ↔ k ∈ ws.*1.
Proof.
  rewrite keys_Permutation, fst_assignAll_elem_of.
  split; [intros [H|H]; [by apply elem_of_nil in H | done] | auto].
Qed.

(** A fold that lets every record make its run of assignments. *)
Lemma foldl_assignAll {R} (writes : R → list (string * V)) o (records : list R) :
  foldl (λ memo r, assignAll memo (writes r)) o records
  = assignAll o (records ≫= writes).
Proof.
  revert o. induction records as [|r records IH]; intros o; [done|].
  cbn [foldl]. by rewrite IH, bind_cons, assignAll_app.
Qed.

Lemma foldl_set_fmap {A} (key : A → string) (val : A → V) o (l : list A) :
  foldl (λ memo a, set memo (key a) (val a)) o l
  = assignAll o ((λ a, (key a, val a)) <$> l).
Proof.
  revert o. induction l as [|a l IH]; intros o; [done|].
  cbn [foldl]. by rewrite IH.
Qed.

(** The entry for a name in the result of such a fold is the one the last
    record assigning the name leaves, had it run alone. *)
Lemma foldl_assignAll_last_writer {R} (writes : R → list (string * V))
    (records : list R) k v :
  get (foldl (λ memo r, assignAll memo (writes r)) empty records) k = Some v →
  ∃ before r after,
    records = before ++ r :: after ∧
    get (assignAll empty (writes r)) k = Some v ∧
    Forall (λ later, k ∉ (writes later).*1) after.
Proof.
  induction records as [|r records IH] using rev_ind; [done|].
  rewrite foldl_app. cbn [foldl]. intros Hget.
  destruct (decide (k ∈ (writes r).*1)) as [Hk|Hk].
  - exists records, r, []. split_and!; [done | | done].
    destruct (last_assignment _ _ Hk) as (ws1 & v' & ws2 & Hw & Hn).
    rewrite Hw in Hget |- *. rewrite get_assignAll_last in Hget |- * by done. done.
  - rewrite get_assignAll_notin in Hget by done.
    destruct (IH Hget) as (before & r' & after & -> & Hr' & Hafter).
    exists before, r', (after ++ [r]). split_and!; [| done |].
    + by rewrite <- app_assoc.
    + apply Forall_app. split; [done|]. by apply Forall_singleton.
Qed.

End obj_facts.

(** Enumeration: array-index names first, by value; then creation order. An
    assignment to an existing name keeps its place. *)
Example arrayIndex_samples :
  JsObject.arrayIndex
    <$> ["0"; "7"; "10"; "4294967294"; "4294967295"; "01"; ""; "1a"; "-1"]
  = [Some 0; Some 7; Some 10; Some 4294967294; None; None; None; None; None]%N.
Proof. reflexivity. Qed.

Example keys_enumeration_order :
  JsObject.keys
    (JsObject.assignAll JsObject.empty
       [("b", 1); ("10", 2); ("a", 3); ("9", 4); ("b", 5)])
  = ["9"; "10"; "b"; "a"].
Proof. reflexivity. Qed.

(** ** [reduce] and [each] on arrays *)

Lemma foldl_step_ext {A R} (f g : A → R → A) (a : A) (l : list R) :
  (∀ a r, f a r = g a r) → foldl f a l = foldl g a l.
Proof.
  intros Hfg. revert a. induction l as [|r l IH]; intros a; [done|].
  cbn [foldl]. by rewrite Hfg, IH.
Qed.

(** A callback that ignores the index makes a plain left fold. *)
Lemma reduce_foldl {A B} (array : list A) (f : B → A → B) (accumulator : B) :
  Lodash.reduce array (λ memo item _, f memo item) accumulator
  = foldl f accumulator array.
Proof.
  unfold Lodash.reduce.
  rewrite <- (list_fmap_id array) at 2. rewrite <- (imap_const id array).
  replace (imap (const id) array) with (snd <$> imap pair array).
  - by rewrite foldl_fmap.
  - rewrite fmap_imap. by apply imap_ext.
Qed.

Lemma reduce_set_writes {A V} (array : list A) (key : A → string)
    (val : A → nat → V) (o : JsObject.t V) :
  Lodash.reduce array (λ memo item i, JsObject.set memo (key item) (val item i)) o
  = JsObject.assignAll o (imap (λ i item, (key item, val item i)) array).
Proof.
  unfold Lodash.reduce, JsObject.assignAll.
  replace (imap (λ i item, (key item, val item i)) array)
    with ((λ entry : nat * A, (key entry.2, val entry.2 entry.1)) <$> imap pair array).
  - by rewrite foldl_fmap.
  - rewrite fmap_imap. by apply imap_ext.
Qed.

Lemma each_set_fmap {A V} (array : list A) (key : A → string) (val : A → V)
    (o : JsObject.t V) :
  Lodash.each array (λ memo item _, JsObject.set memo (key item) (val item)) o
  = JsObject.assignAll o ((λ item, (key item, val item)) <$> array).
Proof.
  unfold Lodash.each. rewrite reduce_foldl. apply foldl_set_fmap.
Qed.

(** A loop of plain assignments writes the own properties of all names
    but ["__proto__"]. *)
Lemma each_assign_fmap {A V} (array : list A) (key : A → string) (val : A → V)
    (o : JsObject.t V) :
  Lodash.each array (λ memo item _, JsObject.assign memo (key item) (val item)) o
  = JsObject.assignAll o
      ((λ item, (key item, val item)) <$> filter (λ item, key item ≠ "__proto__") array).
Proof.
  unfold Lodash.each. rewrite reduce_foldl. unfold JsObject.assignAll.
  revert o. induction array as [|item array IH]; intros o; [done|].
  cbn [foldl]. rewrite IH, filter_cons. unfold JsObject.assign.
  destruct (decide (key item = "__proto__")) as [Heq|Hne].
  - by rewrite decide_False by (by intros ?).
  - by rewrite decide_True by done.
Qed.

(** ** The search-string generators *)

Section generator_facts.
Context {SearchOptions : Type}.
Implicit Types (item : ISearchRawData SearchOptions).
Implicit Types (searchRawData : list (ISearchRawData SearchOptions)).

Lemma bySearchRawDataStep_writes memo item :
  searchStringsBySearchRawDataStep memo item
  = JsObject.assignAll memo (writesBySearchRawData item).
Proof.
  unfold searchStringsBySearchRawDataStep, writesBySearchRawData, Lodash.each at 1.
  rewrite reduce_foldl, <- foldl_assignAll. apply foldl_step_ext. intros o partOfSearch.
  apply (each_set_fmap (incidentKeywords item)
           (λ incidentKeyword, partOfSearch +:+ " " +:+ incidentKeyword)
           (λ incidentKeyword,
              descriptorBySearchRawData item (partOfSearch +:+ " " +:+ incidentKeyword))).
Qed.

Lemma bySearchRawData_writes searchRawData :
  generateSearchStringsBySearchRawData searchRawData
  = foldl (λ memo item, JsObject.assignAll memo (writesBySearchRawData item))
      JsObject.empty searchRawData.
Proof.
  unfold generateSearchStringsBySearchRawData. rewrite reduce_foldl.
  apply foldl_step_ext, bySearchRawDataStep_writes.
Qed.

Lemma companyOrProductsStep_writes memo item :
  searchStringsCompanyOrProductsStep memo item
  = JsObject.assignAll memo (writesCompanyOrProducts item).
Proof.
  apply (each_assign_fmap (firstSearchWordsCompanyOrProducts item)
           (λ word, word) (descriptorCompanyOrProducts item)).
Qed.

Lemma companyOrProducts_writes searchRawData :
  generateSearchStringsCompanyOrProductsBySearchRawData searchRawData
  = foldl (λ memo item, JsObject.assignAll memo (writesCompanyOrProducts item))
      JsObject.empty searchRawData.
Proof.
  unfold generateSearchStringsCompanyOrProductsBySearchRawData. rewrite reduce_foldl.
  apply foldl_step_ext, companyOrProductsStep_writes.
Qed.

Lemma elem_of_writesBySearchRawData item q d :
  (q, d) ∈ writesBySearchRawData item ↔
  d = descriptorBySearchRawData item q ∧
  ∃ partOfSearch incidentKeyword,
    partOfSearch ∈ firstSearchWordsBySearchRawData item ∧
    incidentKeyword ∈ incidentKeywords item ∧
    q = partOfSearch +:+ " " +:+ incidentKeyword.
Proof.
  unfold writesBySearchRawData. rewrite list_elem_of_bind. split.
  - intros (w & Hin & Hw). apply list_elem_of_fmap in Hin as (kw & Heq & Hkw).
    injection Heq as -> ->. eauto 6.
  - intros (-> & w & kw & Hw & Hkw & ->). exists w. split; [|done].
    apply list_elem_of_fmap. eauto.
Qed.

Lemma elem_of_keys_writesBySearchRawData item q :
  q ∈ (writesBySearchRawData item).*1 ↔
  ∃ partOfSearch incidentKeyword,
    partOfSearch ∈ firstSearchWordsBySearchRawData item ∧
    incidentKeyword ∈ incidentKeywords item ∧
    q = partOfSearch +:+ " " +:+ incidentKeyword.
Proof.
  rewrite list_elem_of_fmap. split.
  - intros ([q' d] & -> & Hin). by apply elem_of_writesBySearchRawData in Hin as [_ ?].
  - intros H. exists (q, descriptorBySearchRawData item q). split; [done|].
    by apply elem_of_writesBySearchRawData.
Qed.

Lemma elem_of_writesCompanyOrProducts item q d :
  (q, d) ∈ writesCompanyOrProducts item ↔
  d = descriptorCompanyOrProducts item q ∧
  q ∈ firstSearchWordsCompanyOrProducts item ∧ q ≠ "__proto__".
Proof.
  unfold writesCompanyOrProducts. rewrite list_elem_of_fmap. split.
  - intros (w & Heq & [Hne Hw]%list_elem_of_filter). by injection Heq as -> ->.
  - intros (-> & Hq & Hne). exists q. split; [done|]. by apply list_elem_of_filter.
Qed.

Lemma elem_of_keys_writesCompanyOrProducts item q :
  q ∈ (writesCompanyOrProducts item).*1 ↔
  q ∈ firstSearchWordsCompanyOrProducts item ∧ q ≠ "__proto__".
Proof.
  rewrite list_elem_of_fmap. split.
  - intros ([q' d] & -> & Hin). by apply elem_of_writesCompanyOrProducts in Hin as [_ ?].
  - intros H. exists (q, descriptorCompanyOrProducts item q). split; [done|].
    by apply elem_of_writesCompanyOrProducts.
Qed.

(** What one record leaves in the accumulator, for both variants. *)
Lemma get_bySearchRawDataStep memo item q :
  JsObject.get (searchStringsBySearchRawDataStep memo item) q
  = if decide (q ∈ (writesBySearchRawData item).*1)
    then Some (descriptorBySearchRawData item q)
    else JsObject.get memo q.
Proof.
  rewrite bySearchRawDataStep_writes. case_decide as Hq.
  - apply get_assignAll_functional; [done|].
    by intros d [-> _]%elem_of_writesBySearchRawData.
  - by apply get_assignAll_notin.
Qed.


Lemma keys_bySearchRawData_singleton item q :
  q ∈ JsObject.keys (generateSearchStringsBySearchRawData [item]) ↔
  q ∈ (writesBySearchRawData item).*1.
Proof.
  unfold generateSearchStringsBySearchRawData. rewrite reduce_foldl. cbn [foldl].
  by rewrite bySearchRawDataStep_writes, elem_of_keys_assignAll.
Qed.

Lemma keys_companyOrProducts_singleton item q :
  q ∈ JsObject.keys (generateSearchStringsCompanyOrProductsBySearchRawData [item]) ↔
  q ∈ firstSearchWordsCompanyOrProducts item ∧ q ≠ "__proto__".
Proof.
  unfold generateSearchStringsCompanyOrProductsBySearchRawData. rewrite reduce_foldl.
    cbn [foldl].
  by rewrite companyOrProductsStep_writes, elem_of_keys_assignAll,
    elem_of_keys_writesCompanyOrProducts.
Qed.

End generator_facts.

Section generator_words.
Context {SearchOptions : Type}.
Implicit Types (item : ISearchRawData SearchOptions).
Implicit Types (searchRawData : list (ISearchRawData SearchOptions)).

Lemma firstSearchWordsBySearchRawData_empty item :
  productNames item = [] → firstSearchWordsBySearchRawData item = [companyName item].
Proof. unfold firstSearchWordsBySearchRawData. by intros ->. Qed.

Lemma firstSearchWordsBySearchRawData_products item :
  productNames item ≠ [] →
  firstSearchWordsBySearchRawData item
  = (λ productName, companyName item +:+ " " +:+ productName) <$> productNames item.
Proof. unfold firstSearchWordsBySearchRawData. by destruct (productNames item). Qed.

Lemma firstSearchWordsCompanyOrProducts_all item :
  firstSearchWordsCompanyOrProducts item = companyName item :: productNames item.
Proof. unfold firstSearchWordsCompanyOrProducts. by destruct (productNames item). Qed.

Lemma keys_writes_without_products item q :
  productNames item = [] →
  q ∈ (writesBySearchRawData item).*1 ↔
  q ∈ (λ incidentKeyword, companyName item +:+ " " +:+ incidentKeyword)
        <$> incidentKeywords item.
Proof.
  intros Hnone. rewrite elem_of_keys_writesBySearchRawData,
    firstSearchWordsBySearchRawData_empty, list_elem_of_fmap by done.
  split.
  - intros (w & kw & ->%list_elem_of_singleton & Hkw & ->). eauto.
  - intros (kw & -> & Hkw). exists (companyName item), kw.
    by rewrite list_elem_of_singleton.
Qed.

Lemma keys_writes_with_products item q :
  productNames item ≠ [] →
  q ∈ (writesBySearchRawData item).*1 ↔
  ∃ productName incidentKeyword,
    productName ∈ productNames item ∧ incidentKeyword ∈ incidentKeywords item ∧
    q = companyName item +:+ " " +:+ productName +:+ " " +:+ incidentKeyword.
Proof.
  intros Hsome. rewrite elem_of_keys_writesBySearchRawData,
    firstSearchWordsBySearchRawData_products by done.
  split.
  - intros (w & kw & Hw & Hkw & ->).
    apply list_elem_of_fmap in Hw as (p & -> & Hp).
    exists p, kw. by rewrite !append_assoc.
  - intros (p & kw & Hp & Hkw & ->).
    exists (companyName item +:+ " " +:+ p), kw.
    rewrite !append_assoc. split_and!; [|done..].
    apply list_elem_of_fmap. eauto.
Qed.

Lemma elem_of_keys_foldl_assignAll {R V} (writes : R → list (string * V))
    (records : list R) q :
  q ∈ JsObject.keys
        (foldl (λ memo r, JsObject.assignAll memo (writes r)) JsObject.empty records)
  ↔ ∃ r, r ∈ records ∧ q ∈ (writes r).*1.
Proof.
  rewrite foldl_assignAll, elem_of_keys_assignAll, list_elem_of_fmap. split.
  - intros (w & -> & (r & Hw & Hr)%list_elem_of_bind). exists r. split; [done|].
    by apply list_elem_of_fmap_2.
  - intros (r & Hr & (w & -> & Hw)%list_elem_of_fmap). exists w. split; [done|].
    apply list_elem_of_bind. eauto.
Qed.

End generator_words.

(** C3. A record without product names generates, as variant A, exactly the
    queries [companyName + " " + k] for its incident keywords [k], each
    mapped to the descriptor with the record's company name and search
    options (and the query as search string); inside a longer input it
    makes exactly these assignments to the accumulator. *)
Theorem byIncident_without_products {SearchOptions}
    (item : ISearchRawData SearchOptions)
    (memo : JsObject.t (ByIncident.descriptor SearchOptions)) :
  productNames item = [] →
  let query := λ incidentKeyword, companyName item +:+ " " +:+ incidentKeyword in
  let descriptor := λ q,
    {| ByIncident.companyName := companyName item;
       ByIncident.searchString := q;
       ByIncident.searchOptions := searchOptions item |} in
  (∀ q, q ∈ JsObject.keys (generateSearchStringsBySearchRawData [item])
        ↔ q ∈ query <$> incidentKeywords item) ∧
  (∀ q, q ∈ query <$> incidentKeywords item →
        JsObject.get (generateSearchStringsBySearchRawData [item]) q
        = Some (descriptor q)) ∧
  (∀ q, JsObject.get (searchStringsBySearchRawDataStep memo item) q
        = if decide (q ∈ query <$> incidentKeywords item)
          then Some (descriptor q) else JsObject.get memo q).
Proof.
  intros Hnone query descriptor.
  assert (∀ memo' q,
    JsObject.get (searchStringsBySearchRawDataStep memo' item) q
    = if decide (q ∈ query <$> incidentKeywords item)
      then Some (descriptor q) else JsObject.get memo' q) as Hstep.
  { intros memo' q. rewrite get_bySearchRawDataStep.
    destruct (decide (q ∈ (writesBySearchRawData item).*1)) as [Hq|Hq];
      rewrite keys_writes_without_products in Hq by done.
    - by rewrite decide_True.
    - by rewrite decide_False. }
  split_and!.
  - intros q. by rewrite keys_bySearchRawData_singleton, keys_writes_without_products.
  - intros q Hq. unfold generateSearchStringsBySearchRawData. rewrite reduce_foldl. cbn [foldl].
    by rewrite Hstep, decide_True.
  - apply Hstep.
Qed.

(** C4. A record with product names never uses the bare company name as a
    first-level word in variant A: the words are the product names prefixed
    with the company name, and every query the record generates, or assigns
    inside a longer input, is [companyName + " " + productName + " " +
    incidentKeyword]. *)
Theorem byIncident_with_products {SearchOptions}
    (item : ISearchRawData SearchOptions)
    (memo : JsObject.t (ByIncident.descriptor SearchOptions)) :
  productNames item ≠ [] →
  let query := λ productName incidentKeyword,
    companyName item +:+ " " +:+ productName +:+ " " +:+ incidentKeyword in
  let generated := λ q, ∃ productName incidentKeyword,
    productName ∈ productNames item ∧
    incidentKeyword ∈ incidentKeywords item ∧
    q = query productName incidentKeyword in
  (companyName item ∉ firstSearchWordsBySearchRawData item) ∧
  (∀ q, q ∈ JsObject.keys (generateSearchStringsBySearchRawData [item])
        ↔ generated q) ∧
  (∀ q, JsObject.get (searchStringsBySearchRawDataStep memo item) q
        ≠ JsObject.get memo q → generated q).
Proof.
  intros Hsome query generated. split_and!.
  - rewrite firstSearchWordsBySearchRawData_products by done.
    intros (p & Heq & _)%list_elem_of_fmap.
    apply (f_equal String.length) in Heq.
    rewrite !append_length in Heq. cbn [String.length] in Heq. lia.
  - intros q. by rewrite keys_bySearchRawData_singleton, keys_writes_with_products.
  - intros q Hq. rewrite get_bySearchRawDataStep in Hq.
    destruct (decide (q ∈ (writesBySearchRawData item).*1)) as [Hin|Hin]; [|done].
    by apply keys_writes_with_products in Hin.
Qed.


(** C9. Every entry of either generator's output is consistent: its key is
    the descriptor's search string, and the descriptor carries the company
    name of the record that produced the entry, which is the last record of
    the input generating that key; the entry is the one that record
    generates on its own. *)
Theorem generated_entries_consistent {SearchOptions}
    (searchRawData : list (ISearchRawData SearchOptions)) (q : string) :
  (∀ d, JsObject.get (generateSearchStringsBySearchRawData searchRawData) q = Some d →
     ByIncident.searchString d = q ∧
     ∃ before item after,
       searchRawData = before ++ item :: after ∧
       JsObject.get (generateSearchStringsBySearchRawData [item]) q = Some d ∧
       Forall (λ later,
         q ∉ JsObject.keys (generateSearchStringsBySearchRawData [later])) after ∧
       ByIncident.companyName d = companyName item) ∧
  (∀ d, JsObject.get
          (generateSearchStringsCompanyOrProductsBySearchRawData searchRawData) q
        = Some d →
     ByCompanyOrProducts.searchString d = q ∧
     ∃ before item after,
       searchRawData = before ++ item :: after ∧
       JsObject.get (generateSearchStringsCompanyOrProductsBySearchRawData [item]) q
       = Some d ∧
       Forall (λ later,
         q ∉ JsObject.keys
               (generateSearchStringsCompanyOrProductsBySearchRawData [later])) after ∧
       ByCompanyOrProducts.companyName d = companyName item).
Proof.
  split; intros d Hget.
  - rewrite bySearchRawData_writes in Hget.
    apply foldl_assignAll_last_writer in Hget
      as (before & item & after & -> & Hitem & Hafter).
    assert ((q, d) ∈ writesBySearchRawData item) as Hin.
    { apply get_assignAll_Some in Hitem as [[_ ?]|(ws1 & ws2 & Hw & _)]; [done|].
      rewrite Hw, elem_of_app, elem_of_cons. auto. }
    apply elem_of_writesBySearchRawData in Hin as [-> _].
    split; [done|]. exists before, item, after. split_and!; [done | | | done].
    + unfold generateSearchStringsBySearchRawData. rewrite reduce_foldl. cbn [foldl].
      by rewrite bySearchRawDataStep_writes.
    + eapply Forall_impl; [exact Hafter|]. intros later Hlater.
      by rewrite keys_bySearchRawData_singleton.
  - rewrite companyOrProducts_writes in Hget.
    apply foldl_assignAll_last_writer in Hget
      as (before & item & after & -> & Hitem & Hafter).
    assert ((q, d) ∈ writesCompanyOrProducts item) as Hin.
    { apply get_assignAll_Some in Hitem as [[_ ?]|(ws1 & ws2 & Hw & _)]; [done|].
      rewrite Hw, elem_of_app, elem_of_cons. auto. }
    apply elem_of_writesCompanyOrProducts in Hin as [-> _].
    split; [done|]. exists before, item, after. split_and!; [done | | | done].
    + unfold generateSearchStringsCompanyOrProductsBySearchRawData. rewrite reduce_foldl.
    cbn [foldl].
      by rewrite companyOrProductsStep_writes.
    + eapply Forall_impl; [exact Hafter|]. intros later Hlater.
      by rewrite keys_companyOrProducts_singleton,
        <- elem_of_keys_writesCompanyOrProducts.
Qed.

Lemma byIncident_without_products_witness :
  productNames acme_breach = [] ∧
  JsObject.keys (generateSearchStringsBySearchRawData [acme_breach]) = ["Acme breach"] ∧
  JsObject.get (generateSearchStringsBySearchRawData [acme_breach]) "Acme breach"
  = Some {| ByIncident.companyName := "Acme";
            ByIncident.searchString := "Acme breach";
            ByIncident.searchOptions := tt |}.
Proof.
  split; [reflexivity|]. split; [reflexivity|].
  pose proof (byIncident_without_products acme_breach [] eq_refl) as H.
  cbv zeta in H. destruct H as (_ & H & _).
  apply (H "Acme breach"). apply list_elem_of_fmap.
  exists "breach". split; [reflexivity | left].
Defined.

Lemma byIncident_with_products_witness :
  productNames acme_widget ≠ [] ∧
  ("Acme" ∉ firstSearchWordsBySearchRawData acme_widget) ∧
  JsObject.keys (generateSearchStringsBySearchRawData [acme_widget])
  = ["Acme Widget leak"; "Acme Widget hack"].
Proof.
  split; [discriminate|].
  split; [|reflexivity].
  exact (proj1 (byIncident_with_products acme_widget [] ltac:(discriminate))).
Defined.



Lemma generated_entries_consistent_witness :
  JsObject.get (generateSearchStringsBySearchRawData [acme_breach; acme_widget])
    "Acme Widget hack"
  = Some {| ByIncident.companyName := "Acme";
            ByIncident.searchString := "Acme Widget hack";
            ByIncident.searchOptions := tt |} ∧
  ByIncident.searchString
    {| ByIncident.companyName := "Acme";
       ByIncident.searchString := "Acme Widget hack";
       ByIncident.searchOptions := tt |} = "Acme Widget hack".
Proof.
  assert (JsObject.get (generateSearchStringsBySearchRawData [acme_breach; acme_widget])
            "Acme Widget hack"
          = Some {| ByIncident.companyName := "Acme";
                    ByIncident.searchString := "Acme Widget hack";
                    ByIncident.searchOptions := tt |}) as Hget by reflexivity.
  split; [exact Hget|].
  exact (proj1 (proj1 (generated_entries_consistent
                         [acme_breach; acme_widget] "Acme Widget hack") _ Hget)).
Defined.

(** ** The session mapping and the session provider *)

(** Where the last assignment to a name sits in an indexed run. *)
Lemma last_indexed_assignment {A V} (array : list A) (key : A → string)
    (val : A → nat → V) (k : string) :
  k ∈ key <$> array →
  ∃ l last,
    array !! l = Some last ∧ key last = k ∧
    (∀ n c, l < n → array !! n = Some c → key c ≠ k) ∧
    JsObject.get
      (JsObject.assignAll JsObject.empty (imap (λ i item, (key item, val item i)) array)) k
    = Some (val last l).
Proof.
  intros Hk.
  set (ws := imap (λ i item, (key item, val item i)) array).
  assert (∀ n, ws !! n = (λ item, (key item, val item n)) <$> array !! n) as Hws.
  { intros n. unfold ws. by rewrite list_lookup_imap. }
  assert (k ∈ ws.*1) as Hin.
  { unfold ws. rewrite fmap_imap.
    replace (imap _ array) with (key <$> array); [done|].
    rewrite <- imap_const. by apply imap_ext. }
  destruct (last_assignment ws k Hin) as (ws1 & v & ws2 & Hsplit & Hlast).
  pose proof (Hws (length ws1)) as Hmid.
  rewrite Hsplit, list_lookup_middle in Hmid by done.
  destruct (array !! length ws1) as [last|] eqn:Hl; [|done].
  injection Hmid as Hkey Hval.
  exists (length ws1), last. split_and!; [done | done | |].
  - intros n c Hn Hc Heq. apply Hlast.
    pose proof (Hws n) as Hn'. rewrite Hc, Hsplit in Hn'. cbn [fmap option_fmap option_map] in Hn'.
    rewrite lookup_app_r, lookup_cons_ne_0 in Hn' by lia.
    apply list_elem_of_lookup_2 in Hn'.
    apply (list_elem_of_fmap_2 fst) in Hn'. by rewrite <- Heq.
  - rewrite Hsplit, get_assignAll_last by done. by rewrite <- Hval.
Qed.

(** C6. When two credentials of the list have the same identity key, the
    session mapping holds for that key the session obtained for the last
    credential with the key, which is not the earlier of the two; when no
    credential after the later one has the key, it is the session obtained
    for the later one. *)
Theorem later_credential_wins {BrowserContext : Type}
    (userCredentials : list IUserCredentials) (browserContexts : list BrowserContext)
    (i j : nat) (earlier later : IUserCredentials) :
  length browserContexts = length userCredentials →
  userCredentials !! i = Some earlier →
  userCredentials !! j = Some later →
  i < j →
  getKeyByUserCredential earlier = getKeyByUserCredential later →
  let mapping := browserContextsByUserCredentials userCredentials browserContexts in
  let key := getKeyByUserCredential later in
  (∃ l last context,
     j ≤ l ∧ userCredentials !! l = Some last ∧ getKeyByUserCredential last = key ∧
     (∀ n c, l < n → userCredentials !! n = Some c → getKeyByUserCredential c ≠ key) ∧
     browserContexts !! l = Some context ∧
     JsObject.get mapping key = Some (Some context)) ∧
  ((∀ n c, j < n → userCredentials !! n = Some c → getKeyByUserCredential c ≠ key) →
   ∃ context,
     browserContexts !! j = Some context ∧
     JsObject.get mapping key = Some (Some context)).
Proof.
  intros Hlen Hi Hj Hij Hsame mapping key.
  assert (key ∈ getKeyByUserCredential <$> userCredentials) as Hk.
  { apply list_elem_of_fmap. exists later. split; [done|].
    by apply list_elem_of_lookup_2 in Hj. }
  destruct (last_indexed_assignment userCredentials getKeyByUserCredential
              (λ _ n, browserContexts !! n) key Hk)
    as (l & last & Hl & Hlast & Hafter & Hget).
  assert (j ≤ l) as Hjl.
  { destruct (decide (j ≤ l)) as [|Hlt]; [done|]. exfalso.
    apply (Hafter j later); [lia | done | done]. }
  assert (is_Some (browserContexts !! l)) as [context Hctx].
  { apply lookup_lt_is_Some. rewrite Hlen. by apply lookup_lt_Some in Hl. }
  assert (JsObject.get mapping key = Some (Some context)) as Hmap.
  { unfold mapping, browserContextsByUserCredentials.
    by rewrite reduce_set_writes, Hget, Hctx. }
  split.
  - exists l, last, context. by split_and!.
  - intros Hnone. assert (l = j) as ->; [|by exists context].
    destruct (decide (l = j)) as [|Hne]; [done|]. exfalso.
    apply (Hnone l last); [lia | done | done].
Qed.

Lemma later_credential_wins_witness :
  let userCredentials := [alice_facebook; bob_instagram; alice_facebook_again] in
  length [10; 11; 12] = length userCredentials ∧
  userCredentials !! 0 = Some alice_facebook ∧
  userCredentials !! 2 = Some alice_facebook_again ∧
  0 < 2 ∧
  getKeyByUserCredential alice_facebook = getKeyByUserCredential alice_facebook_again ∧
  JsObject.get (browserContextsByUserCredentials userCredentials [10; 11; 12])
    "facebook-alice"
  = Some (Some 12).
Proof.
  cbv zeta. split_and!; [reflexivity | reflexivity | reflexivity | lia | reflexivity |].
  destruct (later_credential_wins
              [alice_facebook; bob_instagram; alice_facebook_again] [10; 11; 12]
              0 2 alice_facebook alice_facebook_again
              eq_refl eq_refl eq_refl ltac:(lia) eq_refl) as [_ Hlater].
  destruct Hlater as (context & Hcontext & Hget).
  - intros [|[|[|n]]] c Hn Hc; first [lia | discriminate].
  - injection Hcontext as <-. exact Hget.
Defined.

(** Four runs of the session provider: a first login, which persists the
    state; a later run, which reuses it; a login routine that throws; a
    login whose state cannot be written. *)
Example provider_logs_in_and_persists :
  let context := {| Session.contextId := 0; Session.seededWith := None |} in
  getBrowserContextWithLoggedInStoregeState
    (λ _, true) (λ _ _, Some "cookies") (λ _ _, None) alice_facebook fresh_world
  = (Session.Returned context,
     {| Session.files := <["storageStateFor[facebook][alice].json" := "cookies"]> ∅;
        Session.fileSystem := flat_directory;
        Session.nextContextId := 1;
        Session.trace :=
          [Session.NewContext context;
           Session.ConsoleLog "No file storageStateFor[facebook][alice].json";
           Session.Login "facebook" alice_facebook context;
           Session.ConsoleLogValue "getStorageStateAfterFacebookLogin" "cookies";
           Session.WriteFile "storageStateFor[facebook][alice].json" "cookies"] |}).
Proof. vm_compute. reflexivity. Qed.

Example provider_reuses_persisted_state :
  fst (getBrowserContextWithLoggedInStoregeState
         (λ _, true) (λ _ _, None) (λ _ _, None) alice_facebook
         (stored_world "storageStateFor[facebook][alice].json" "cookies"))
  = Session.Returned {| Session.contextId := 1; Session.seededWith := Some "cookies" |}.
Proof. vm_compute. reflexivity. Qed.

Example provider_write_failure_propagates :
  let context := {| Session.contextId := 0; Session.seededWith := None |} in
  getBrowserContextWithLoggedInStoregeState
    (λ _, true) (λ _ _, Some "cookies") (λ _ _, None) slash_facebook fresh_world
  = (Session.Thrown,
     {| Session.files := ∅;
        Session.fileSystem := flat_directory;
        Session.nextContextId := 1;
        Session.trace :=
          [Session.NewContext context;
           Session.ConsoleLog "No file storageStateFor[facebook][a/b].json";
           Session.Login "facebook" slash_facebook context;
           Session.ConsoleLogValue "getStorageStateAfterFacebookLogin" "cookies"] |}).
Proof. vm_compute. reflexivity. Qed.

Example provider_login_failure_propagates :
  fst (getBrowserContextWithLoggedInStoregeState
         (λ _, true) (λ _ _, None) (λ _ _, None) bob_instagram fresh_world)
  = Session.Thrown.
Proof. vm_compute. reflexivity. Qed.

(** C7. For a credential whose type is neither ['facebook'] nor
    ['instagram'], and for which no non-empty persisted state is read (the
    file is missing or empty), the session provider returns the bare session
    it created first, runs no login routine and writes no file: the files
    are as before, and the run adds to the trace the creation of that one
    unseeded session and, for a missing file, the console message. *)
Theorem unknown_type_bare_session
    (validJSON : string → bool)
    (facebookLogin instagramLogin :
       IUserCredentials → Session.BrowserContext → option string)
    (userCredential : IUserCredentials) (w : Session.World) :
  type userCredential ≠ "facebook" →
  type userCredential ≠ "instagram" →
  (Session.files w !! getNameForStorageStateByUserCredential userCredential = None ∨
   Session.files w !! getNameForStorageStateByUserCredential userCredential = Some "") →
  let bare :=
    {| Session.contextId := Session.nextContextId w; Session.seededWith := None |} in
  ∃ w',
    getBrowserContextWithLoggedInStoregeState validJSON facebookLogin instagramLogin
      userCredential w
    = (Session.Returned bare, w') ∧
    Session.files w' = Session.files w ∧
    Session.trace w'
    = Session.trace w ++ Session.NewContext bare ::
        match Session.files w !! getNameForStorageStateByUserCredential userCredential with
        | None =>
            [Session.ConsoleLog
               ("No file " +:+ getNameForStorageStateByUserCredential userCredential)]
        | Some _ => []
        end.
Proof.
  intros Hfacebook Hinstagram Hread bare.
  unfold getBrowserContextWithLoggedInStoregeState.
  unfold mbind, session_bind, Session.bind, Session.tryCatch, Session.readFile,
    Session.newContext, Session.consoleLog, Session.emit, Session.ret.
  cbn [Session.files Session.nextContextId Session.trace].
  destruct Hread as [Hread|Hread]; rewrite Hread.
  - rewrite decide_False by (cbn; lia).
    rewrite decide_False by done. rewrite decide_False by done.
    eexists. split_and!; [reflexivity | reflexivity |].
    cbn [Session.trace]. by rewrite <- app_assoc.
  - rewrite decide_False by (cbn; lia).
    rewrite decide_False by done. rewrite decide_False by done.
    eexists. split_and!; [reflexivity | reflexivity | reflexivity].
Qed.

Lemma unknown_type_bare_session_witness :
  type carol_elsewhere ≠ "facebook" ∧
  type carol_elsewhere ≠ "instagram" ∧
  ∃ w',
    getBrowserContextWithLoggedInStoregeState
      (λ _, true) (λ _ _, None) (λ _ _, None) carol_elsewhere fresh_world
    = (Session.Returned {| Session.contextId := 0; Session.seededWith := None |}, w') ∧
    Session.files w' = ∅.
Proof.
  split; [discriminate|]. split; [discriminate|].
  destruct (unknown_type_bare_session (λ _, true) (λ _ _, None) (λ _ _, None)
              carol_elsewhere fresh_world
              ltac:(discriminate) ltac:(discriminate) (or_introl eq_refl))
    as (w' & Hrun & Hfiles & _).
  exists w'. split; [exact Hrun | exact Hfiles].
Defined.

(** ** The work partitioner *)

Example partition_five_keys_two_credentials :
  getSearchStringsByBrowserContexts [alice_facebook; bob_instagram; dave_facebook] five_keys
  = [("facebook-alice", Some ["k1"; "k2"; "k3"]);
     ("facebook-dave", Some ["k4"; "k5"]);
     ("instagram-bob", Some ["k1"; "k2"; "k3"; "k4"; "k5"])].
Proof. vm_compute. reflexivity. Qed.

Section lodash_facts.
Context {A : Type}.
Implicit Types (array : list A) (size : nat).

Lemma ceilDiv_covers (n d : nat) : 0 < d → n ≤ Lodash.ceilDiv n d * d.
Proof.
  intros Hd. unfold Lodash.ceilDiv.
  pose proof (Nat.div_mod_eq (n + d - 1) d) as Hdiv.
  pose proof (Nat.mod_upper_bound (n + d - 1) d) as Hmod. nia.
Qed.

Lemma ceilDiv_tight (n d : nat) : 0 < d → 0 < n → (Lodash.ceilDiv n d - 1) * d < n.
Proof.
  intros Hd Hn. unfold Lodash.ceilDiv.
  pose proof (Nat.div_mod_eq (n + d - 1) d) as Hdiv.
  pose proof (Nat.mod_upper_bound (n + d - 1) d) as Hmod. nia.
Qed.

Lemma ceilDiv_pos (n d : nat) : 0 < d → 0 < n → 0 < Lodash.ceilDiv n d.
Proof.
  intros Hd Hn. pose proof (ceilDiv_covers n d Hd). nia.
Qed.

Lemma ceilDiv_le (n d q : nat) : 0 < d → n ≤ q * d → Lodash.ceilDiv n d ≤ q.
Proof.
  intros Hd Hq. unfold Lodash.ceilDiv.
  apply Nat.lt_succ_r, Nat.Div0.div_lt_upper_bound. nia.
Qed.

(** With more keys than credentials, chunks of [ceil(N / P)] keys are at
    most [P] chunks. *)
Lemma ceilDiv_chunks (n p : nat) :
  0 < p → p < n → Lodash.ceilDiv n (Lodash.ceilDiv n p) ≤ p.
Proof.
  intros Hp Hn. apply ceilDiv_le.
  - apply ceilDiv_pos; lia.
  - pose proof (ceilDiv_covers n p Hp). nia.
Qed.

Lemma concat_slices array size (n : nat) :
  concat ((λ resIndex, Lodash.slice array (resIndex * size) (resIndex * size + size))
            <$> seq 0 n)
  = take (n * size) array.
Proof.
  induction n as [|n IH]; [done|].
  rewrite seq_S, fmap_app, concat_app, IH. cbn [fmap list_fmap concat].
  rewrite app_nil_r. unfold Lodash.slice.
  replace (0 + n) with n by lia.
  replace (n * size + size - n * size) with size by lia.
  rewrite take_take_drop. f_equal. lia.
Qed.

Lemma length_chunk array size :
  0 < size → length (Lodash.chunk array size) = Lodash.ceilDiv (length array) size.
Proof.
  intros Hsize. unfold Lodash.chunk. case_decide as Hempty.
  - destruct Hempty as [Hnil|?]; [|lia]. rewrite Hnil. unfold Lodash.ceilDiv.
    cbn [length]. symmetry. apply Nat.div_small. lia.
  - by rewrite length_fmap, length_seq.
Qed.

Lemma lookup_chunk array size (i : nat) :
  0 < size →
  Lodash.chunk array size !! i
  = if decide (i < Lodash.ceilDiv (length array) size)
    then Some (take size (drop (i * size) array)) else None.
Proof.
  intros Hsize. case_decide as Hi.
  - unfold Lodash.chunk. rewrite decide_False.
    + rewrite list_lookup_fmap, lookup_seq_lt by done. cbn. unfold Lodash.slice.
      do 2 f_equal. lia.
    + intros [Hnil|?]; [|lia]. rewrite Hnil in Hi. unfold Lodash.ceilDiv in Hi.
      rewrite Nat.div_small in Hi by lia. lia.
  - apply lookup_ge_None. rewrite length_chunk by done. lia.
Qed.

Lemma concat_chunk array size : 0 < size → concat (Lodash.chunk array size) = array.
Proof.
  intros Hsize. unfold Lodash.chunk. case_decide as Hempty.
  - destruct Hempty as [Hnil|?]; [|lia]. by apply nil_length_inv in Hnil as ->.
  - rewrite concat_slices. apply take_ge. by apply ceilDiv_covers.
Qed.

(** Every chunk has [size] elements, but for the last, which has between
    one and [size]. *)
Lemma length_chunk_lookup array size (i : nat) (c : list A) :
  0 < size → Lodash.chunk array size !! i = Some c →
  c = take size (drop (i * size) array) ∧
  0 < length c ≤ size ∧
  (S i < length (Lodash.chunk array size) → length c = size).
Proof.
  intros Hsize Hc. rewrite length_chunk by done.
  rewrite lookup_chunk in Hc by done. case_decide as Hi; [|done].
  injection Hc as <-. split; [done|].
  rewrite length_take, length_drop.
  assert (0 < length array) as Hlen.
  { destruct (decide (0 < length array)) as [|Hz]; [done|].
    assert (length array = 0) as Hnil by lia. rewrite Hnil in Hi. unfold Lodash.ceilDiv in Hi.
    rewrite Nat.div_small in Hi by lia. lia. }
  pose proof (ceilDiv_tight (length array) size Hsize Hlen) as Htight.
  pose proof (ceilDiv_covers (length array) size Hsize) as Hcover.
  split; [nia|]. intros Hnext. nia.
Qed.

(** *** [groupBy] *)

Lemma get_groupBy array (iteratee : A → string) (key : string) :
  JsObject.get (Lodash.groupBy array iteratee) key
  = match filter (λ value, iteratee value = key) array with
    | [] => None
    | group => Some group
    end.
Proof.
  unfold Lodash.groupBy. induction array as [|value array IH] using rev_ind; [done|].
  rewrite foldl_app, filter_app. cbn [foldl].
  set (result := foldl _ JsObject.empty array) in *.
  rewrite filter_cons, filter_nil.
  destruct (decide (iteratee value = key)) as [Heq|Hne].
  - rewrite Heq, IH.
    destruct (filter (λ value0, iteratee value0 = key) array) as [|v group];
      by rewrite get_set_eq.
  - rewrite app_nil_r, <- IH.
    destruct (JsObject.get result (iteratee value)); by rewrite get_set_ne.
Qed.

Lemma wf_groupBy array (iteratee : A → string) :
  JsObject.wf (Lodash.groupBy array iteratee).
Proof.
  unfold Lodash.groupBy. induction array as [|value array IH] using rev_ind.
  - apply wf_empty.
  - rewrite foldl_app. cbn [foldl].
    destruct (JsObject.get _ (iteratee value)); by apply wf_set.
Qed.

End lodash_facts.

Section partitioner_facts.
Context {Descriptor : Type}.
Implicit Types (userCredentials group : list IUserCredentials).
Implicit Types (searchStrings : JsObject.t Descriptor).
Implicit Types (searchStringsKeys : list string).

Lemma step_groupAssignments searchStringsKeys memo group :
  searchStringsByBrowserContextsStep searchStringsKeys memo group
  = JsObject.assignAll memo (groupAssignments searchStringsKeys group).
Proof.
  unfold searchStringsByBrowserContextsStep, Lodash.each, groupAssignments.
  apply (reduce_set_writes group getKeyByUserCredential
           (λ _ index, searchStringsByChanks searchStringsKeys (length group) !! index)).
Qed.

Lemma partition_groupAssignments userCredentials searchStrings :
  getSearchStringsByBrowserContexts userCredentials searchStrings
  = JsObject.assignAll JsObject.empty
      (JsObject.values (Lodash.groupBy userCredentials type)
         ≫= groupAssignments (JsObject.keys searchStrings)).
Proof.
  unfold getSearchStringsByBrowserContexts, Lodash.reduceObject.
  rewrite <- foldl_assignAll. apply foldl_step_ext, step_groupAssignments.
Qed.

Lemma elem_of_values {V} (o : JsObject.t V) (v : V) :
  JsObject.wf o → v ∈ JsObject.values o ↔ ∃ k, JsObject.get o k = Some v.
Proof.
  intros Hwf. rewrite values_Permutation, list_elem_of_fmap. split.
  - intros ([k v'] & -> & Hin). exists k. by apply elem_of_get.
  - intros [k Hk]. exists (k, v). split; [done|]. by apply get_Some_elem_of.
Qed.

Lemma platform_group userCredentials platform group :
  JsObject.get (Lodash.groupBy userCredentials type) platform = Some group →
  group = filter (λ userCredential, type userCredential = platform) userCredentials ∧
  0 < length group.
Proof.
  rewrite get_groupBy. destruct (filter _ userCredentials) as [|c g] eqn:Hf; [done|].
  intros [= <-]. split; [done|]. cbn [length]. lia.
Qed.

Lemma NoDup_fmap_inj_on {A B} (f : A → B) (l : list A) (x y : A) :
  NoDup (f <$> l) → x ∈ l → y ∈ l → f x = f y → x = y.
Proof.
  induction l as [|a l IH]; [by intros _ ?%elem_of_nil|].
  rewrite fmap_cons, NoDup_cons, !elem_of_cons.
  intros [Ha Hl] [->|Hx] [->|Hy] Hxy; [done | | | by apply IH].
  - exfalso. apply Ha. rewrite Hxy. by apply list_elem_of_fmap_2.
  - exfalso. apply Ha. rewrite <- Hxy. by apply list_elem_of_fmap_2.
Qed.

(** With identity keys that are unique across the registry, the returned
    object holds for each credential the share its group's loop assigned. *)
Lemma get_partition userCredentials searchStrings platform group i userCredential :
  NoDup (getKeyByUserCredential <$> userCredentials) →
  JsObject.get (Lodash.groupBy userCredentials type) platform = Some group →
  group !! i = Some userCredential →
  JsObject.get (getSearchStringsByBrowserContexts userCredentials searchStrings)
    (getKeyByUserCredential userCredential)
  = Some (searchStringsByChanks (JsObject.keys searchStrings) (length group) !! i).
Proof.
  intros Hunique Hgroup Hi. rewrite partition_groupAssignments.
  pose proof (wf_groupBy userCredentials type) as Hwf.
  assert (∀ g c t, JsObject.get (Lodash.groupBy userCredentials type) t = Some g →
                   c ∈ g → c ∈ userCredentials ∧ type c = t) as Hmember.
  { intros g c t [-> _]%platform_group [? ?]%list_elem_of_filter. done. }
  apply get_assignAll_functional.
  - apply list_elem_of_fmap.
    exists (getKeyByUserCredential userCredential,
            searchStringsByChanks (JsObject.keys searchStrings) (length group) !! i).
    split; [done|]. apply list_elem_of_bind. exists group. split.
    + apply list_elem_of_lookup. exists i. unfold groupAssignments.
      by rewrite list_lookup_imap, Hi.
    + apply elem_of_values; [done|]. by exists platform.
  - intros share (g & Hin & Hg)%list_elem_of_bind.
    apply elem_of_values in Hg as [t Ht]; [|done].
    apply elem_of_lookup_imap_1 in Hin as (i' & c & Heq & Hc).
    injection Heq as Hkey ->.
    destruct (Hmember g c t Ht) as [Hc_in Hc_type]; [by eapply list_elem_of_lookup_2|].
    destruct (Hmember group userCredential platform Hgroup) as [Hu_in Hu_type];
      [by eapply list_elem_of_lookup_2|].
    assert (userCredential = c) as <-
      by (by apply (NoDup_fmap_inj_on getKeyByUserCredential userCredentials)).
    assert (g = group) as -> by congruence.
    assert (i' = i) as ->; [|done].
    eapply NoDup_lookup; [|exact Hc|exact Hi].
    apply platform_group in Hgroup as [-> _].
    apply NoDup_filter. by apply NoDup_fmap_1 in Hunique.
Qed.

(** When there are at most as many chunks as credentials, the shares that
    are arrays are the chunks, in order. *)
Lemma assigned_shares {A} (array : list A) (key : A → string)
    (chunks : list (list string)) :
  length chunks ≤ length array →
  omap snd (imap (λ index item, (key item, chunks !! index)) array) = chunks.
Proof.
  revert chunks. induction array as [|item array IH]; intros chunks Hlen.
  - destruct chunks; [done | cbn in Hlen; lia].
  - rewrite imap_cons. destruct chunks as [|c chunks]; cbn [omap list_omap snd lookup list_lookup].
    + clear. generalize array. intros l. induction l as [|x l IHl]; [done|].
      rewrite imap_cons. cbn [omap list_omap snd]. apply IHl.
    + f_equal. apply (IH chunks). cbn in Hlen. lia.
Qed.

End partitioner_facts.

(** C1, as the code has it. For a platform group with at least as many
    credentials as there are keys, the chunk list is the single chunk
    holding the whole key list: the loop assigns the entire ordered key list
    to the first credential of the group and [undefined] to every other
    credential of the group; with identity keys unique across the registry
    that is what the returned object holds for them. *)
Theorem partition_first_credential_takes_all {Descriptor : Type}
    (userCredentials : list IUserCredentials)
    (searchStrings : JsObject.t Descriptor)
    (platform : string) (group : list IUserCredentials) :
  JsObject.get (Lodash.groupBy userCredentials type) platform = Some group →
  length (JsObject.keys searchStrings) ≤ length group →
  let searchStringsKeys := JsObject.keys searchStrings in
  let share := λ index : nat,
    if decide (index = 0) then Some searchStringsKeys else None in
  (∀ memo,
     searchStringsByBrowserContextsStep searchStringsKeys memo group
     = JsObject.assignAll memo
         (imap (λ index userCredential,
                  (getKeyByUserCredential userCredential, share index)) group)) ∧
  (NoDup (getKeyByUserCredential <$> userCredentials) →
   ∀ index userCredential,
     group !! index = Some userCredential →
     JsObject.get (getSearchStringsByBrowserContexts userCredentials searchStrings)
       (getKeyByUserCredential userCredential)
     = Some (share index)).
Proof.
  intros Hgroup Hsize searchStringsKeys share.
  assert (∀ index,
    searchStringsByChanks searchStringsKeys (length group) !! index = share index)
    as Hshare.
  { intros index. unfold searchStringsByChanks, share.
    rewrite decide_True by done. by destruct index. }
  split.
  - intros memo. rewrite step_groupAssignments. f_equal.
    apply imap_ext. intros index userCredential _. cbn beta. by rewrite Hshare.
  - intros Hunique index userCredential Hindex.
    rewrite (get_partition _ _ platform group index) by done.
    by rewrite Hshare.
Qed.

Lemma partition_first_credential_takes_all_witness :
  let userCredentials := [alice_facebook; dave_facebook] in
  let searchStrings :=
    generateSearchStringsCompanyOrProductsBySearchRawData [acme_breach] in
  JsObject.get (Lodash.groupBy userCredentials type) "facebook" = Some userCredentials ∧
  length (JsObject.keys searchStrings) ≤ length userCredentials ∧
  NoDup (getKeyByUserCredential <$> userCredentials) ∧
  JsObject.get (getSearchStringsByBrowserContexts userCredentials searchStrings)
    "facebook-alice" = Some (Some ["Acme"]) ∧
  JsObject.get (getSearchStringsByBrowserContexts userCredentials searchStrings)
    "facebook-dave" = Some None.
Proof.
  cbv zeta.
  assert (length (JsObject.keys
                    (generateSearchStringsCompanyOrProductsBySearchRawData [acme_breach]))
          ≤ length [alice_facebook; dave_facebook]) as Hmore by (vm_compute; lia).
  assert (NoDup (getKeyByUserCredential <$> [alice_facebook; dave_facebook]))
    as Hunique by compute_done.
  split; [reflexivity|]. split; [exact Hmore|]. split; [exact Hunique|].
  pose proof (proj2 (partition_first_credential_takes_all
                       [alice_facebook; dave_facebook]
                       (generateSearchStringsCompanyOrProductsBySearchRawData
                          [acme_breach])
                       "facebook" [alice_facebook; dave_facebook] eq_refl Hmore)
                Hunique) as H.
  split.
  - apply (H 0 alice_facebook eq_refl).
  - apply (H 1 dave_facebook eq_refl).
Defined.

(** C1 as stated fails: of two facebook credentials and one key, the second
    credential is assigned [undefined], not the key list. *)
Lemma partition_full_list_for_all_counterexample :
  let userCredentials := [alice_facebook; dave_facebook] in
  let searchStrings :=
    generateSearchStringsCompanyOrProductsBySearchRawData [acme_breach] in
  JsObject.get (Lodash.groupBy userCredentials type) "facebook" = Some userCredentials ∧
  JsObject.keys searchStrings = ["Acme"] ∧
  length userCredentials ≥ length (JsObject.keys searchStrings) ∧
  JsObject.get (getSearchStringsByBrowserContexts userCredentials searchStrings)
    (getKeyByUserCredential dave_facebook) = Some None ∧
  JsObject.get (getSearchStringsByBrowserContexts userCredentials searchStrings)
    (getKeyByUserCredential dave_facebook) ≠ Some (Some (JsObject.keys searchStrings)).
Proof.
  cbv zeta. split_and!; [reflexivity | reflexivity | vm_compute; lia | reflexivity |].
  vm_compute. discriminate.
Qed.

(** C2. For a platform group with fewer credentials than there are keys, the
    key list is split into contiguous chunks of [ceil(N / P)] keys, the last
    one possibly shorter and none empty; there are at most [P] of them; the
    loop assigns chunk [i] to the [i]-th credential of the group, the group
    being the credentials of that platform in their order in the registry;
    and the shares assigned, put end to end, are the key list. With identity
    keys unique across the registry the returned object holds for each
    credential the share assigned to it. *)
Theorem partition_contiguous_chunks {Descriptor : Type}
    (userCredentials : list IUserCredentials)
    (searchStrings : JsObject.t Descriptor)
    (platform : string) (group : list IUserCredentials) :
  JsObject.get (Lodash.groupBy userCredentials type) platform = Some group →
  length group < length (JsObject.keys searchStrings) →
  let searchStringsKeys := JsObject.keys searchStrings in
  let size := Lodash.ceilDiv (length searchStringsKeys) (length group) in
  let chunks := Lodash.chunk searchStringsKeys size in
  let assigned :=
    imap (λ index userCredential,
            (getKeyByUserCredential userCredential, chunks !! index)) group in
  group = filter (λ userCredential, type userCredential = platform) userCredentials ∧
  (∀ i chunk, chunks !! i = Some chunk →
     chunk = take size (drop (i * size) searchStringsKeys) ∧
     0 < length chunk ≤ size ∧
     (S i < length chunks → length chunk = size)) ∧
  length chunks ≤ length group ∧
  concat chunks = searchStringsKeys ∧
  (∀ memo,
     searchStringsByBrowserContextsStep searchStringsKeys memo group
     = JsObject.assignAll memo assigned) ∧
  concat (omap snd assigned) = searchStringsKeys ∧
  (NoDup (getKeyByUserCredential <$> userCredentials) →
   ∀ index userCredential,
     group !! index = Some userCredential →
     JsObject.get (getSearchStringsByBrowserContexts userCredentials searchStrings)
       (getKeyByUserCredential userCredential)
     = Some (chunks !! index)).
Proof.
  intros Hgroup Hsize searchStringsKeys. fold searchStringsKeys in Hsize.
  intros size chunks assigned.
  pose proof (platform_group _ _ _ Hgroup) as [Hfilter Hpos].
  assert (0 < size) as Hsize_pos by (apply ceilDiv_pos; lia).
  assert (searchStringsByChanks searchStringsKeys (length group) = chunks) as Hchunks.
  { unfold searchStringsByChanks. rewrite decide_False; [done | lia]. }
  assert (length chunks ≤ length group) as Hcount.
  { unfold chunks. rewrite length_chunk by done. by apply ceilDiv_chunks. }
  split_and!.
  - done.
  - intros i chunk Hchunk. by apply length_chunk_lookup.
  - done.
  - by apply concat_chunk.
  - intros memo. rewrite step_groupAssignments. f_equal.
    apply imap_ext. intros index userCredential _. cbn beta. by rewrite Hchunks.
  - unfold assigned. rewrite assigned_shares by done. by apply concat_chunk.
  - intros Hunique index userCredential Hindex.
    rewrite (get_partition _ _ platform group index) by done.
    fold searchStringsKeys. by rewrite Hchunks.
Qed.

Lemma partition_contiguous_chunks_witness :
  let userCredentials := [alice_facebook; bob_instagram; dave_facebook] in
  JsObject.get (Lodash.groupBy userCredentials type) "facebook"
  = Some [alice_facebook; dave_facebook] ∧
  length [alice_facebook; dave_facebook] < length (JsObject.keys five_keys) ∧
  NoDup (getKeyByUserCredential <$> userCredentials) ∧
  JsObject.get (getSearchStringsByBrowserContexts userCredentials five_keys)
    "facebook-dave"
  = Some (Some ["k4"; "k5"]).
Proof.
  cbv zeta.
  assert (length [alice_facebook; dave_facebook] < length (JsObject.keys five_keys))
    as Hfewer by (vm_compute; lia).
  assert (NoDup (getKeyByUserCredential
                   <$> [alice_facebook; bob_instagram; dave_facebook]))
    as Hunique by compute_done.
  split; [reflexivity|]. split; [exact Hfewer|]. split; [exact Hunique|].
  pose proof (partition_contiguous_chunks
                [alice_facebook; bob_instagram; dave_facebook] five_keys
                "facebook" [alice_facebook; dave_facebook] eq_refl Hfewer) as H.
  destruct H as (_ & _ & _ & _ & _ & _ & H).
  apply (H Hunique 1 dave_facebook eq_refl).
Defined.

(** ** The pacing utility *)

Section double_facts.
Local Open Scope Z_scope.

Lemma digits2_pos_bounds (m : positive) :
  2 ^ (Zpos (digits2_pos m) - 1) <= Zpos m < 2 ^ Zpos (digits2_pos m).
Proof.
  induction m as [m IH|m IH|]; cbn [digits2_pos].
  - rewrite Pos2Z.inj_succ.
    replace (Z.succ (Z.pos (digits2_pos m)) - 1) with (Z.succ (Z.pos (digits2_pos m) - 1)) by lia.
    rewrite !Z.pow_succ_r by lia. lia.
  - rewrite Pos2Z.inj_succ.
    replace (Z.succ (Z.pos (digits2_pos m)) - 1) with (Z.succ (Z.pos (digits2_pos m) - 1)) by lia.
    rewrite !Z.pow_succ_r by lia. lia.
  - cbn. lia.
Qed.

Lemma iter_pos_nat {A} (f : A -> A) (p : positive) (x : A) :
  SpecFloat.iter_pos f p x = Nat.iter (Pos.to_nat p) f x.
Proof.
  revert x. induction p as [p IH|p IH|]; intros x; cbn [SpecFloat.iter_pos].
  - rewrite !IH.
    replace (Pos.to_nat p~1) with (Pos.to_nat p + (Pos.to_nat p + 1))%nat by lia.
    by rewrite !Nat.iter_add.
  - rewrite !IH.
    replace (Pos.to_nat p~0) with (Pos.to_nat p + Pos.to_nat p)%nat by lia.
    by rewrite Nat.iter_add.
  - reflexivity.
Qed.

Lemma shr_1_spec (mrs : shr_record) :
  0 <= shr_m mrs ->
  shr_m (shr_1 mrs) = shr_m mrs / 2 /\ shr_r (shr_1 mrs) = Z.odd (shr_m mrs).
Proof.
  destruct mrs as [m r s]. cbn [shr_m shr_r shr_1]. intros Hm.
  destruct m as [|[p|p|]|p]; cbn [shr_m shr_r]; try lia.
  - split; reflexivity.
  - split; [|reflexivity]. rewrite Pos2Z.inj_xI.
    apply (Z.div_unique _ _ _ 1); lia.
  - split; [|reflexivity]. rewrite Pos2Z.inj_xO.
    apply (Z.div_unique _ _ _ 0); lia.
  - split; reflexivity.
Qed.

Lemma iter_shr_1_m (n : nat) (mrs : shr_record) :
  0 <= shr_m mrs ->
  shr_m (Nat.iter n shr_1 mrs) = shr_m mrs / 2 ^ Z.of_nat n.
Proof.
  intros Hm. induction n as [|n IH].
  - cbn. symmetry. apply Z.div_1_r.
  - change (Nat.iter (S n) shr_1 mrs) with (shr_1 (Nat.iter n shr_1 mrs)).
    assert (0 <= shr_m (Nat.iter n shr_1 mrs)) as Hn.
    { rewrite IH. apply Z.div_pos; [lia|]. apply Z.pow_pos_nonneg; lia. }
    destruct (shr_1_spec _ Hn) as [-> _]. rewrite IH.
    rewrite Nat2Z.inj_succ, Z.pow_succ_r by lia.
    assert (0 < 2 ^ Z.of_nat n) as Hpow by (apply Z.pow_pos_nonneg; lia).
    rewrite Z.div_div by lia. f_equal. lia.
Qed.

Lemma odd_div_pow2 (M : Z) (k : Z) :
  0 <= k -> Z.odd (M / 2 ^ k) = true -> 2 ^ (k + 1) <= 2 * (M mod 2 ^ (k + 1)).
Proof.
  intros Hk Hodd.
  assert (0 < 2 ^ k) as Hpow by (apply Z.pow_pos_nonneg; lia).
  rewrite Z.pow_add_r, Z.pow_1_r by lia.
  rewrite Z.rem_mul_r by lia.
  rewrite (Zmod_odd (M / 2 ^ k)), Hodd.
  pose proof (Z.mod_pos_bound M (2 ^ k) Hpow). nia.
Qed.

Lemma shr_spec (M e n : Z) :
  0 <= M -> 0 < n ->
  fst (shr (Build_shr_record M false false) e n) =
    SpecFloat.iter_pos shr_1 (Z.to_pos n) (Build_shr_record M false false) /\
  snd (shr (Build_shr_record M false false) e n) = e + n /\
  shr_m (fst (shr (Build_shr_record M false false) e n)) = M / 2 ^ n /\
  (shr_r (fst (shr (Build_shr_record M false false) e n)) = true ->
   2 ^ n <= 2 * (M mod 2 ^ n)).
Proof.
  intros HM Hn. destruct n as [|p|p]; try lia.
  cbn [shr fst snd Z.to_pos]. split; [reflexivity|]. split; [reflexivity|].
  rewrite iter_pos_nat.
  destruct (Pos.to_nat p) as [|k] eqn:Hk; [lia|].
  assert (Z.pos p = Z.of_nat k + 1) as Hp by lia.
  split.
  - rewrite iter_shr_1_m by (cbn; lia). cbn [shr_m]. f_equal. f_equal. lia.
  - change (Nat.iter (S k) shr_1 ?x) with (shr_1 (Nat.iter k shr_1 x)).
    assert (0 <= shr_m (Nat.iter k shr_1 (Build_shr_record M false false))) as Hk0.
    { rewrite iter_shr_1_m by (cbn; lia). cbn [shr_m].
      apply Z.div_pos; [lia|]. apply Z.pow_pos_nonneg; lia. }
    destruct (shr_1_spec _ Hk0) as [_ ->].
    rewrite iter_shr_1_m by (cbn; lia). cbn [shr_m]. rewrite Hp.
    apply odd_div_pow2. lia.
Qed.

Lemma round_nearest_even_bounds (mrs : shr_record) :
  let m1 := round_nearest_even (shr_m mrs) (loc_of_shr_record mrs) in
  shr_m mrs <= m1 <= shr_m mrs + 1 /\ (m1 = shr_m mrs + 1 -> shr_r mrs = true).
Proof.
  destruct mrs as [m [|] [|]]; cbn [shr_m shr_r loc_of_shr_record round_nearest_even];
    try destruct (Z.even m); lia.
Qed.

Lemma fexp64 (k : Z) : fexp 53 1024 k = Z.max (k - 53) (-1074).
Proof. reflexivity. Qed.

(** The first stage of rounding a positive product. *)
Lemma round_stage (M E : Z) :
  0 < M ->
  let n := fexp 53 1024 (Zdigits2 M + E) - E in
  let stage := shr_fexp 53 1024 M E loc_Exact in
  let m1 := round_nearest_even (shr_m (fst stage)) (loc_of_shr_record (fst stage)) in
  (n <= 0 /\ snd stage = E /\ m1 = M) \/
  (0 < n /\ snd stage = E + n /\
   M / 2 ^ n <= m1 <= M / 2 ^ n + 1 /\
   (m1 = M / 2 ^ n + 1 -> 2 ^ n <= 2 * (M mod 2 ^ n))).
Proof.
  intros HM n stage m1.
  destruct (Z_le_gt_dec n 0) as [Hn|Hn].
  - left. split; [done|]. unfold m1, stage, shr_fexp. fold n.
    cbn [shr_record_of_loc]. destruct n as [|p|p]; try lia; done.
  - right. split; [lia|].
    destruct (shr_spec M E n ltac:(lia) ltac:(lia)) as (_ & He & Hm & Hr).
    unfold m1, stage, shr_fexp. fold n. cbn [shr_record_of_loc].
    split; [done|].
    pose proof (round_nearest_even_bounds
      (fst (shr (Build_shr_record M false false) E n))) as [Hb Hup].
    cbv zeta in Hb, Hup. split; [by rewrite <- Hm|].
    intros Heq. rewrite <- Hm in Heq. apply Hr, Hup, Heq.
Qed.

(** The second stage: the rounded significand is brought back to at most 53
    bits. *)
Lemma renormalise_stage (m1 e1 : Z) :
  0 <= m1 -> -1074 <= e1 ->
  let stage := shr_fexp 53 1024 m1 e1 loc_Exact in
  0 <= shr_m (fst stage) /\
  e1 <= snd stage /\
  shr_m (fst stage) * 2 ^ (snd stage - e1) <= m1 /\
  (snd stage = e1 \/ (0 < m1 /\ snd stage = Zdigits2 m1 + e1 - 53)).
Proof.
  intros Hm He stage. unfold stage, shr_fexp. cbn [shr_record_of_loc].
  set (n := fexp 53 1024 (Zdigits2 m1 + e1) - e1).
  destruct (Z_le_gt_dec n 0) as [Hn|Hn].
  - assert (shr (Build_shr_record m1 false false) e1 n
            = (Build_shr_record m1 false false, e1)) as ->
      by (destruct n; try lia; done).
    cbn [fst snd shr_m]. rewrite Z.sub_diag. cbn. lia.
  - destruct (shr_spec m1 e1 n ltac:(lia) ltac:(lia)) as (_ & -> & -> & _).
    assert (0 < 2 ^ n) as Hpow by (apply Z.pow_pos_nonneg; lia).
    replace (e1 + n - e1) with n by lia.
    split; [apply Z.div_pos; lia|]. split; [lia|].
    split; [rewrite Z.mul_comm; apply Z.mul_div_le; lia|].
    right. unfold n in *. rewrite fexp64 in *.
    destruct m1 as [|m|m]; [cbn [Zdigits2] in Hn; lia | | lia].
    split; lia.
Qed.

Lemma bounded64 (m : positive) (e : Z) :
  bounded 53 1024 m e = true ->
  Zpos (digits2_pos m) <= 53 /\ -1074 <= e <= 971 /\
  e = Z.max (Zpos (digits2_pos m) + e - 53) (-1074).
Proof.
  unfold bounded, canonical_mantissa. rewrite fexp64.
  intros [Hc He]%andb_true_iff. apply Z.eqb_eq in Hc. apply Z.leb_le in He.
  change (1024 - 53) with 971 in He. lia.
Qed.

Lemma pow2_lt_inv (a b : Z) : 0 <= b -> 2 ^ a < 2 ^ b -> a < b.
Proof.
  intros Hb H. destruct (Z_lt_ge_dec a b) as [|Hge]; [done|].
  assert (2 ^ b <= 2 ^ a) by (apply Z.pow_le_mono_r; lia). lia.
Qed.

Lemma pow2_split (a b : Z) : 0 <= a -> 0 <= b -> 2 ^ (a + b) = 2 ^ a * 2 ^ b.
Proof. intros. apply Z.pow_add_r; lia. Qed.

Lemma pow2_pos (a : Z) : 0 <= a -> 0 < 2 ^ a.
Proof. intros. apply Z.pow_pos_nonneg; lia. Qed.

(** *** The arithmetic of rounding a product, on plain integers *)

Lemma magnitude_le (d er dm M vm : Z) :
  0 < d -> er <= 0 -> 0 < dm ->
  2 ^ (d - 1) <= M -> M < vm * 2 ^ (- er) -> 0 < vm < 2 ^ dm ->
  d + er <= dm.
Proof.
  intros Hd Her Hdm Hlow HM Hvm.
  assert (0 < 2 ^ (- er)) as HP by (apply pow2_pos; lia).
  assert (vm * 2 ^ (- er) < 2 ^ dm * 2 ^ (- er)) as H1
    by (apply Z.mul_lt_mono_pos_r; lia).
  rewrite <- pow2_split in H1 by lia.
  assert (2 ^ (d - 1) < 2 ^ (dm + - er)) as H2 by lia.
  apply pow2_lt_inv in H2; lia.
Qed.

(** Rounding up to the bound itself needs a bound of at most half a unit
    in the last place. *)
Lemma round_up_needs_room (vr vm P T K q r : Z) :
  0 < vm -> 0 < T -> vr < P ->
  K * T = vm * P -> vr * vm = T * q + r -> q + 1 = K -> T <= 2 * r ->
  2 * vm <= T.
Proof.
  intros Hvm HT Hvr HK Hdiv Hq Hr.
  assert (vr * vm <= (P - 1) * vm) as H1 by (apply Z.mul_le_mono_nonneg_r; lia).
  assert (T * q = K * T - T) as H2 by (rewrite <- Hq; ring).
  assert ((P - 1) * vm = vm * P - vm) as H3 by ring.
  lia.
Qed.

Lemma normal_has_room (vr vm d : Z) :
  54 <= d -> 0 < vr < 2 ^ 53 -> 0 < vm ->
  2 * vm <= 2 ^ (d - 53) -> 2 ^ (d - 1) <= vr * vm -> False.
Proof.
  intros Hd Hvr Hvm Hsmall Hlow.
  assert (0 < 2 ^ (d - 54)) as HX by (apply pow2_pos; lia).
  assert (2 ^ (d - 53) = 2 * 2 ^ (d - 54)) as E1.
  { replace (d - 53) with (1 + (d - 54)) by lia. by rewrite pow2_split by lia. }
  assert (2 ^ (d - 1) = 2 ^ 53 * 2 ^ (d - 54)) as E2.
  { replace (d - 1) with (53 + (d - 54)) by lia. apply pow2_split; lia. }
  rewrite E1 in Hsmall. rewrite E2 in Hlow.
  change (2 ^ 53) with 9007199254740992 in *.
  remember (2 ^ (d - 54)) as X eqn:HeqX. clear HeqX E1 E2.
  assert (vr * vm <= vr * X) as H1 by (apply Z.mul_le_mono_nonneg_l; lia).
  assert (vr * X <= 9007199254740991 * X) as H2
    by (apply Z.mul_le_mono_nonneg_r; lia).
  lia.
Qed.

Lemma subnormal_has_room (vm er em n : Z) :
  -1074 <= er -> n = -1074 - (er + em) -> 0 < n ->
  (em < 0 -> 2 ^ (- em) <= vm) -> 0 < vm -> 2 * vm <= 2 ^ n -> False.
Proof.
  intros Her Hn Hpos Hge Hvm Hsmall.
  assert (em < 0) as Hem by lia.
  assert (2 ^ n <= 2 ^ (- em)) by (apply Z.pow_le_mono_r; lia).
  specialize (Hge Hem). lia.
Qed.

(** After the first stage the rounded significand, at its exponent, is
    below the bound. *)
Lemma first_stage_below (vr vm er em d dm M m1 e1 : Z) :
  0 < vr < 2 ^ 53 -> 0 < vm < 2 ^ dm -> 0 < dm ->
  -1074 <= er < 0 -> vr < 2 ^ (- er) ->
  -1074 <= em -> em = Z.max (dm + em - 53) (-1074) ->
  (em < 0 -> 2 ^ (- em) <= vm) ->
  M = vr * vm -> 0 < d -> 2 ^ (d - 1) <= M ->
  (let n := Z.max (d + (er + em) - 53) (-1074) - (er + em) in
   (n <= 0 /\ e1 = er + em /\ m1 = M) \/
   (0 < n /\ e1 = er + em + n /\
    M / 2 ^ n <= m1 <= M / 2 ^ n + 1 /\
    (m1 = M / 2 ^ n + 1 -> 2 ^ n <= 2 * (M mod 2 ^ n)))) ->
  -1074 <= e1 /\ e1 <= em /\ 0 <= m1 /\ m1 < vm * 2 ^ (em - e1).
Proof.
  intros Hvr Hvm Hdm Her Hlt1 Hem Hcm Hge1 HM Hd Hlow Hstage.
  assert (0 < 2 ^ (- er)) as HP by (apply pow2_pos; lia).
  assert (M < vm * 2 ^ (- er)) as HMlt.
  { rewrite HM, (Z.mul_comm vm). apply Z.mul_lt_mono_pos_r; lia. }
  assert (d + er <= dm) as Hmag by (apply (magnitude_le d er dm M vm); lia).
  cbv zeta in Hstage. set (E := er + em) in *.
  set (n := Z.max (d + E - 53) (-1074) - E) in *.
  destruct Hstage as [(Hn & -> & ->)|(Hn & -> & Hq & Hup)].
  - assert (-1074 <= E) by (unfold n in Hn; lia).
    split; [done|]. split; [unfold E; lia|]. split; [lia|].
    replace (em - E) with (- er) by (unfold E; lia). done.
  - assert (E + n <= em) as Hle by (unfold n, E in *; lia).
    assert (-1074 <= E + n) as Hlo by (unfold n; lia).
    split; [done|]. split; [done|].
    assert (0 < 2 ^ n) as Hpn by (apply pow2_pos; lia).
    assert (0 <= M / 2 ^ n) as Hq0 by (apply Z.div_pos; lia).
    split; [lia|].
    assert (vm * 2 ^ (em - (E + n)) * 2 ^ n = vm * 2 ^ (- er)) as HK.
    { rewrite <- Z.mul_assoc, <- pow2_split by lia.
      f_equal. f_equal. unfold E. lia. }
    set (K := vm * 2 ^ (em - (E + n))) in *.
    assert (M / 2 ^ n < K) as HqK.
    { apply Z.div_lt_upper_bound; [done|]. rewrite Z.mul_comm, HK. done. }
    destruct (Z.eq_dec m1 K) as [Heq|Hne]; [exfalso|lia].
    assert (m1 = M / 2 ^ n + 1) as Hupward by lia.
    apply Hup in Hupward.
    pose proof (Z.div_mod M (2 ^ n) ltac:(lia)) as Hdiv.
    assert (2 * vm <= 2 ^ n) as Hsmall.
    { apply (round_up_needs_room vr vm (2 ^ (- er)) (2 ^ n) K
               (M / 2 ^ n) (M mod 2 ^ n)); lia. }
    destruct (Z_le_gt_dec (-1074) (d + E - 53)) as [Hnormal|Hsub].
    + assert (n = d - 53) as Hn' by (unfold n; lia).
      apply (normal_has_room vr vm d); first [lia | by rewrite <- Hn' | by rewrite <- HM].
    + apply (subnormal_has_room vm er em n); first [lia | unfold n, E; lia].
Qed.

Lemma mul_below_bound (mr mm : positive) (er em : Z) :
  bounded 53 1024 mr er = true ->
  bounded 53 1024 mm em = true ->
  er < 0 -> Zpos mr < 2 ^ (- er) ->
  (em < 0 -> 2 ^ (- em) <= Zpos mm) ->
  exists e0, e0 <= em /\
    match SFmul 53 1024 (S754_finite false mr er) (S754_finite false mm em) with
    | S754_zero false => True
    | S754_finite false m e =>
        e0 <= e /\ Zpos m * 2 ^ (e - e0) < Zpos mm * 2 ^ (em - e0)
    | _ => False
    end.
Proof.
  intros Hr Hm Her Hlt1 Hge1.
  apply bounded64 in Hr as (Hdr & Her_range & _).
  apply bounded64 in Hm as (Hdm & Hem_range & Hcm).
  pose proof (digits2_pos_bounds mr) as Hbr.
  pose proof (digits2_pos_bounds mm) as Hbm.
  pose proof (digits2_pos_bounds (mr * mm)) as Hb.
  assert (Zpos mr < 2 ^ 53) as Hr53.
  { eapply Z.lt_le_trans; [apply Hbr|]. apply Z.pow_le_mono_r; lia. }
  cbn [SFmul xorb]. unfold binary_round_aux.
  pose proof (round_stage (Zpos (mr * mm)) (er + em) ltac:(done)) as Hstage.
  cbv zeta in Hstage. rewrite fexp64 in Hstage. cbn [Zdigits2] in Hstage.
  destruct (shr_fexp 53 1024 (Zpos (mr * mm)) (er + em) loc_Exact)
    as [mrs1 e1] eqn:Hs1.
  cbn [fst snd] in Hstage.
  set (m1 := round_nearest_even (shr_m mrs1) (loc_of_shr_record mrs1)) in *.
  clearbody m1. clear Hs1 mrs1.
  assert (0 < Zpos mr /\ 0 < Zpos mm /\ 0 < Zpos (digits2_pos mm) /\
          0 < Zpos (digits2_pos (mr * mm))) as (Hr0 & Hm0 & Hdm0 & Hd0) by done.
  rewrite Pos2Z.inj_mul in Hstage, Hb.
  generalize dependent (Zpos (digits2_pos (mr * mm))). intros d Hb Hstage Hd0.
  generalize dependent (Zpos (digits2_pos mm)). intros dm Hdm Hcm Hbm Hdm0.
  clear Hbr Hdr. generalize dependent (Zpos mr). intros vr Hlt1 Hr53 Hb Hstage Hr0.
  exists e1.
  destruct (first_stage_below vr (Zpos mm) er em d dm (vr * Zpos mm) m1 e1)
    as (He1 & He1m & Hm1 & Hm1K); try done; try lia.
  clear Hstage Hb Hlt1 Hr53 Hr0 Hge1 vr d Hd0 Her Her_range er.
  pose proof (renormalise_stage m1 e1 Hm1 He1) as Hre. cbv zeta in Hre.
  destruct (shr_fexp 53 1024 m1 e1 loc_Exact) as [mrs2 e2] eqn:Hs2.
  cbn [fst snd] in Hre. destruct Hre as (Hm2 & He2 & Hm2le & He2cases).
  clear Hs2. split; [done|].
  assert (e2 <= 971) as He2max.
  { destruct He2cases as [->|[Hm1pos ->]]; [lia|].
    destruct m1 as [|p1|p1]; try lia. cbn [Zdigits2].
    pose proof (digits2_pos_bounds p1) as Hb1.
    assert (Zpos (digits2_pos p1) + (e1 - em) <= dm) as Hexp.
    { apply (magnitude_le _ (e1 - em) dm (Zpos p1) (Zpos mm)); try lia.
      replace (- (e1 - em)) with (em - e1) by lia. done. }
    lia. }
  destruct (shr_m mrs2) as [|m2|m2] eqn:Hm2eq; [done| |lia].
  change (1024 - 53) with 971.
  destruct (Z.leb_spec e2 971) as [_|]; [|lia].
  split; [done|]. lia.
Qed.

End double_facts.

Section pacing_facts.
Local Open Scope Q_scope.

Lemma Qpow2_pos (e : Z) : 0 < 2 ^ e.
Proof. apply Qpower_0_lt. reflexivity. Qed.

Lemma Qpow2_add (a b : Z) : 2 ^ (a + b) == 2 ^ a * 2 ^ b.
Proof. apply Qpower_plus. discriminate. Qed.

Lemma Qpow2_inject (n : Z) : (0 <= n)%Z -> 2 ^ n == inject_Z (2 ^ n).
Proof. intros Hn. symmetry. apply (Zpower_Qpower 2 n Hn). Qed.

(** A scaled integer as a rational. *)
Lemma scaled_value (m e e0 : Z) :
  (e0 <= e)%Z -> inject_Z m * 2 ^ e == inject_Z (m * 2 ^ (e - e0)) * 2 ^ e0.
Proof.
  intros He. replace e with ((e - e0) + e0)%Z at 1 by lia.
  rewrite Qpow2_add, inject_Z_mult, Qpow2_inject by lia. ring.
Qed.

Lemma scaled_lt (m1 e1 m2 e2 e0 : Z) :
  (e0 <= e1)%Z -> (e0 <= e2)%Z ->
  (m1 * 2 ^ (e1 - e0) < m2 * 2 ^ (e2 - e0))%Z ->
  inject_Z m1 * 2 ^ e1 < inject_Z m2 * 2 ^ e2.
Proof.
  intros H1 H2 Hlt. rewrite (scaled_value m1 e1 e0), (scaled_value m2 e2 e0) by done.
  apply Qmult_lt_r; [apply Qpow2_pos|]. rewrite <- Zlt_Qlt. done.
Qed.

Lemma value_lt_1 (m : positive) (e : Z) :
  inject_Z (Zpos m) * 2 ^ e < 1 -> (e < 0)%Z /\ (Zpos m < 2 ^ (- e))%Z.
Proof.
  intros Hlt.
  assert (e < 0)%Z as He.
  { destruct (Z_lt_ge_dec e 0) as [|Hge]; [done|]. exfalso.
    rewrite Qpow2_inject, <- inject_Z_mult in Hlt by lia.
    change 1 with (inject_Z 1) in Hlt. rewrite <- Zlt_Qlt in Hlt.
    pose proof (Z.pow_pos_nonneg 2 e). nia. }
  split; [done|].
  rewrite (scaled_value (Zpos m) e e) in Hlt by lia.
  assert (1 == inject_Z (1 * 2 ^ (0 - e)) * 2 ^ e) as H1.
  { rewrite <- (scaled_value 1 0 e) by lia. reflexivity. }
  rewrite H1 in Hlt. apply Qmult_lt_r in Hlt; [|apply Qpow2_pos].
  rewrite <- Zlt_Qlt in Hlt. rewrite Z.sub_diag in Hlt.
  replace (0 - e)%Z with (- e)%Z in Hlt by lia. lia.
Qed.

Lemma value_ge_1 (m : positive) (e : Z) :
  1 <= inject_Z (Zpos m) * 2 ^ e -> (e < 0)%Z -> (2 ^ (- e) <= Zpos m)%Z.
Proof.
  intros Hle He.
  rewrite (scaled_value (Zpos m) e e) in Hle by lia.
  assert (1 == inject_Z (1 * 2 ^ (0 - e)) * 2 ^ e) as H1.
  { rewrite <- (scaled_value 1 0 e) by lia. reflexivity. }
  rewrite H1 in Hle. apply Qmult_le_r in Hle; [|apply Qpow2_pos].
  rewrite <- Zle_Qle in Hle. rewrite Z.sub_diag in Hle.
  replace (0 - e)%Z with (- e)%Z in Hle by lia. lia.
Qed.

Lemma value_nonneg_sign (s : bool) (m : positive) (e : Z) :
  0 <= Number.value (S754_finite s m e) -> s = false.
Proof.
  destruct s; [|done]. cbn [Number.value cond_Zopp]. intros H. exfalso.
  pose proof (Qpow2_pos e) as Hp.
  assert (inject_Z (- Zpos m) < 0) as Hneg by (change 0 with (inject_Z 0); rewrite <- Zlt_Qlt; lia).
  assert (inject_Z (- Z.pos m) * 2 ^ e < 0 * 2 ^ e) as Hlt
    by (apply Qmult_lt_r; done).
  lra.
Qed.

Lemma value_finite_nonneg (m : positive) (e : Z) :
  0 <= Number.value (S754_finite false m e).
Proof.
  cbn [Number.value cond_Zopp]. pose proof (Qpow2_pos e).
  assert (0 <= inject_Z (Zpos m)) by (change 0 with (inject_Z 0); rewrite <- Zle_Qle; lia).
  apply Qmult_le_0_compat; lra.
Qed.

(** The product of a draw below one and a bound of at least one is below
    the bound, after rounding. *)
Lemma mul_draw_bound (r bound : spec_float) :
  Number.wellFormed r -> Number.isFinite r = true ->
  0 <= Number.value r -> Number.value r < 1 ->
  Number.wellFormed bound -> Number.isFinite bound = true ->
  1 <= Number.value bound ->
  Number.isFinite (Number.mul r bound) = true /\
  0 <= Number.value (Number.mul r bound) /\
  Number.value (Number.mul r bound) < Number.value bound.
Proof.
  intros Hwr Hfr Hr0 Hr1 Hwb Hfb Hb1.
  destruct bound as [sb| |  |sb mm em]; try discriminate.
  { cbn [Number.value] in Hb1. lra. }
  assert (sb = false) as -> by (apply (value_nonneg_sign sb mm em); lra).
  destruct r as [sr| | |sr mr er]; try discriminate.
  { unfold Number.mul. cbn [SFmul Number.isFinite Number.value] in *.
    split; [done|]. split; lra. }
  assert (sr = false) as -> by (by apply (value_nonneg_sign sr mr er)).
  cbn [Number.value cond_Zopp] in Hr1, Hb1.
  apply value_lt_1 in Hr1 as [Her Hmr].
  destruct (mul_below_bound mr mm er em Hwr Hwb Her Hmr) as (e0 & He0 & Hmul).
  { intros Hem. by apply value_ge_1. }
  unfold Number.mul.
  destruct (SFmul 53 1024 (S754_finite false mr er) (S754_finite false mm em))
    as [[|]| | |[|] m e]; try done.
  - cbn [Number.isFinite Number.value]. split; [done|]. split; [lra|].
    pose proof (value_finite_nonneg mm em). cbn [Number.value cond_Zopp] in *. lra.
  - destruct Hmul as [He Hlt]. split; [done|]. split; [apply value_finite_nonneg|].
    cbn [Number.value cond_Zopp]. by apply (scaled_lt _ _ _ _ e0).
Qed.

(** C8. For every draw [r] in [[0, 1)] and every finite bound [max >= 1],
    the pacing utility returns an integer [n] with [0 <= n < max]; for
    [max = 1] it returns 0. The product is the rounded one of double
    arithmetic. *)
Theorem random_delay_in_range (MAX_RANDOM_DELAY_TIME : spec_float)
    (random : spec_float) (max : option spec_float) :
  let bound := default MAX_RANDOM_DELAY_TIME max in
  Number.wellFormed random -> Number.isFinite random = true ->
  (0 <= Number.value random)%Q -> (Number.value random < 1)%Q ->
  Number.wellFormed bound -> Number.isFinite bound = true ->
  (1 <= Number.value bound)%Q ->
  exists n : Z,
    getRandomDelayTimeInSecound MAX_RANDOM_DELAY_TIME random max = Some n /\
    (0 <= n)%Z /\ (inject_Z n < Number.value bound)%Q /\
    ((Number.value bound == 1)%Q -> n = 0%Z).
Proof.
  intros bound Hwr Hfr Hr0 Hr1 Hwb Hfb Hb1.
  destruct (mul_draw_bound random bound Hwr Hfr Hr0 Hr1 Hwb Hfb Hb1)
    as (Hfin & Hnonneg & Hbelow).
  unfold getRandomDelayTimeInSecound. fold bound. unfold Math_floor.
  rewrite Hfin. eexists. split; [reflexivity|].
  set (product := Number.value (Number.mul random bound)) in *.
  assert (0 <= Qfloor product)%Z as Hn.
  { change 0%Z with (Qfloor 0). by apply Qfloor_resp_le. }
  pose proof (Qfloor_le product) as Hfloor.
  split; [done|]. split; [lra|].
  intros Hone. assert (inject_Z (Qfloor product) < inject_Z 1) as Hlt.
  { change (inject_Z 1) with 1. lra. }
  rewrite <- Zlt_Qlt in Hlt. lia.
Qed.

End pacing_facts.

Lemma random_delay_in_range_witness :
  Number.wellFormed two_thirds ∧ Number.isFinite two_thirds = true ∧
  (0 <= Number.value two_thirds)%Q ∧ (Number.value two_thirds < 1)%Q ∧
  Number.wellFormed three ∧ Number.isFinite three = true ∧
  (1 <= Number.value three)%Q ∧
  ∃ n : Z,
    getRandomDelayTimeInSecound three two_thirds None = Some n ∧
    (0 <= n)%Z ∧ (inject_Z n < Number.value three)%Q.
Proof.
  assert (0 <= Number.value two_thirds)%Q as Hlow by (vm_compute; discriminate).
  assert (Number.value two_thirds < 1)%Q as Hhigh by reflexivity.
  assert (1 <= Number.value three)%Q as Hbound by (vm_compute; discriminate).
  split_and!; [reflexivity | reflexivity | exact Hlow | exact Hhigh | reflexivity
              | reflexivity | exact Hbound |].
  destruct (random_delay_in_range three two_thirds None
              eq_refl eq_refl Hlow Hhigh eq_refl eq_refl Hbound)
    as (n & Hn & Hn0 & Hnmax & _).
  exists n. split; [exact Hn|]. split; [exact Hn0 | exact Hnmax].
Defined.

Example random_delay_two_thirds_of_three :
  getRandomDelayTimeInSecound three two_thirds None = Some 2%Z.
Proof. reflexivity. Qed.

(** * Part III: further properties of the module *)

(** ** The search URL *)

Example encodeURIComponent_samples :
  Uri.encodeURIComponent
    <$> ["Acme breach"; "a&b=c"; "100%"; "(ok)!~*'._-"; "café"; ""]
  = ["Acme%20breach"; "a%26b%3Dc"; "100%25"; "(ok)!~*'._-"; "caf%C3%A9"; ""].
Proof. reflexivity. Qed.

Example createFacebookUrlForSearch_sample :
  createFacebookUrlForSearch "&filters=x" "Acme Widget leak" None
  = "https://www.facebook.com/search/posts?q=Acme%20Widget%20leak&filters=x".
Proof. reflexivity. Qed.

Section uri_facts.
Import Uri.

Lemma append_inj_r (a b c : string) : a +:+ c = b +:+ c → a = b.
Proof.
  revert b. induction a as [|x a IH]; intros [|y b] Heq.
  - done.
  - apply (f_equal String.length) in Heq.
    rewrite append_nil_l, append_cons in Heq. cbn [String.length] in Heq.
    rewrite append_length in Heq. lia.
  - apply (f_equal String.length) in Heq.
    rewrite append_nil_l, append_cons in Heq. cbn [String.length] in Heq.
    rewrite append_length in Heq. lia.
  - rewrite !append_cons in Heq. injection Heq as -> Heq. f_equal. by apply IH.
Qed.

Lemma hexDigit_unreserved (n : N) : isUnreserved (hexDigit n) = true.
Proof. unfold hexDigit. repeat case_match; reflexivity. Qed.

Lemma hexDigit_inj (n m : N) :
  (n < 16)%N → (m < 16)%N → hexDigit n = hexDigit m → n = m.
Proof.
  intros Hn Hm. destruct n as [|n], m as [|m];
    repeat match goal with p : positive |- _ => destruct p; try lia end;
    cbn; first [done | discriminate].
Qed.

Lemma escape_inj (c1 c2 : ascii) : escape c1 = escape c2 → c1 = c2.
Proof.
  unfold escape. intros [= Hhi Hlo].
  pose proof (N_ascii_bounded c1) as Hb1. pose proof (N_ascii_bounded c2) as Hb2.
  apply hexDigit_inj in Hhi; [|apply N.Div0.div_lt_upper_bound; lia..].
  apply hexDigit_inj in Hlo; [|apply N.mod_upper_bound; lia..].
  rewrite <- (ascii_N_embedding c1), <- (ascii_N_embedding c2). f_equal.
  rewrite (N.div_mod (N_of_ascii c1) 16), (N.div_mod (N_of_ascii c2) 16) by lia.
  by rewrite Hhi, Hlo.
Qed.

(** No escape sequence starts like an unreserved character: the code of a
    byte is recognised from its first character. *)
Lemma encodeByte_prefix_free (c1 c2 : ascii) (r1 r2 : string) :
  encodeByte c1 +:+ r1 = encodeByte c2 +:+ r2 → c1 = c2 ∧ r1 = r2.
Proof.
  unfold encodeByte.
  destruct (isUnreserved c1) eqn:H1, (isUnreserved c2) eqn:H2;
    unfold escape; rewrite ?append_cons, ?append_nil_l; intros Heq.
  - by injection Heq as -> ->.
  - injection Heq as -> _. discriminate.
  - injection Heq as <- _. discriminate.
  - injection Heq as Hhi Hlo ->. split; [|done].
    apply escape_inj. unfold escape. by rewrite Hhi, Hlo.
Qed.

Lemma encodeURIComponent_inj (s1 s2 : string) :
  encodeURIComponent s1 = encodeURIComponent s2 → s1 = s2.
Proof.
  revert s2. induction s1 as [|c1 s1 IH]; intros [|c2 s2]; cbn [encodeURIComponent].
  - done.
  - unfold encodeByte, escape. destruct (isUnreserved c2);
      rewrite ?append_cons; discriminate.
  - unfold encodeByte, escape. destruct (isUnreserved c1);
      rewrite ?append_cons; discriminate.
  - intros [-> Htail]%encodeByte_prefix_free. f_equal. by apply IH.
Qed.

Lemma list_ascii_of_string_append (a b : string) :
  String.list_ascii_of_string (a +:+ b) = String.list_ascii_of_string a ++ String.list_ascii_of_string b.
Proof.
  induction a as [|x a IH]; [done|].
  rewrite append_cons. cbn [String.list_ascii_of_string]. by rewrite IH.
Qed.

Lemma encodeByte_alphabet (c : ascii) :
  Forall (λ x, isUnreserved x = true ∨ x = "%"%char)
    (String.list_ascii_of_string (encodeByte c)).
Proof.
  unfold encodeByte. destruct (isUnreserved c) eqn:Hc.
  - cbn [String.list_ascii_of_string]. apply Forall_singleton. by left.
  - unfold escape. cbn [String.list_ascii_of_string].
    apply Forall_cons. split; [by right|].
    apply Forall_cons. split; [left; apply hexDigit_unreserved|].
    apply Forall_singleton. left. apply hexDigit_unreserved.
Qed.

Lemma encodeByte_length (c : ascii) :
  String.length (encodeByte c) = if isUnreserved c then 1 else 3.
Proof. unfold encodeByte. by destruct (isUnreserved c). Qed.

End uri_facts.

(** X1. The encoded search string is made of unreserved characters and
    ["%"] only, so none of the characters that delimit a query ([&], [=],
    [#], [?], [/], [+], space) occurs in it. *)
Theorem encoded_query_alphabet (searchString : string) :
  Forall (λ c, Uri.isUnreserved c = true ∨ c = "%"%char)
    (String.list_ascii_of_string (Uri.encodeURIComponent searchString)) ∧
  Forall (λ c, c ∉ ["&"; "="; "#"; "?"; "/"; "+"; " "]%char)
    (String.list_ascii_of_string (Uri.encodeURIComponent searchString)).
Proof.
  assert (Forall (λ c, Uri.isUnreserved c = true ∨ c = "%"%char)
            (String.list_ascii_of_string (Uri.encodeURIComponent searchString))) as Halpha.
  { induction searchString as [|c s IH]; [constructor|].
    cbn [Uri.encodeURIComponent]. rewrite list_ascii_of_string_append.
    apply Forall_app. split; [apply encodeByte_alphabet | done]. }
  split; [done|].
  eapply Forall_impl; [exact Halpha|]. intros c Hc Hin.
  repeat (apply elem_of_cons in Hin as [->|Hin]; [by destruct Hc|]).
  by apply elem_of_nil in Hin.
Qed.

(** X2. Distinct search strings give distinct URLs: for one filter,
    [createFacebookUrlForSearch] is injective in the search string. *)
Theorem search_url_injective (FACEBOOK_FILTERS_STRING : string)
    (searchString1 searchString2 : string) (filter : option string) :
  createFacebookUrlForSearch FACEBOOK_FILTERS_STRING searchString1 filter
  = createFacebookUrlForSearch FACEBOOK_FILTERS_STRING searchString2 filter →
  searchString1 = searchString2.
Proof.
  unfold createFacebookUrlForSearch. intros Heq.
  apply (inj (String.app _)) in Heq. apply append_inj_r in Heq.
  by apply encodeURIComponent_inj.
Qed.

Lemma search_url_injective_witness :
  createFacebookUrlForSearch "&f=1" "Acme" None
  = createFacebookUrlForSearch "&f=1" "Acme" None ∧ "Acme" = "Acme".
Proof.
  split; [reflexivity|].
  exact (search_url_injective "&f=1" "Acme" "Acme" None eq_refl).
Defined.

(** X3. Encoding never shortens and at most triples a string, and it leaves
    a string unchanged exactly when every character of it is unreserved. *)
Theorem encodeURIComponent_length (s : string) :
  String.length s ≤ String.length (Uri.encodeURIComponent s) ≤ 3 * String.length s ∧
  (Uri.encodeURIComponent s = s ↔
   Forall (λ c, Uri.isUnreserved c = true) (String.list_ascii_of_string s)).
Proof.
  assert (String.length s ≤ String.length (Uri.encodeURIComponent s)
          ≤ 3 * String.length s) as Hlen.
  { induction s as [|c s IH]; [cbn; lia|].
    cbn [Uri.encodeURIComponent String.length].
    rewrite append_length, encodeByte_length. destruct (Uri.isUnreserved c); lia. }
  split; [done|]. clear Hlen. induction s as [|c s IH]; [by split; [constructor|]|].
  cbn [Uri.encodeURIComponent String.list_ascii_of_string]. rewrite Forall_cons, <- IH.
  unfold Uri.encodeByte. destruct (Uri.isUnreserved c) eqn:Hc.
  - rewrite append_cons, append_nil_l. split.
    + intros [= Heq]. done.
    + intros [_ ->]. done.
  - split; [|by intros [? _]]. unfold Uri.escape.
    rewrite !append_cons, append_nil_l. intros [= _ Heq]. exfalso.
    apply (f_equal String.length) in Heq. cbn [String.length] in Heq.
    assert (String.length s ≤ String.length (Uri.encodeURIComponent s)) as Hle.
    { clear. induction s as [|c s IH]; [done|].
      cbn [Uri.encodeURIComponent String.length].
      rewrite append_length, encodeByte_length. destruct (Uri.isUnreserved c); lia. }
    lia.
Qed.

(** ** Identity keys, storage names and the classifier *)

Section key_facts.

Lemma occurs_in_cons (needle : string) (a : ascii) (s : string) :
  Str.occurs_in needle s → Str.occurs_in needle (String a s).
Proof.
  intros (before & after & ->). exists (String a before), after.
  by rewrite append_cons.
Qed.

(** Two strings cut at the first occurrence of a character are cut alike. *)
Lemma split_at_first (c : ascii) (s1 s2 r1 r2 : string) :
  ¬ Str.occurs_in (String c "") s1 → ¬ Str.occurs_in (String c "") s2 →
  s1 +:+ String c r1 = s2 +:+ String c r2 → s1 = s2 ∧ r1 = r2.
Proof.
  revert s2. induction s1 as [|a s1 IH]; intros [|b s2] H1 H2 Heq;
    rewrite ?append_nil_l, ?append_cons in Heq.
  - by injection Heq as ->.
  - injection Heq as -> _. exfalso. apply H2. by exists "", s2.
  - injection Heq as -> _. exfalso. apply H1. by exists "", s1.
  - injection Heq as -> Heq. destruct (IH s2) as [-> ->]; [| |done|done].
    + intros Hin. apply H1. by apply occurs_in_cons.
    + intros Hin. apply H2. by apply occurs_in_cons.
Qed.

End key_facts.

(** X4. Credentials whose types hold no ["-"], as ['facebook'] and
    ['instagram'] do, have the same identity key only when they have the
    same type and the same username; with a ["-"] in a type, different
    credentials can share a key. *)
Theorem identity_key_injective :
  (∀ c1 c2 : IUserCredentials,
     ¬ Str.occurs_in "-" (type c1) → ¬ Str.occurs_in "-" (type c2) →
     getKeyByUserCredential c1 = getKeyByUserCredential c2 →
     type c1 = type c2 ∧ username c1 = username c2) ∧
  (∃ c1 c2 : IUserCredentials,
     type c1 ≠ type c2 ∧ username c1 ≠ username c2 ∧
     getKeyByUserCredential c1 = getKeyByUserCredential c2).
Proof.
  split.
  - intros c1 c2 H1 H2 Heq. unfold getKeyByUserCredential in Heq.
    by apply (split_at_first "-" (type c1) (type c2)) in Heq.
  - exists {| type := "a-b"; username := "c"; password := "" |},
           {| type := "a"; username := "b-c"; password := "" |}.
    by split_and!.
Qed.

Lemma identity_key_injective_witness :
  ¬ Str.occurs_in "-" (type alice_facebook) ∧
  ¬ Str.occurs_in "-" (type alice_facebook_again) ∧
  getKeyByUserCredential alice_facebook = getKeyByUserCredential alice_facebook_again ∧
  username alice_facebook = username alice_facebook_again.
Proof.
  assert (¬ Str.occurs_in "-" "facebook") as Hfree.
  { apply includes_false. reflexivity. }
  split; [exact Hfree|]. split; [exact Hfree|]. split; [reflexivity|].
  exact (proj2 (proj1 identity_key_injective alice_facebook alice_facebook_again
                  Hfree Hfree eq_refl)).
Defined.

(** X5. Credentials whose types hold no ["]"] have the same storage name
    only when they have the same type and the same username: no two such
    accounts share a persisted session file. *)
Theorem storage_name_injective (c1 c2 : IUserCredentials) :
  ¬ Str.occurs_in "]" (type c1) → ¬ Str.occurs_in "]" (type c2) →
  getNameForStorageStateByUserCredential c1 = getNameForStorageStateByUserCredential c2 →
  type c1 = type c2 ∧ username c1 = username c2.
Proof.
  intros H1 H2 Heq. unfold getNameForStorageStateByUserCredential in Heq.
  apply (inj (String.app _)) in Heq.
  apply (split_at_first "]" (type c1) (type c2)) in Heq as [Htype Heq]; [|done..].
  split; [done|]. injection Heq as Heq. by apply append_inj_r in Heq.
Qed.

Lemma storage_name_injective_witness :
  ¬ Str.occurs_in "]" (type alice_facebook) ∧
  ¬ Str.occurs_in "]" (type alice_facebook_again) ∧
  getNameForStorageStateByUserCredential alice_facebook
  = getNameForStorageStateByUserCredential alice_facebook_again ∧
  username alice_facebook = username alice_facebook_again.
Proof.
  assert (¬ Str.occurs_in "]" "facebook") as Hfree.
  { apply includes_false. reflexivity. }
  split; [exact Hfree|]. split; [exact Hfree|]. split; [reflexivity|].
  exact (proj2 (storage_name_injective alice_facebook alice_facebook_again
                  Hfree Hfree eq_refl)).
Defined.

(** X6. The classifier undoes the identity key for the two platforms: the
    key of a facebook credential is always classified ['facebook'], and the
    key of an instagram credential is classified ['instagram'] exactly when
    its username does not contain ["facebook-"]. *)
Theorem classifier_recovers_type (userCredential : IUserCredentials) :
  (type userCredential = "facebook" →
   getTypeForBrowserContextByUserCredentialsKey (getKeyByUserCredential userCredential)
   = Some (type userCredential)) ∧
  (type userCredential = "instagram" →
   (getTypeForBrowserContextByUserCredentialsKey (getKeyByUserCredential userCredential)
    = Some (type userCredential)
    ↔ ¬ Str.occurs_in "facebook-" (username userCredential))).
Proof.
  unfold getTypeForBrowserContextByUserCredentialsKey, getKeyByUserCredential.
  split; intros ->.
  - assert (Str.includes ("facebook" +:+ "-" +:+ username userCredential) "facebook-"
            = true) as ->; [|done].
    apply includes_spec. by exists "", (username userCredential).
  - assert (Str.includes ("instagram" +:+ "-" +:+ username userCredential) "facebook-"
            = Str.includes (username userCredential) "facebook-") as ->.
    { rewrite !append_cons, append_nil_l. reflexivity. }
    assert (Str.includes ("instagram" +:+ "-" +:+ username userCredential) "instagram-"
            = true) as ->.
    { apply includes_spec. by exists "", (username userCredential). }
    rewrite <- includes_false.
    destruct (Str.includes (username userCredential) "facebook-"); split; done.
Qed.

Lemma classifier_recovers_type_witness :
  type bob_instagram = "instagram" ∧
  ¬ Str.occurs_in "facebook-" (username bob_instagram) ∧
  getTypeForBrowserContextByUserCredentialsKey (getKeyByUserCredential bob_instagram)
  = Some "instagram".
Proof.
  assert (¬ Str.occurs_in "facebook-" (username bob_instagram)) as Hfree.
  { apply includes_false. reflexivity. }
  split; [reflexivity|]. split; [exact Hfree|].
  exact (proj2 (proj2 (classifier_recovers_type bob_instagram) eq_refl) Hfree).
Defined.

(** ** The session provider, path by path *)

Section provider_facts.
Context (validJSON : string → bool).
Context (facebookLogin instagramLogin :
           IUserCredentials → Session.BrowserContext → option string).

Local Abbreviation provider :=
  (getBrowserContextWithLoggedInStoregeState validJSON facebookLogin instagramLogin).
Local Abbreviation storageName := getNameForStorageStateByUserCredential.

Local Ltac provider_unfold :=
  unfold getBrowserContextWithLoggedInStoregeState,
    getStorageStateAfterFacebookLogin, getStorageStateAfterInstagramLogin, JSON_parse;
  unfold mbind, session_bind, Session.bind, Session.tryCatch, Session.readFile,
    Session.writeFile, Session.newContext, Session.consoleLog,
    Session.consoleLogValue, Session.emit, Session.ret, Session.throw;
  cbn [Session.files Session.fileSystem Session.nextContextId Session.trace].

Lemma length_pos_nonempty (s : string) : 0 < String.length s ↔ s ≠ "".
Proof. destruct s; cbn; split; (done || lia). Qed.

(** A non-empty persisted state that parses: a second, seeded session. *)
Lemma provider_seeded userCredential w storageState :
  Session.files w !! storageName userCredential = Some storageState →
  storageState ≠ "" → validJSON storageState = true →
  provider userCredential w
  = (Session.Returned {| Session.contextId := S (Session.nextContextId w);
                         Session.seededWith := Some storageState |},
     {| Session.files := Session.files w;
        Session.fileSystem := Session.fileSystem w;
        Session.nextContextId := S (S (Session.nextContextId w));
        Session.trace :=
          (Session.trace w
             ++ [Session.NewContext {| Session.contextId := Session.nextContextId w;
                                       Session.seededWith := None |}])
            ++ [Session.NewContext {| Session.contextId := S (Session.nextContextId w);
                                      Session.seededWith := Some storageState |}] |}).
Proof.
  intros Hread Hlen Hvalid. provider_unfold. rewrite Hread.
  rewrite decide_True by by apply length_pos_nonempty.
  by rewrite Hvalid.
Qed.

(** A non-empty persisted state that does not parse. *)
Lemma provider_corrupt userCredential w storageState :
  Session.files w !! storageName userCredential = Some storageState →
  storageState ≠ "" → validJSON storageState = false →
  provider userCredential w
  = (Session.Thrown,
     {| Session.files := Session.files w;
        Session.fileSystem := Session.fileSystem w;
        Session.nextContextId := S (Session.nextContextId w);
        Session.trace :=
          Session.trace w
            ++ [Session.NewContext {| Session.contextId := Session.nextContextId w;
                                      Session.seededWith := None |}] |}).
Proof.
  intros Hread Hlen Hvalid. provider_unfold. rewrite Hread.
  rewrite decide_True by by apply length_pos_nonempty.
  by rewrite Hvalid.
Qed.

(** What the console shows after the attempt to read the persisted state. *)
Local Abbreviation readLog userCredential w :=
  (match Session.files w !! storageName userCredential with
   | None => [Session.ConsoleLog ("No file " +:+ storageName userCredential)]
   | Some _ => []
   end).

Local Abbreviation bareContext w :=
  {| Session.contextId := Session.nextContextId w; Session.seededWith := None |}.

(** What a login routine that answers [storage] adds to the trace. *)
Local Abbreviation loginLog userCredential w storage :=
  (Session.Login (type userCredential) userCredential (bareContext w)
   :: if decide (type userCredential = "facebook")
      then [Session.ConsoleLogValue "getStorageStateAfterFacebookLogin" storage]
      else []).

Local Abbreviation nothingPersisted userCredential w :=
  (Session.files w !! storageName userCredential = None ∨
   Session.files w !! storageName userCredential = Some "").

Local Abbreviation loginAnswers userCredential w storage :=
  (type userCredential = "facebook" ∧
   facebookLogin userCredential (bareContext w) = Some storage ∨
   type userCredential = "instagram" ∧
   instagramLogin userCredential (bareContext w) = Some storage).

Local Abbreviation loginThrows userCredential w :=
  (type userCredential = "facebook" ∧
   facebookLogin userCredential (bareContext w) = None ∨
   type userCredential = "instagram" ∧
   instagramLogin userCredential (bareContext w) = None).

(** No usable persisted state, and the login routine of the credential's
    platform answers [storage]: the write decides. *)
Lemma provider_login userCredential w storage :
  nothingPersisted userCredential w → loginAnswers userCredential w storage →
  provider userCredential w
  = match Session.fileSystem w (storageName userCredential) storage with
    | Session.Written =>
        (Session.Returned (bareContext w),
         {| Session.files :=
              <[storageName userCredential := storage]> (Session.files w);
            Session.fileSystem := Session.fileSystem w;
            Session.nextContextId := S (Session.nextContextId w);
            Session.trace :=
              Session.trace w
                ++ Session.NewContext (bareContext w) :: readLog userCredential w
                ++ loginLog userCredential w storage
                ++ [Session.WriteFile (storageName userCredential) storage] |})
    | Session.Failed residue =>
        (Session.Thrown,
         {| Session.files :=
              partial_alter (λ _, residue) (storageName userCredential)
                (Session.files w);
            Session.fileSystem := Session.fileSystem w;
            Session.nextContextId := S (Session.nextContextId w);
            Session.trace :=
              Session.trace w
                ++ Session.NewContext (bareContext w) :: readLog userCredential w
                ++ loginLog userCredential w storage |})
    end.
Proof.
  intros Hread Hlogin. provider_unfold.
  destruct Hread as [Hread|Hread]; rewrite Hread;
    rewrite decide_False by (cbn; lia);
    destruct Hlogin as [[Htype Hlogin]|[Htype Hlogin]]; rewrite Htype;
    repeat (destruct (decide (_ = _)); try congruence);
    cbn [Session.files Session.fileSystem Session.nextContextId Session.trace];
    rewrite Hlogin;
    cbn [Session.files Session.fileSystem Session.nextContextId Session.trace];
    destruct (Session.fileSystem w (storageName userCredential) storage);
    cbn [Session.files Session.fileSystem Session.nextContextId Session.trace];
    do 2 f_equal; by rewrite <- !app_assoc.
Qed.

(** No usable persisted state, and the login routine throws. *)
Lemma provider_login_throws userCredential w :
  nothingPersisted userCredential w → loginThrows userCredential w →
  provider userCredential w
  = (Session.Thrown,
     {| Session.files := Session.files w;
        Session.fileSystem := Session.fileSystem w;
        Session.nextContextId := S (Session.nextContextId w);
        Session.trace :=
          Session.trace w
            ++ Session.NewContext (bareContext w) :: readLog userCredential w
            ++ [Session.Login (type userCredential) userCredential (bareContext w)] |}).
Proof.
  intros Hread Hlogin. provider_unfold.
  destruct Hread as [Hread|Hread]; rewrite Hread;
    rewrite decide_False by (cbn; lia);
    destruct Hlogin as [[Htype Hlogin]|[Htype Hlogin]]; rewrite Htype;
    repeat (destruct (decide (_ = _)); try congruence);
    cbn [Session.files Session.fileSystem Session.nextContextId Session.trace];
    rewrite Hlogin;
    cbn [Session.files Session.fileSystem Session.nextContextId Session.trace];
    do 2 f_equal; by rewrite <- !app_assoc.
Qed.

(** No usable persisted state, and a type without a login routine. *)
Lemma provider_bare userCredential w :
  nothingPersisted userCredential w →
  type userCredential ≠ "facebook" → type userCredential ≠ "instagram" →
  provider userCredential w
  = (Session.Returned (bareContext w),
     {| Session.files := Session.files w;
        Session.fileSystem := Session.fileSystem w;
        Session.nextContextId := S (Session.nextContextId w);
        Session.trace :=
          Session.trace w
            ++ Session.NewContext (bareContext w) :: readLog userCredential w |}).
Proof.
  intros Hread Hfacebook Hinstagram. provider_unfold.
  destruct Hread as [Hread|Hread]; rewrite Hread;
    rewrite decide_False by (cbn; lia);
    rewrite decide_False by done; rewrite decide_False by done;
    cbn [Session.files Session.fileSystem Session.nextContextId Session.trace];
    do 2 f_equal; by rewrite <- ?app_assoc.
Qed.

(** Every run meets the conditions of one of the lemmas above. *)
Lemma provider_cases userCredential w :
  (∃ storageState,
     Session.files w !! storageName userCredential = Some storageState ∧
     storageState ≠ "") ∨
  nothingPersisted userCredential w ∧
  (type userCredential ≠ "facebook" ∧ type userCredential ≠ "instagram" ∨
   loginThrows userCredential w ∨
   ∃ storage, loginAnswers userCredential w storage).
Proof.
  destruct (Session.files w !! storageName userCredential) as [storageState|];
    [destruct (decide (storageState = "")) as [->|]; [|left; eauto]|];
    (right; split; [auto|]);
    (destruct (decide (type userCredential = "facebook")) as [Hfacebook|Hfacebook];
     [destruct (facebookLogin userCredential (bareContext w)) eqn:Hlogin; eauto 6|]);
    (destruct (decide (type userCredential = "instagram")) as [Hinstagram|Hinstagram];
     [destruct (instagramLogin userCredential (bareContext w)) eqn:Hlogin; eauto 6|]);
    auto.
Qed.

End provider_facts.



(** X8. A persisted state that is not empty and does not parse makes the
    provider throw before any login: the file stays as it is, so every
    later run for the credential throws in the same way. *)
Theorem corrupt_state_throws
    (validJSON : string → bool)
    (facebookLogin instagramLogin :
       IUserCredentials → Session.BrowserContext → option string)
    (userCredential : IUserCredentials) (w : Session.World) (storageState : string) :
  Session.files w !! getNameForStorageStateByUserCredential userCredential
  = Some storageState →
  storageState ≠ "" →
  validJSON storageState = false →
  ∃ w',
    getBrowserContextWithLoggedInStoregeState validJSON facebookLogin instagramLogin
      userCredential w
    = (Session.Thrown, w') ∧
    Session.files w' = Session.files w ∧
    Session.trace w'
    = Session.trace w
        ++ [Session.NewContext {| Session.contextId := Session.nextContextId w;
                                  Session.seededWith := None |}] ∧
    (getBrowserContextWithLoggedInStoregeState validJSON facebookLogin instagramLogin
       userCredential w').1
    = Session.Thrown.
Proof.
  intros Hread Hlen Hvalid.
  rewrite (provider_corrupt _ _ _ _ _ storageState) by done.
  eexists. split_and!; [reflexivity..|].
  by rewrite (provider_corrupt _ _ _ _ _ storageState) by done.
Qed.

Lemma corrupt_state_throws_witness :
  Session.files (stored_world "storageStateFor[facebook][alice].json" "{")
    !! getNameForStorageStateByUserCredential alice_facebook
  = Some "{" ∧
  rejects_open_brace "{" = false ∧
  ∃ w',
    getBrowserContextWithLoggedInStoregeState
      rejects_open_brace (λ _ _, Some "cookies") (λ _ _, None) alice_facebook
      (stored_world "storageStateFor[facebook][alice].json" "{")
    = (Session.Thrown, w') ∧
    Session.files w'
    = Session.files (stored_world "storageStateFor[facebook][alice].json" "{").
Proof.
  assert (Session.files (stored_world "storageStateFor[facebook][alice].json" "{")
            !! getNameForStorageStateByUserCredential alice_facebook
          = Some "{") as Hread by (vm_compute; reflexivity).
  split; [exact Hread|]. split; [reflexivity|].
  destruct (corrupt_state_throws rejects_open_brace (λ _ _, Some "cookies") (λ _ _, None)
              alice_facebook _ "{" Hread ltac:(discriminate) eq_refl)
    as (w' & Hrun & Hfiles & _).
  exists w'. split; [exact Hrun | exact Hfiles].
Defined.

(** X9. With no usable persisted state (the file is missing or empty), a
    facebook or instagram credential whose login routine answers, and a
    file system that makes the write, the provider returns the bare session
    it logged in with and writes the answer to the credential's storage
    file, after the login and as its last step; between the two the
    routine's console output appears, which for facebook is the state
    logged under the routine's name. *)
Theorem first_login_persists
    (validJSON : string → bool)
    (facebookLogin instagramLogin :
       IUserCredentials → Session.BrowserContext → option string)
    (userCredential : IUserCredentials) (w : Session.World) (storage : string) :
  let name := getNameForStorageStateByUserCredential userCredential in
  let bare :=
    {| Session.contextId := Session.nextContextId w; Session.seededWith := None |} in
  (Session.files w !! name = None ∨ Session.files w !! name = Some "") →
  (type userCredential = "facebook" ∧ facebookLogin userCredential bare = Some storage ∨
   type userCredential = "instagram" ∧ instagramLogin userCredential bare = Some storage) →
  Session.fileSystem w name storage = Session.Written →
  ∃ w' before logged,
    getBrowserContextWithLoggedInStoregeState validJSON facebookLogin instagramLogin
      userCredential w
    = (Session.Returned bare, w') ∧
    Session.files w' = <[name := storage]> (Session.files w) ∧
    Session.trace w'
    = Session.trace w ++ before
        ++ Session.Login (type userCredential) userCredential bare :: logged
        ++ [Session.WriteFile name storage] ∧
    (∀ event, event ∈ before →
       event = Session.NewContext bare ∨
       event = Session.ConsoleLog ("No file " +:+ name)) ∧
    (∀ event, event ∈ logged → ∃ label json, event = Session.ConsoleLogValue label json) ∧
    (type userCredential = "facebook" →
     logged = [Session.ConsoleLogValue "getStorageStateAfterFacebookLogin" storage]).
Proof.
  intros name bare Hread Hlogin Hwrite.
  rewrite (provider_login _ _ _ _ _ storage) by done. fold name. rewrite Hwrite.
  eexists _,
    (Session.NewContext bare
     :: match Session.files w !! name with
        | None => [Session.ConsoleLog ("No file " +:+ name)]
        | Some _ => []
        end),
    (if decide (type userCredential = "facebook")
     then [Session.ConsoleLogValue "getStorageStateAfterFacebookLogin" storage]
     else []).
  split_and!; [reflexivity | reflexivity | reflexivity | | |].
  - intros event [->|Hin]%elem_of_cons; [by left|]. right.
    destruct (Session.files w !! _); [by apply elem_of_nil in Hin|].
    by apply list_elem_of_singleton in Hin.
  - intros event Hin. destruct (decide (type userCredential = "facebook"));
      [|by apply elem_of_nil in Hin].
    apply list_elem_of_singleton in Hin as ->. eauto.
  - intros Htype. by rewrite decide_True.
Qed.

Lemma first_login_persists_witness :
  type alice_facebook = "facebook" ∧
  Session.fileSystem fresh_world (getNameForStorageStateByUserCredential alice_facebook)
    "cookies"
  = Session.Written ∧
  ∃ w',
    getBrowserContextWithLoggedInStoregeState
      (λ _, true) (λ _ _, Some "cookies") (λ _ _, None) alice_facebook fresh_world
    = (Session.Returned {| Session.contextId := 0; Session.seededWith := None |}, w') ∧
    Session.files w' = <["storageStateFor[facebook][alice].json" := "cookies"]> ∅.
Proof.
  split; [reflexivity|]. split; [reflexivity|].
  destruct (first_login_persists (λ _, true) (λ _ _, Some "cookies") (λ _ _, None)
              alice_facebook fresh_world "cookies"
              (or_introl eq_refl) (or_introl (conj eq_refl eq_refl)) eq_refl)
    as (w' & before & logged & Hrun & Hfiles & _).
  exists w'. split; [exact Hrun | exact Hfiles].
Defined.

(** X10. With no usable persisted state and a facebook or instagram
    credential whose login routine throws, the provider throws and writes
    nothing: the files are as before, and the login attempt is the last
    thing in the trace. *)
Theorem login_failure_persists_nothing
    (validJSON : string → bool)
    (facebookLogin instagramLogin :
       IUserCredentials → Session.BrowserContext → option string)
    (userCredential : IUserCredentials) (w : Session.World) :
  let name := getNameForStorageStateByUserCredential userCredential in
  let bare :=
    {| Session.contextId := Session.nextContextId w; Session.seededWith := None |} in
  (Session.files w !! name = None ∨ Session.files w !! name = Some "") →
  (type userCredential = "facebook" ∧ facebookLogin userCredential bare = None ∨
   type userCredential = "instagram" ∧ instagramLogin userCredential bare = None) →
  ∃ w' before,
    getBrowserContextWithLoggedInStoregeState validJSON facebookLogin instagramLogin
      userCredential w
    = (Session.Thrown, w') ∧
    Session.files w' = Session.files w ∧
    Session.trace w'
    = Session.trace w ++ before
        ++ [Session.Login (type userCredential) userCredential bare].
Proof.
  intros name bare Hread Hlogin.
  rewrite provider_login_throws by done.
  eexists _, (_ :: _). split_and!; reflexivity.
Qed.

Lemma login_failure_persists_nothing_witness :
  type bob_instagram = "instagram" ∧
  ∃ w',
    getBrowserContextWithLoggedInStoregeState
      (λ _, true) (λ _ _, Some "cookies") (λ _ _, None) bob_instagram fresh_world
    = (Session.Thrown, w') ∧
    Session.files w' = ∅.
Proof.
  split; [reflexivity|].
  destruct (login_failure_persists_nothing (λ _, true) (λ _ _, Some "cookies")
              (λ _ _, None) bob_instagram fresh_world
              (or_introl eq_refl) (or_intror (conj eq_refl eq_refl)))
    as (w' & before & Hrun & Hfiles & _).
  exists w'. split; [exact Hrun | exact Hfiles].
Defined.

(** X11. Whatever the provider does, it stays within bounds: the only file
    it can change is the credential's own storage file; it creates one or
    two sessions; a session it returns is one it created during the run;
    it only adds to the trace, writes to no other file, and runs a login
    routine only for this credential, on the bare session and under the
    credential's type. *)
Theorem provider_frame
    (validJSON : string → bool)
    (facebookLogin instagramLogin :
       IUserCredentials → Session.BrowserContext → option string)
    (userCredential : IUserCredentials) (w : Session.World) :
  let name := getNameForStorageStateByUserCredential userCredential in
  let run :=
    getBrowserContextWithLoggedInStoregeState validJSON facebookLogin instagramLogin
      userCredential w in
  (∀ other, other ≠ name → Session.files run.2 !! other = Session.files w !! other) ∧
  Session.nextContextId w < Session.nextContextId run.2 ≤ Session.nextContextId w + 2 ∧
  (∀ context, run.1 = Session.Returned context →
     Session.nextContextId w ≤ Session.contextId context < Session.nextContextId run.2) ∧
  ∃ events,
    Session.trace run.2 = Session.trace w ++ events ∧
    (∀ other content, Session.WriteFile other content ∈ events → other = name) ∧
    (∀ platform credential context,
       Session.Login platform credential context ∈ events →
       platform = type userCredential ∧ credential = userCredential ∧
       context = {| Session.contextId := Session.nextContextId w;
                    Session.seededWith := None |}).
Proof.
  intros name run. subst run.
  assert (∀ (files' : gmap string string) (next : nat) (events : list Session.Event)
            (outcome : Session.Outcome Session.BrowserContext),
    (∀ other, other ≠ name → files' !! other = Session.files w !! other) →
    Session.nextContextId w < next ≤ Session.nextContextId w + 2 →
    (∀ context, outcome = Session.Returned context →
       Session.nextContextId w ≤ Session.contextId context < next) →
    (∀ event, event ∈ events →
       (∃ context, event = Session.NewContext context) ∨
       (∃ message, event = Session.ConsoleLog message) ∨
       (∃ label json, event = Session.ConsoleLogValue label json) ∨
       event = Session.Login (type userCredential) userCredential
                 {| Session.contextId := Session.nextContextId w;
                    Session.seededWith := None |} ∨
       (∃ content, event = Session.WriteFile name content)) →
    let run := (outcome,
                {| Session.files := files'; Session.fileSystem := Session.fileSystem w;
                   Session.nextContextId := next;
                   Session.trace := Session.trace w ++ events |}) in
    (∀ other, other ≠ name → Session.files run.2 !! other = Session.files w !! other) ∧
    Session.nextContextId w < Session.nextContextId run.2 ≤ Session.nextContextId w + 2 ∧
    (∀ context, run.1 = Session.Returned context →
       Session.nextContextId w ≤ Session.contextId context < Session.nextContextId run.2) ∧
    ∃ events,
      Session.trace run.2 = Session.trace w ++ events ∧
      (∀ other content, Session.WriteFile other content ∈ events → other = name) ∧
      (∀ platform credential context,
         Session.Login platform credential context ∈ events →
         platform = type userCredential ∧ credential = userCredential ∧
         context = {| Session.contextId := Session.nextContextId w;
                      Session.seededWith := None |})) as Hframe.
  { intros files' next events outcome Hfiles Hnext Hcontext Hevents run.
    cbn [run fst snd Session.files Session.nextContextId Session.trace].
    split_and!; [done | lia | lia | done |]. exists events. split; [done|].
    split.
    - intros other content Hin. apply Hevents in Hin.
      destruct Hin as [[? ?]|[[? ?]|[(? & ? & ?)|[?|[? Heq]]]]]; try done.
      by injection Heq as -> _.
    - intros platform credential context Hin. apply Hevents in Hin.
      destruct Hin as [[? ?]|[[? ?]|[(? & ? & ?)|[Heq|[? ?]]]]]; try done.
      by injection Heq as -> -> ->. }
  assert (∀ event,
    event ∈ match Session.files w !! name with
            | None => [Session.ConsoleLog ("No file " +:+ name)]
            | Some _ => []
            end →
    ∃ message, event = Session.ConsoleLog message) as Hlog.
  { intros event Hin. destruct (Session.files w !! name);
      [by apply elem_of_nil in Hin|].
    apply list_elem_of_singleton in Hin. eauto. }
  destruct (provider_cases facebookLogin instagramLogin userCredential w)
    as [(storageState & Hread & Hlen)
       |[Hread [[Hfacebook Hinstagram]|[Hlogin|[storage Hlogin]]]]].
  - destruct (validJSON storageState) eqn:Hvalid.
    + rewrite (provider_seeded _ _ _ _ _ storageState) by done.
      rewrite <- app_assoc. apply Hframe; [done | lia | |].
      * intros context [= <-]. cbn. lia.
      * intros event Hin. left. cbn [app] in Hin.
        rewrite !elem_of_cons, elem_of_nil in Hin. destruct Hin as [->|[->|[]]]; eauto.
    + rewrite (provider_corrupt _ _ _ _ _ storageState) by done.
      apply Hframe; [done | lia | done |].
      intros event Hin%list_elem_of_singleton. eauto.
  - rewrite provider_bare by done. apply Hframe; [done | lia | |].
    + intros context [= <-]. cbn. lia.
    + intros event [->|Hin]%elem_of_cons; [eauto|]. right. left. by apply Hlog.
  - rewrite provider_login_throws by done. apply Hframe; [done | lia | done |].
    intros event [->|Hin]%elem_of_cons; [eauto|].
    apply elem_of_app in Hin as [Hin|Hin%list_elem_of_singleton];
      [right; left; by apply Hlog | auto].
  - rewrite (provider_login _ _ _ _ _ storage) by done. fold name.
    assert (∀ event,
      event ∈ Session.Login (type userCredential) userCredential
                {| Session.contextId := Session.nextContextId w;
                   Session.seededWith := None |}
              :: (if decide (type userCredential = "facebook")
                  then [Session.ConsoleLogValue "getStorageStateAfterFacebookLogin"
                          storage]
                  else []) →
      (∃ label json, event = Session.ConsoleLogValue label json) ∨
      event = Session.Login (type userCredential) userCredential
                {| Session.contextId := Session.nextContextId w;
                   Session.seededWith := None |}) as Hlogged.
    { intros event [->|Hin]%elem_of_cons; [by right|]. left.
      destruct (decide (type userCredential = "facebook"));
        [|by apply elem_of_nil in Hin].
      apply list_elem_of_singleton in Hin. eauto. }
    destruct (Session.fileSystem w name storage) as [|residue].
    + apply Hframe; [| lia | |].
      * intros other Hother. by rewrite lookup_insert_ne.
      * intros context [= <-]. cbn. lia.
      * intros event [->|Hin]%elem_of_cons; [eauto|].
        apply elem_of_app in Hin as [Hin|Hin]; [right; left; by apply Hlog|].
        apply elem_of_app in Hin as [Hin|Hin%list_elem_of_singleton].
        -- apply Hlogged in Hin as [?|?]; auto.
        -- do 4 right. eauto.
    + apply Hframe; [| lia | done |].
      * intros other Hother. by rewrite lookup_partial_alter_ne.
      * intros event [->|Hin]%elem_of_cons; [eauto|].
        apply elem_of_app in Hin as [Hin|Hin]; [right; left; by apply Hlog|].
        apply Hlogged in Hin as [?|?]; auto.
Qed.

(** X12. The run after a first login reuses what that login persisted: when
    the login routine answered a non-empty state that parses and the file
    system made the write, the next run for the same credential returns a
    session seeded with that state, and neither logs in again nor writes a
    file. *)
Theorem second_run_reuses_login
    (validJSON : string → bool)
    (facebookLogin instagramLogin :
       IUserCredentials → Session.BrowserContext → option string)
    (userCredential : IUserCredentials) (w : Session.World) (storage : string) :
  let name := getNameForStorageStateByUserCredential userCredential in
  let bare :=
    {| Session.contextId := Session.nextContextId w; Session.seededWith := None |} in
  (Session.files w !! name = None ∨ Session.files w !! name = Some "") →
  (type userCredential = "facebook" ∧ facebookLogin userCredential bare = Some storage ∨
   type userCredential = "instagram" ∧ instagramLogin userCredential bare = Some storage) →
  Session.fileSystem w name storage = Session.Written →
  storage ≠ "" →
  validJSON storage = true →
  ∃ w1 w2 second,
    getBrowserContextWithLoggedInStoregeState validJSON facebookLogin instagramLogin
      userCredential w
    = (Session.Returned bare, w1) ∧
    getBrowserContextWithLoggedInStoregeState validJSON facebookLogin instagramLogin
      userCredential w1
    = (Session.Returned second, w2) ∧
    Session.seededWith second = Some storage ∧
    Session.contextId second = Session.nextContextId w + 2 ∧
    Session.files w2 = Session.files w1 ∧
    ∃ events,
      Session.trace w2 = Session.trace w1 ++ events ∧
      ∀ event, event ∈ events → ∃ context, event = Session.NewContext context.
Proof.
  intros name bare Hread Hlogin Hwrite Hlen Hvalid.
  rewrite (provider_login _ _ _ _ _ storage) by done. fold name. rewrite Hwrite.
  eexists _, _, _. split; [reflexivity|].
  rewrite (provider_seeded _ _ _ _ _ storage);
    [|by apply lookup_insert_eq|done..].
  split; [reflexivity|]. cbn [Session.seededWith Session.contextId
    Session.files Session.nextContextId Session.trace].
  split_and!; [done|lia|done|].
  eexists [_; _]. split; [by rewrite <- app_assoc|].
  intros event Hin. rewrite !elem_of_cons, elem_of_nil in Hin.
  destruct Hin as [->| [->|[]]]; eauto.
Qed.

Lemma second_run_reuses_login_witness :
  type alice_facebook = "facebook" ∧
  Session.fileSystem fresh_world (getNameForStorageStateByUserCredential alice_facebook)
    "cookies"
  = Session.Written ∧
  ∃ w1 w2,
    getBrowserContextWithLoggedInStoregeState
      (λ _, true) (λ _ _, Some "cookies") (λ _ _, None) alice_facebook fresh_world
    = (Session.Returned {| Session.contextId := 0; Session.seededWith := None |}, w1) ∧
    getBrowserContextWithLoggedInStoregeState
      (λ _, true) (λ _ _, Some "cookies") (λ _ _, None) alice_facebook w1
    = (Session.Returned {| Session.contextId := 2; Session.seededWith := Some "cookies" |},
       w2).
Proof.
  split; [reflexivity|]. split; [reflexivity|].
  destruct (second_run_reuses_login (λ _, true) (λ _ _, Some "cookies") (λ _ _, None)
              alice_facebook fresh_world "cookies"
              (or_introl eq_refl) (or_introl (conj eq_refl eq_refl)) eq_refl
              ltac:(discriminate) eq_refl)
    as (w1 & w2 & [id seed] & Hrun1 & Hrun2 & Hseed & Hid & _).
  cbn in Hseed, Hid. subst id seed.
  exists w1, w2. split; [exact Hrun1 | exact Hrun2].
Defined.

(** X27. When the login routine answers but the file system fails to write
    the state, as for a user name with a ["/"], whose storage name lies in
    a directory that does not exist, the provider throws after the login:
    the session that was logged in is not returned, the storage file is as
    the failed write left it, and no write is recorded. *)
Theorem unwritten_state_loses_login
    (validJSON : string → bool)
    (facebookLogin instagramLogin :
       IUserCredentials → Session.BrowserContext → option string)
    (userCredential : IUserCredentials) (w : Session.World) (storage : string)
    (residue : option string) :
  let name := getNameForStorageStateByUserCredential userCredential in
  let bare :=
    {| Session.contextId := Session.nextContextId w; Session.seededWith := None |} in
  (Session.files w !! name = None ∨ Session.files w !! name = Some "") →
  (type userCredential = "facebook" ∧ facebookLogin userCredential bare = Some storage ∨
   type userCredential = "instagram" ∧ instagramLogin userCredential bare = Some storage) →
  Session.fileSystem w name storage = Session.Failed residue →
  ∃ w' before logged,
    getBrowserContextWithLoggedInStoregeState validJSON facebookLogin instagramLogin
      userCredential w
    = (Session.Thrown, w') ∧
    Session.files w' !! name = residue ∧
    (∀ other, other ≠ name → Session.files w' !! other = Session.files w !! other) ∧
    Session.trace w'
    = Session.trace w ++ before
        ++ Session.Login (type userCredential) userCredential bare :: logged ∧
    (∀ event, event ∈ before →
       event = Session.NewContext bare ∨
       event = Session.ConsoleLog ("No file " +:+ name)) ∧
    (∀ event, event ∈ logged → ∃ label json, event = Session.ConsoleLogValue label json).
Proof.
  intros name bare Hread Hlogin Hwrite.
  rewrite (provider_login _ _ _ _ _ storage) by done. fold name. rewrite Hwrite.
  eexists _,
    (Session.NewContext bare
     :: match Session.files w !! name with
        | None => [Session.ConsoleLog ("No file " +:+ name)]
        | Some _ => []
        end),
    (if decide (type userCredential = "facebook")
     then [Session.ConsoleLogValue "getStorageStateAfterFacebookLogin" storage]
     else []).
  split; [reflexivity|]. cbn [Session.files Session.trace].
  split_and!; [ | | reflexivity | |].
  - by rewrite lookup_partial_alter_eq.
  - intros other Hother. by rewrite lookup_partial_alter_ne.
  - intros event [->|Hin]%elem_of_cons; [by left|]. right.
    destruct (Session.files w !! _); [by apply elem_of_nil in Hin|].
    by apply list_elem_of_singleton in Hin.
  - intros event Hin. destruct (decide (type userCredential = "facebook"));
      [|by apply elem_of_nil in Hin].
    apply list_elem_of_singleton in Hin as ->. eauto.
Qed.

Lemma unwritten_state_loses_login_witness :
  type slash_facebook = "facebook" ∧
  Session.fileSystem fresh_world (getNameForStorageStateByUserCredential slash_facebook)
    "cookies"
  = Session.Failed None ∧
  ∃ w',
    getBrowserContextWithLoggedInStoregeState
      (λ _, true) (λ _ _, Some "cookies") (λ _ _, None) slash_facebook fresh_world
    = (Session.Thrown, w') ∧
    Session.files w' !! getNameForStorageStateByUserCredential slash_facebook = None.
Proof.
  split; [reflexivity|]. split; [reflexivity|].
  destruct (unwritten_state_loses_login (λ _, true) (λ _ _, Some "cookies") (λ _ _, None)
              slash_facebook fresh_world "cookies" None
              (or_introl eq_refl) (or_introl (conj eq_refl eq_refl)) eq_refl)
    as (w' & before & logged & Hrun & Hfile & _).
  exists w'. split; [exact Hrun | exact Hfile].
Defined.

(** ** Enumeration order of the objects the module builds *)

Section enumeration_facts.
Context {V : Type}.
Implicit Types (o : JsObject.t V) (k : string) (v : V).

Lemma parseDigits_nondigit (acc : N) (before : string) (c : ascii) (after : string) :
  Ascii.is_nat c = None →
  JsObject.parseDigits acc (before +:+ String c after) = None.
Proof.
  intros Hc. revert acc.
  induction before as [|a before IH]; intros acc;
    rewrite ?append_nil_l, ?append_cons; cbn [JsObject.parseDigits].
  - by rewrite Hc.
  - destruct (Ascii.is_nat a); [apply IH|done].
Qed.

Lemma arrayIndex_parseDigits k :
  JsObject.parseDigits 0 k = None → JsObject.arrayIndex k = None.
Proof.
  destruct k as [|a k]; [done|]. unfold JsObject.arrayIndex. intros Hparse.
  destruct a as [[] [] [] [] [] [] [] []]; try (by rewrite Hparse).
  destruct k; [done|]. done.
Qed.

(** A name with a character that is no digit is no array index. *)
Lemma arrayIndex_nondigit k (c : ascii) :
  Ascii.is_nat c = None → Str.occurs_in (String c "") k → JsObject.arrayIndex k = None.
Proof.
  intros Hc (before & after & ->). apply arrayIndex_parseDigits.
  rewrite append_cons, append_nil_l. by apply parseDigits_nondigit.
Qed.

(** Without array-index names, enumeration order is creation order. *)
Lemma entries_creation_order o :
  Forall (λ k, JsObject.arrayIndex k = None) o.*1 → JsObject.entries o = o.
Proof.
  intros Hnames. unfold JsObject.entries, JsObject.indexProps, JsObject.nameProps.
  assert (omap (λ e : string * V,
                  match JsObject.arrayIndex e.1 with
                  | Some i => Some (i, e)
                  | None => None
                  end) o = []) as ->.
  { induction o as [|[k v] o IH]; [done|].
    rewrite fmap_cons, Forall_cons in Hnames. destruct Hnames as [Hk Hnames].
    cbn [omap list_omap fst]. cbn [fst] in Hk. rewrite Hk. by apply IH. }
  cbn. induction o as [|[k v] o IH]; [done|].
  rewrite fmap_cons, Forall_cons in Hnames. destruct Hnames as [Hk Hnames].
  rewrite filter_cons, decide_True by done. f_equal. by apply IH.
Qed.

Lemma set_fresh o k v : k ∉ o.*1 → JsObject.set o k v = o ++ [(k, v)].
Proof.
  induction o as [|[k' v'] o IH]; [done|].
  rewrite fmap_cons, not_elem_of_cons. intros [Hne Hk]. cbn [JsObject.set fst].
  cbn [fst] in Hne. rewrite decide_False by done. cbn [app]. f_equal. by apply IH.
Qed.

(** Assignments to names that are all different are kept as they come. *)
Lemma assignAll_fresh (ws : list (string * V)) :
  NoDup ws.*1 → JsObject.assignAll JsObject.empty ws = ws.
Proof.
  induction ws as [|[k v] ws IH] using rev_ind; [done|].
  rewrite fmap_app, NoDup_app. intros (Hws & Hk & _).
  rewrite assignAll_snoc, IH by done. apply set_fresh.
  intros Hin. apply (Hk k Hin). cbn. left.
Qed.

(** Reading after a run of assignments, in terms of the run alone. *)
Lemma get_assignAll_over o (ws : list (string * V)) k :
  JsObject.get (JsObject.assignAll o ws) k
  = match JsObject.get (JsObject.assignAll JsObject.empty ws) k with
    | Some v => Some v
    | None => JsObject.get o k
    end.
Proof.
  induction ws as [|[k' v'] ws IH] using rev_ind; [done|].
  rewrite !assignAll_snoc, !get_set. case_decide; [done|apply IH].
Qed.

End enumeration_facts.

(** ** The session mapping as a whole *)

Section mapping_facts.

Lemma fst_indexed_writes {A V} (array : list A) (key : A → string) (val : A → nat → V) :
  (imap (λ i item, (key item, val item i)) array).*1 = key <$> array.
Proof.
  rewrite fmap_imap. rewrite <- (imap_const key array). by apply imap_ext.
Qed.

Lemma indexed_writes_zip {A V} (array : list A) (key : A → string) (values : list V) :
  length values = length array →
  imap (λ i item, (key item, values !! i)) array = zip (key <$> array) (Some <$> values).
Proof.
  revert values. induction array as [|item array IH]; intros [|v values] Hlen;
    try done.
  rewrite imap_cons. cbn [fmap list_fmap zip zip_with lookup list_lookup]. f_equal.
  rewrite <- IH by (cbn in Hlen; lia). by apply imap_ext.
Qed.

(** An identity key holds a ["-"], so it is no array index. *)
Lemma identity_key_no_index (userCredential : IUserCredentials) :
  JsObject.arrayIndex (getKeyByUserCredential userCredential) = None.
Proof.
  apply (arrayIndex_nondigit _ "-"); [done|].
  by exists (type userCredential), (username userCredential).
Qed.

Lemma identity_keys_no_index (userCredentials : list IUserCredentials) :
  Forall (λ k, JsObject.arrayIndex k = None) (getKeyByUserCredential <$> userCredentials).
Proof.
  apply Forall_fmap, Forall_forall. intros c _. apply identity_key_no_index.
Qed.

Lemma session_mapping_writes {BrowserContext : Type}
    (userCredentials : list IUserCredentials) (browserContexts : list BrowserContext) :
  browserContextsByUserCredentials userCredentials browserContexts
  = JsObject.assignAll JsObject.empty
      (imap (λ i item, (getKeyByUserCredential item, browserContexts !! i))
         userCredentials).
Proof.
  apply (reduce_set_writes userCredentials getKeyByUserCredential
           (λ _ i, browserContexts !! i)).
Qed.

Lemma elem_of_keys_session_mapping {BrowserContext : Type}
    (userCredentials : list IUserCredentials) (browserContexts : list BrowserContext)
    (key : string) :
  key ∈ JsObject.keys (browserContextsByUserCredentials userCredentials browserContexts)
  ↔ key ∈ getKeyByUserCredential <$> userCredentials.
Proof.
  rewrite session_mapping_writes, elem_of_keys_assignAll.
  by rewrite (fst_indexed_writes _ _ (λ _ i, browserContexts !! i)).
Qed.

Lemma keys_bounded (keys names : list string) :
  NoDup keys → (∀ k, k ∈ keys → k ∈ names) → length keys ≤ length names.
Proof. intros Hnodup Hsub. by apply submseteq_length, NoDup_submseteq. Qed.

End mapping_facts.

(** X13. The session mapping has exactly the identity keys of the
    credentials as its keys, each once, so it has at most as many entries
    as there are credentials; and as no identity key is an array index, its
    entries are enumerated in the order in which they were created. *)
Theorem session_mapping_domain {BrowserContext : Type}
    (userCredentials : list IUserCredentials) (browserContexts : list BrowserContext) :
  let mapping := browserContextsByUserCredentials userCredentials browserContexts in
  (∀ key, key ∈ JsObject.keys mapping
          ↔ key ∈ getKeyByUserCredential <$> userCredentials) ∧
  NoDup (JsObject.keys mapping) ∧
  length (JsObject.keys mapping) ≤ length userCredentials ∧
  JsObject.entries mapping = mapping.
Proof.
  intros mapping.
  pose proof (elem_of_keys_session_mapping userCredentials browserContexts) as Hkeys.
  fold mapping in Hkeys.
  assert (NoDup (JsObject.keys mapping)) as Hnodup.
  { apply NoDup_keys. unfold mapping. rewrite session_mapping_writes.
    apply wf_assignAll, wf_empty. }
  split_and!; [done | done | |].
  - rewrite <- (length_fmap getKeyByUserCredential userCredentials).
    apply keys_bounded; [done|]. intros key. by rewrite Hkeys.
  - apply entries_creation_order, Forall_forall. intros key Hkey.
    assert (key ∈ JsObject.keys mapping) as Hin.
    { by rewrite elem_of_keys, get_is_Some. }
    apply Hkeys in Hin. apply list_elem_of_fmap in Hin as (c & -> & _).
    apply identity_key_no_index.
Qed.

(** X14. When the identity keys of the credentials are all different, the
    session mapping lists, in the order of the credentials, each identity
    key with the session obtained for that credential. *)
Theorem session_mapping_unique_keys {BrowserContext : Type}
    (userCredentials : list IUserCredentials) (browserContexts : list BrowserContext) :
  NoDup (getKeyByUserCredential <$> userCredentials) →
  length browserContexts = length userCredentials →
  JsObject.entries (browserContextsByUserCredentials userCredentials browserContexts)
  = zip (getKeyByUserCredential <$> userCredentials) (Some <$> browserContexts).
Proof.
  intros Hunique Hlen. rewrite session_mapping_writes.
  rewrite assignAll_fresh
    by (by rewrite (fst_indexed_writes _ _ (λ _ i, browserContexts !! i))).
  rewrite entries_creation_order.
  - by apply indexed_writes_zip.
  - rewrite (fst_indexed_writes _ _ (λ _ i, browserContexts !! i)).
    apply identity_keys_no_index.
Qed.

Lemma session_mapping_unique_keys_witness :
  NoDup (getKeyByUserCredential <$> [alice_facebook; bob_instagram]) ∧
  length [10; 11] = length [alice_facebook; bob_instagram] ∧
  JsObject.entries (browserContextsByUserCredentials [alice_facebook; bob_instagram] [10; 11])
  = [("facebook-alice", Some 10); ("instagram-bob", Some 11)].
Proof.
  assert (NoDup (getKeyByUserCredential <$> [alice_facebook; bob_instagram]))
    as Hunique by compute_done.
  split; [exact Hunique|]. split; [reflexivity|].
  exact (session_mapping_unique_keys [alice_facebook; bob_instagram] [10; 11]
           Hunique eq_refl).
Defined.

(** ** The generators on a whole input *)

Section generator_input_facts.
Context {SearchOptions : Type}.
Implicit Types (item : ISearchRawData SearchOptions).
Implicit Types (searchRawData : list (ISearchRawData SearchOptions)).

Lemma bySearchRawData_app searchRawData1 searchRawData2 :
  generateSearchStringsBySearchRawData (searchRawData1 ++ searchRawData2)
  = JsObject.assignAll (generateSearchStringsBySearchRawData searchRawData1)
      (searchRawData2 ≫= writesBySearchRawData).
Proof. by rewrite !bySearchRawData_writes, foldl_app, foldl_assignAll. Qed.

Lemma companyOrProducts_app searchRawData1 searchRawData2 :
  generateSearchStringsCompanyOrProductsBySearchRawData (searchRawData1 ++ searchRawData2)
  = JsObject.assignAll
      (generateSearchStringsCompanyOrProductsBySearchRawData searchRawData1)
      (searchRawData2 ≫= writesCompanyOrProducts).
Proof. by rewrite !companyOrProducts_writes, foldl_app, foldl_assignAll. Qed.

Lemma writesBySearchRawData_no_keywords item :
  incidentKeywords item = [] → writesBySearchRawData item = [].
Proof.
  intros Hnone. unfold writesBySearchRawData. rewrite Hnone.
  induction (firstSearchWordsBySearchRawData item) as [|w ws IH]; [done|].
  by rewrite bind_cons, IH.
Qed.

(** The names of an object are the keys it enumerates. *)
Lemma elem_of_names_keys {V} (o : JsObject.t V) (k : string) :
  k ∈ o.*1 ↔ k ∈ JsObject.keys o.
Proof. by rewrite elem_of_keys, get_is_Some. Qed.

End generator_input_facts.

(** X15. The keys of variant A's output are exactly the queries
    [partOfSearch + " " + incidentKeyword] of the records of the input.
    Every key holds a space, so none is an array index, and the output
    enumerates its entries in the order in which they were first
    generated. *)
Theorem byIncident_keys_of_input {SearchOptions}
    (searchRawData : list (ISearchRawData SearchOptions)) :
  let out := generateSearchStringsBySearchRawData searchRawData in
  (∀ q, q ∈ JsObject.keys out ↔
     ∃ item partOfSearch incidentKeyword,
       item ∈ searchRawData ∧
       partOfSearch ∈ firstSearchWordsBySearchRawData item ∧
       incidentKeyword ∈ incidentKeywords item ∧
       q = partOfSearch +:+ " " +:+ incidentKeyword) ∧
  Forall (Str.occurs_in " ") (JsObject.keys out) ∧
  JsObject.entries out = out.
Proof.
  intros out.
  assert (∀ q, q ∈ JsObject.keys out ↔
     ∃ item partOfSearch incidentKeyword,
       item ∈ searchRawData ∧
       partOfSearch ∈ firstSearchWordsBySearchRawData item ∧
       incidentKeyword ∈ incidentKeywords item ∧
       q = partOfSearch +:+ " " +:+ incidentKeyword) as Hkeys.
  { intros q. unfold out.
    rewrite bySearchRawData_writes, elem_of_keys_foldl_assignAll. split.
    - intros (item & Hitem & Hq). apply elem_of_keys_writesBySearchRawData in Hq
        as (w & kw & ? & ? & ->). by exists item, w, kw.
    - intros (item & w & kw & Hitem & Hw & Hkw & ->). exists item. split; [done|].
      apply elem_of_keys_writesBySearchRawData. eauto. }
  assert (∀ q, q ∈ JsObject.keys out → Str.occurs_in " " q) as Hspace.
  { intros q (item & w & kw & _ & _ & _ & ->)%Hkeys. by exists w, kw. }
  split_and!; [done | by apply Forall_forall |].
  apply entries_creation_order, Forall_forall. intros q Hq%elem_of_names_keys.
  by apply (arrayIndex_nondigit _ " "), Hspace.
Qed.

(** X16. The keys of variant B's output are exactly the company names and
    the product names of the records of the input, but for the name
    ["__proto__"], which is never a key. *)
Theorem companyOrProducts_keys_of_input {SearchOptions}
    (searchRawData : list (ISearchRawData SearchOptions)) (q : string) :
  q ∈ JsObject.keys (generateSearchStringsCompanyOrProductsBySearchRawData searchRawData)
  ↔ q ≠ "__proto__" ∧
    ∃ item, item ∈ searchRawData ∧ q ∈ companyName item :: productNames item.
Proof.
  rewrite companyOrProducts_writes, elem_of_keys_foldl_assignAll. split.
  - intros (item & Hitem & [Hq Hname]%elem_of_keys_writesCompanyOrProducts).
    rewrite firstSearchWordsCompanyOrProducts_all in Hq. eauto.
  - intros (Hname & item & Hitem & Hq). exists item. split; [done|].
    by rewrite elem_of_keys_writesCompanyOrProducts,
      firstSearchWordsCompanyOrProducts_all.
Qed.

(** X17. Variant B's output need not enumerate its keys in the order of the
    input: a company name that is an array index, such as ["2023"], is
    enumerated before a name that is none (and is not ["__proto__"], so
    that it is a key at all), although it was generated later. *)
Theorem numeric_name_enumerated_first {SearchOptions}
    (first second : ISearchRawData SearchOptions) :
  productNames first = [] → productNames second = [] →
  companyName first ≠ "__proto__" →
  JsObject.arrayIndex (companyName first) = None →
  is_Some (JsObject.arrayIndex (companyName second)) →
  JsObject.keys (generateSearchStringsCompanyOrProductsBySearchRawData [first; second])
  = [companyName second; companyName first].
Proof.
  intros Hfirst Hsecond Hproto Hname [i Hindex].
  assert (companyName second ≠ "__proto__") as Hproto2.
  { intros Heq. by rewrite Heq in Hindex. }
  rewrite companyOrProducts_writes. cbn [foldl].
  unfold writesCompanyOrProducts. rewrite !firstSearchWordsCompanyOrProducts_all.
  rewrite Hfirst, Hsecond. rewrite !filter_cons, !filter_nil.
  rewrite !decide_True by done. cbn [fmap list_fmap].
  rewrite <- assignAll_app. cbn [app]. rewrite assignAll_fresh.
  - unfold JsObject.keys, JsObject.entries, JsObject.indexProps, JsObject.nameProps.
    cbn [omap list_omap fst]. rewrite Hname, Hindex.
    rewrite !filter_cons, filter_nil. cbn [fst].
    rewrite decide_True by done. rewrite decide_False by (by rewrite Hindex).
    reflexivity.
  - cbn [fmap list_fmap fst]. apply NoDup_cons. split; [|apply NoDup_singleton].
    intros Heq%list_elem_of_singleton. rewrite Heq, Hindex in Hname. done.
Qed.

Lemma numeric_name_enumerated_first_witness :
  productNames acme_breach = [] ∧ productNames year_2023 = [] ∧
  companyName acme_breach ≠ "__proto__" ∧
  JsObject.arrayIndex (companyName acme_breach) = None ∧
  JsObject.arrayIndex (companyName year_2023) = Some 2023%N ∧
  JsObject.keys
    (generateSearchStringsCompanyOrProductsBySearchRawData [acme_breach; year_2023])
  = ["2023"; "Acme"].
Proof.
  assert (companyName acme_breach ≠ "__proto__") as Hname by discriminate.
  split; [reflexivity|]. split; [reflexivity|]. split; [exact Hname|].
  split; [reflexivity|]. split; [reflexivity|].
  exact (numeric_name_enumerated_first acme_breach year_2023
           eq_refl eq_refl Hname eq_refl (mk_is_Some _ 2023%N eq_refl)).
Defined.

(** X18. Both generators read a concatenated input as its second part
    written over its first: a query the second part generates has the
    descriptor the second part gives it, and any other query keeps what the
    first part gives it. In particular, repeating the input changes no
    entry. *)
Theorem generators_concatenation {SearchOptions}
    (searchRawData1 searchRawData2 : list (ISearchRawData SearchOptions)) (q : string) :
  (JsObject.get
     (generateSearchStringsBySearchRawData (searchRawData1 ++ searchRawData2)) q
   = match JsObject.get (generateSearchStringsBySearchRawData searchRawData2) q with
     | Some d => Some d
     | None => JsObject.get (generateSearchStringsBySearchRawData searchRawData1) q
     end) ∧
  (JsObject.get
     (generateSearchStringsCompanyOrProductsBySearchRawData
        (searchRawData1 ++ searchRawData2)) q
   = match JsObject.get
             (generateSearchStringsCompanyOrProductsBySearchRawData searchRawData2) q with
     | Some d => Some d
     | None =>
         JsObject.get
           (generateSearchStringsCompanyOrProductsBySearchRawData searchRawData1) q
     end) ∧
  (JsObject.get
     (generateSearchStringsBySearchRawData (searchRawData1 ++ searchRawData1)) q
   = JsObject.get (generateSearchStringsBySearchRawData searchRawData1) q) ∧
  (JsObject.get
     (generateSearchStringsCompanyOrProductsBySearchRawData
        (searchRawData1 ++ searchRawData1)) q
   = JsObject.get
       (generateSearchStringsCompanyOrProductsBySearchRawData searchRawData1) q).
Proof.
  assert (∀ l1 l2 : list (ISearchRawData SearchOptions),
    JsObject.get (generateSearchStringsBySearchRawData (l1 ++ l2)) q
    = match JsObject.get (generateSearchStringsBySearchRawData l2) q with
      | Some d => Some d
      | None => JsObject.get (generateSearchStringsBySearchRawData l1) q
      end) as HA.
  { intros l1 l2. rewrite bySearchRawData_app, get_assignAll_over.
    by rewrite (bySearchRawData_writes l2), foldl_assignAll. }
  assert (∀ l1 l2 : list (ISearchRawData SearchOptions),
    JsObject.get (generateSearchStringsCompanyOrProductsBySearchRawData (l1 ++ l2)) q
    = match JsObject.get
              (generateSearchStringsCompanyOrProductsBySearchRawData l2) q with
      | Some d => Some d
      | None => JsObject.get (generateSearchStringsCompanyOrProductsBySearchRawData l1) q
      end) as HB.
  { intros l1 l2. rewrite companyOrProducts_app, get_assignAll_over.
    by rewrite (companyOrProducts_writes l2), foldl_assignAll. }
  split_and!; [apply HA | apply HB | |].
  - rewrite HA. by destruct (JsObject.get _ q).
  - rewrite HB. by destruct (JsObject.get _ q).
Qed.

(** X19. A record without incident keywords leaves no trace in variant A:
    its step returns the accumulator as it was, and the output is that of
    the input without the record. *)
Theorem byIncident_record_without_keywords {SearchOptions}
    (item : ISearchRawData SearchOptions)
    (before after : list (ISearchRawData SearchOptions)) :
  incidentKeywords item = [] →
  (∀ memo, searchStringsBySearchRawDataStep memo item = memo) ∧
  generateSearchStringsBySearchRawData (before ++ item :: after)
  = generateSearchStringsBySearchRawData (before ++ after).
Proof.
  intros Hnone. split.
  - intros memo. by rewrite bySearchRawDataStep_writes, writesBySearchRawData_no_keywords.
  - rewrite !bySearchRawData_app. f_equal.
    by rewrite bind_cons, writesBySearchRawData_no_keywords.
Qed.

Lemma byIncident_record_without_keywords_witness :
  incidentKeywords acme_silent = [] ∧
  generateSearchStringsBySearchRawData ([acme_breach] ++ acme_silent :: [acme_widget])
  = generateSearchStringsBySearchRawData ([acme_breach] ++ [acme_widget]).
Proof.
  split; [reflexivity|].
  exact (proj2 (byIncident_record_without_keywords acme_silent [acme_breach] [acme_widget]
                  eq_refl)).
Defined.

(** ** The work partition as a whole *)

Section partition_whole_facts.
Context {Descriptor : Type}.
Implicit Types (userCredentials group : list IUserCredentials).
Implicit Types (searchStrings : JsObject.t Descriptor).
Implicit Types (searchStringsKeys : list string).

(** Every credential is in the group of its type, and the groups hold
    nothing else. *)
Lemma elem_of_groups userCredentials (userCredential : IUserCredentials) :
  userCredential ∈ userCredentials ↔
  ∃ group, group ∈ JsObject.values (Lodash.groupBy userCredentials type) ∧
           userCredential ∈ group.
Proof.
  pose proof (wf_groupBy userCredentials type) as Hwf. split.
  - intros Hin.
    exists (filter (λ c, type c = type userCredential) userCredentials).
    assert (userCredential
              ∈ filter (λ c, type c = type userCredential) userCredentials) as Hgroup.
    { by apply list_elem_of_filter. }
    split; [|done]. apply elem_of_values; [done|]. exists (type userCredential).
    rewrite get_groupBy. destruct (filter _ userCredentials); [|done].
    by apply elem_of_nil in Hgroup.
  - intros (group & [platform Hgroup]%elem_of_values & Hin); [|done].
    apply platform_group in Hgroup as [-> _].
    by apply list_elem_of_filter in Hin as [_ ?].
Qed.

Lemma fst_groupAssignments searchStringsKeys group :
  (groupAssignments searchStringsKeys group).*1 = getKeyByUserCredential <$> group.
Proof.
  apply (fst_indexed_writes group getKeyByUserCredential
           (λ _ index, searchStringsByChanks searchStringsKeys (length group) !! index)).
Qed.

Lemma elem_of_keys_partition userCredentials searchStrings (key : string) :
  key ∈ JsObject.keys (getSearchStringsByBrowserContexts userCredentials searchStrings)
  ↔ key ∈ getKeyByUserCredential <$> userCredentials.
Proof.
  rewrite partition_groupAssignments, elem_of_keys_assignAll.
  rewrite !list_elem_of_fmap. split.
  - intros ([k share] & -> & (group & Hin & Hgroup)%list_elem_of_bind).
    apply (list_elem_of_fmap_2 fst) in Hin. rewrite fst_groupAssignments in Hin.
    apply list_elem_of_fmap in Hin as (c & -> & Hc). exists c. split; [done|].
    apply elem_of_groups. eauto.
  - intros (c & -> & (group & Hgroup & Hc)%elem_of_groups).
    apply (list_elem_of_fmap_2 getKeyByUserCredential) in Hc.
    rewrite <- (fst_groupAssignments (JsObject.keys searchStrings)) in Hc.
    apply list_elem_of_fmap in Hc as (entry & Hkey & Hentry).
    exists entry. split; [done|]. apply list_elem_of_bind. eauto.
Qed.

(** The chunk list of a group: how many chunks, and what they add up to. *)
Lemma length_searchStringsByChanks searchStringsKeys (sizeOfParts : nat) :
  0 < sizeOfParts →
  length (searchStringsByChanks searchStringsKeys sizeOfParts)
  = if decide (length searchStringsKeys ≤ sizeOfParts) then 1
    else Lodash.ceilDiv (length searchStringsKeys)
           (Lodash.ceilDiv (length searchStringsKeys) sizeOfParts).
Proof.
  intros Hpos. unfold searchStringsByChanks. case_decide as Hsize; [done|].
  apply length_chunk, ceilDiv_pos; lia.
Qed.

Lemma searchStringsByChanks_fit searchStringsKeys (sizeOfParts : nat) :
  0 < sizeOfParts →
  length (searchStringsByChanks searchStringsKeys sizeOfParts) ≤ sizeOfParts ∧
  concat (searchStringsByChanks searchStringsKeys sizeOfParts) = searchStringsKeys.
Proof.
  intros Hpos. rewrite length_searchStringsByChanks by done.
  unfold searchStringsByChanks. case_decide as Hsize.
  - split; [lia|]. cbn. by rewrite app_nil_r.
  - split; [apply ceilDiv_chunks; lia|]. apply concat_chunk, ceilDiv_pos; lia.
Qed.

(** Reading the shares off in order gives the chunk list back. *)
Lemma omap_shares {A B} (f : A → option B) (array : list A) (chunks : list B) :
  (∀ i item, array !! i = Some item → f item = chunks !! i) →
  length chunks ≤ length array →
  omap f array = chunks.
Proof.
  revert chunks. induction array as [|item array IH]; intros chunks Hshare Hlen.
  - destruct chunks; [done | cbn in Hlen; lia].
  - cbn [omap list_omap]. rewrite (Hshare 0 item eq_refl).
    destruct chunks as [|c chunks]; cbn [lookup list_lookup].
    + apply (IH []); [|cbn; lia]. intros i x Hx. by rewrite (Hshare (S i) x Hx).
    + f_equal. apply IH; [|cbn in Hlen; lia].
      intros i x Hx. by rewrite (Hshare (S i) x Hx).
Qed.

End partition_whole_facts.

(** X20. The work partition has exactly the identity keys of the
    credentials as its keys: every credential gets an entry, whatever its
    type, and there is no other entry. No key is an array index, so the
    entries are enumerated in the order in which they were created. *)
Theorem partition_domain {Descriptor : Type}
    (userCredentials : list IUserCredentials) (searchStrings : JsObject.t Descriptor) :
  let shares := getSearchStringsByBrowserContexts userCredentials searchStrings in
  (∀ key, key ∈ JsObject.keys shares
          ↔ key ∈ getKeyByUserCredential <$> userCredentials) ∧
  JsObject.entries shares = shares.
Proof.
  intros shares.
  pose proof (elem_of_keys_partition userCredentials searchStrings) as Hkeys.
  fold shares in Hkeys. split; [done|].
  apply entries_creation_order, Forall_forall. intros key Hkey%elem_of_names_keys.
  apply Hkeys, list_elem_of_fmap in Hkey as (c & -> & _).
  apply identity_key_no_index.
Qed.

(** X21. Every platform works the whole key list once: with identity keys
    unique across the registry, the array shares the returned object holds
    for the credentials of a platform, read in the order of the
    credentials, add up to the ordered key list, whether the platform has
    more credentials than there are keys or fewer. *)
Theorem platform_shares_cover_keys {Descriptor : Type}
    (userCredentials : list IUserCredentials)
    (searchStrings : JsObject.t Descriptor)
    (platform : string) (group : list IUserCredentials) :
  NoDup (getKeyByUserCredential <$> userCredentials) →
  JsObject.get (Lodash.groupBy userCredentials type) platform = Some group →
  let shares := getSearchStringsByBrowserContexts userCredentials searchStrings in
  concat (omap (λ userCredential,
                  JsObject.get shares (getKeyByUserCredential userCredential) ≫= id)
            group)
  = JsObject.keys searchStrings.
Proof.
  intros Hunique Hgroup shares.
  pose proof (platform_group _ _ _ Hgroup) as [_ Hpos].
  destruct (searchStringsByChanks_fit (JsObject.keys searchStrings) (length group) Hpos)
    as [Hfit Hconcat].
  rewrite (omap_shares _ group
             (searchStringsByChanks (JsObject.keys searchStrings) (length group)));
    [done| |done].
  intros i c Hc. unfold shares.
  by rewrite (get_partition _ _ platform group i).
Qed.

Lemma platform_shares_cover_keys_witness :
  NoDup (getKeyByUserCredential <$> [alice_facebook; bob_instagram; dave_facebook]) ∧
  JsObject.get (Lodash.groupBy [alice_facebook; bob_instagram; dave_facebook] type)
    "facebook"
  = Some [alice_facebook; dave_facebook] ∧
  concat (omap (λ userCredential,
                  JsObject.get
                    (getSearchStringsByBrowserContexts
                       [alice_facebook; bob_instagram; dave_facebook] five_keys)
                    (getKeyByUserCredential userCredential) ≫= id)
            [alice_facebook; dave_facebook])
  = ["k1"; "k2"; "k3"; "k4"; "k5"].
Proof.
  assert (NoDup (getKeyByUserCredential
                   <$> [alice_facebook; bob_instagram; dave_facebook]))
    as Hunique by compute_done.
  split; [exact Hunique|]. split; [reflexivity|].
  exact (platform_shares_cover_keys [alice_facebook; bob_instagram; dave_facebook]
           five_keys "facebook" [alice_facebook; dave_facebook] Hunique eq_refl).
Defined.

(** X22. A credential is left without work ([undefined]) exactly when its
    position in its platform group is past the last chunk: past the first
    position when the group has at least as many credentials as there are
    keys, and past [ceil(N / ceil(N / P))] otherwise, which can be fewer
    than the [P] credentials of the group. *)
Theorem idle_credentials {Descriptor : Type}
    (userCredentials : list IUserCredentials)
    (searchStrings : JsObject.t Descriptor)
    (platform : string) (group : list IUserCredentials)
    (index : nat) (userCredential : IUserCredentials) :
  NoDup (getKeyByUserCredential <$> userCredentials) →
  JsObject.get (Lodash.groupBy userCredentials type) platform = Some group →
  group !! index = Some userCredential →
  let totalSize := length (JsObject.keys searchStrings) in
  let sizeOfParts := length group in
  let chunks :=
    if decide (totalSize ≤ sizeOfParts) then 1
    else Lodash.ceilDiv totalSize (Lodash.ceilDiv totalSize sizeOfParts) in
  JsObject.get (getSearchStringsByBrowserContexts userCredentials searchStrings)
    (getKeyByUserCredential userCredential) = Some None
  ↔ chunks ≤ index.
Proof.
  intros Hunique Hgroup Hindex totalSize sizeOfParts chunks.
  pose proof (platform_group _ _ _ Hgroup) as [_ Hpos].
  rewrite (get_partition _ _ platform group index) by done.
  unfold chunks, totalSize, sizeOfParts.
  rewrite <- length_searchStringsByChanks by done.
  rewrite <- lookup_ge_None. split; [by intros [= ->] | by intros ->].
Qed.

Lemma idle_credentials_witness :
  NoDup (getKeyByUserCredential
           <$> [alice_facebook; dave_facebook; erin_facebook; frank_facebook]) ∧
  JsObject.get
    (Lodash.groupBy [alice_facebook; dave_facebook; erin_facebook; frank_facebook] type)
    "facebook"
  = Some [alice_facebook; dave_facebook; erin_facebook; frank_facebook] ∧
  length [alice_facebook; dave_facebook; erin_facebook; frank_facebook]
  < length (JsObject.keys five_keys) ∧
  JsObject.get
    (getSearchStringsByBrowserContexts
       [alice_facebook; dave_facebook; erin_facebook; frank_facebook] five_keys)
    (getKeyByUserCredential frank_facebook)
  = Some None.
Proof.
  assert (NoDup (getKeyByUserCredential
                   <$> [alice_facebook; dave_facebook; erin_facebook; frank_facebook]))
    as Hunique by compute_done.
  split; [exact Hunique|]. split; [reflexivity|]. split; [vm_compute; lia|].
  apply (idle_credentials
           [alice_facebook; dave_facebook; erin_facebook; frank_facebook] five_keys
           "facebook" [alice_facebook; dave_facebook; erin_facebook; frank_facebook]
           3 frank_facebook Hunique eq_refl eq_refl).
  vm_compute. lia.
Defined.

(** X23. A credential that is the only one of its platform receives the
    whole ordered key list, however many keys there are. *)
Theorem single_credential_takes_all {Descriptor : Type}
    (userCredentials : list IUserCredentials)
    (searchStrings : JsObject.t Descriptor)
    (platform : string) (userCredential : IUserCredentials) :
  NoDup (getKeyByUserCredential <$> userCredentials) →
  JsObject.get (Lodash.groupBy userCredentials type) platform = Some [userCredential] →
  JsObject.get (getSearchStringsByBrowserContexts userCredentials searchStrings)
    (getKeyByUserCredential userCredential)
  = Some (Some (JsObject.keys searchStrings)).
Proof.
  intros Hunique Hgroup.
  rewrite (get_partition _ _ platform [userCredential] 0) by done.
  destruct (searchStringsByChanks_fit (JsObject.keys searchStrings) 1) as [Hfit Hconcat];
    [lia|].
  cbn [length] in *.
  assert (0 < length (searchStringsByChanks (JsObject.keys searchStrings) 1)) as Hsome.
  { rewrite length_searchStringsByChanks by lia. case_decide; [lia|].
    apply ceilDiv_pos; [apply ceilDiv_pos|]; lia. }
  destruct (searchStringsByChanks (JsObject.keys searchStrings) 1) as [|c [|c' chunks]];
    cbn in Hfit, Hsome; [lia| |lia].
  cbn in Hconcat. rewrite app_nil_r in Hconcat. by subst c.
Qed.

Lemma single_credential_takes_all_witness :
  NoDup (getKeyByUserCredential <$> [alice_facebook; bob_instagram; dave_facebook]) ∧
  JsObject.get (Lodash.groupBy [alice_facebook; bob_instagram; dave_facebook] type)
    "instagram"
  = Some [bob_instagram] ∧
  JsObject.get
    (getSearchStringsByBrowserContexts
       [alice_facebook; bob_instagram; dave_facebook] five_keys)
    (getKeyByUserCredential bob_instagram)
  = Some (Some ["k1"; "k2"; "k3"; "k4"; "k5"]).
Proof.
  assert (NoDup (getKeyByUserCredential
                   <$> [alice_facebook; bob_instagram; dave_facebook]))
    as Hunique by compute_done.
  split; [exact Hunique|]. split; [reflexivity|].
  exact (single_credential_takes_all [alice_facebook; bob_instagram; dave_facebook]
           five_keys "instagram" bob_instagram Hunique eq_refl).
Defined.

(** X24. The work partition and the session mapping fit together: for
    every key of the work partition the session mapping holds a session,
    one obtained for a credential with that identity key. *)
Theorem every_share_has_a_session {Descriptor BrowserContext : Type}
    (userCredentials : list IUserCredentials)
    (searchStrings : JsObject.t Descriptor)
    (browserContexts : list BrowserContext) (key : string) :
  length browserContexts = length userCredentials →
  key ∈ JsObject.keys (getSearchStringsByBrowserContexts userCredentials searchStrings) →
  ∃ index userCredential context,
    userCredentials !! index = Some userCredential ∧
    getKeyByUserCredential userCredential = key ∧
    browserContexts !! index = Some context ∧
    JsObject.get (browserContextsByUserCredentials userCredentials browserContexts) key
    = Some (Some context).
Proof.
  intros Hlen Hkey%elem_of_keys_partition.
  destruct (last_indexed_assignment userCredentials getKeyByUserCredential
              (λ _ n, browserContexts !! n) key Hkey)
    as (l & last & Hl & Hlast & _ & Hget).
  assert (is_Some (browserContexts !! l)) as [context Hcontext].
  { apply lookup_lt_is_Some. rewrite Hlen. by apply lookup_lt_Some in Hl. }
  exists l, last, context. split_and!; [done..|].
  by rewrite session_mapping_writes, Hget, Hcontext.
Qed.

Lemma every_share_has_a_session_witness :
  length [10; 11; 12] = length [alice_facebook; bob_instagram; dave_facebook] ∧
  "facebook-dave"
    ∈ JsObject.keys
        (getSearchStringsByBrowserContexts
           [alice_facebook; bob_instagram; dave_facebook] five_keys) ∧
  ∃ context,
    JsObject.get
      (browserContextsByUserCredentials
         [alice_facebook; bob_instagram; dave_facebook] [10; 11; 12])
      "facebook-dave"
    = Some (Some context).
Proof.
  assert ("facebook-dave"
            ∈ JsObject.keys
                (getSearchStringsByBrowserContexts
                   [alice_facebook; bob_instagram; dave_facebook] five_keys)) as Hkey.
  { apply list_elem_of_lookup. by exists 1. }
  split; [reflexivity|]. split; [exact Hkey|].
  destruct (every_share_has_a_session
              [alice_facebook; bob_instagram; dave_facebook] five_keys [10; 11; 12]
              "facebook-dave" eq_refl Hkey)
    as (index & userCredential & context & _ & _ & _ & Hget).
  exists context. exact Hget.
Defined.

(** ** The pacing utility at the edges *)

(** X25. With a bound that is no finite number ([NaN] or an infinity) the
    pacing utility returns no integer, whatever the draw: the product is
    [NaN] or an infinity, and [Math.floor] passes it through. *)
Theorem random_delay_without_finite_bound (MAX_RANDOM_DELAY_TIME : spec_float)
    (random : spec_float) (max : option spec_float) :
  Number.isFinite (default MAX_RANDOM_DELAY_TIME max) = false →
  getRandomDelayTimeInSecound MAX_RANDOM_DELAY_TIME random max = None.
Proof.
  unfold getRandomDelayTimeInSecound, Math_floor, Number.mul.
  destruct (default MAX_RANDOM_DELAY_TIME max) as [s|s| |s m e]; try done;
    intros _; by destruct random.
Qed.

Lemma random_delay_without_finite_bound_witness :
  Number.isFinite (default three (Some (S754_infinity false))) = false ∧
  getRandomDelayTimeInSecound three two_thirds (Some (S754_infinity false)) = None.
Proof.
  split; [reflexivity|].
  exact (random_delay_without_finite_bound three two_thirds
           (Some (S754_infinity false)) eq_refl).
Defined.

(** X26. A zero draw gives the delay 0 for every finite bound, of either
    sign, and a zero bound gives the delay 0 for every finite draw. *)
Theorem random_delay_zero (MAX_RANDOM_DELAY_TIME : spec_float)
    (random : spec_float) (max : option spec_float) :
  Number.isFinite random = true →
  Number.isFinite (default MAX_RANDOM_DELAY_TIME max) = true →
  (∃ sign, random = S754_zero sign) ∨
  (∃ sign, default MAX_RANDOM_DELAY_TIME max = S754_zero sign) →
  getRandomDelayTimeInSecound MAX_RANDOM_DELAY_TIME random max = Some 0%Z.
Proof.
  unfold getRandomDelayTimeInSecound, Math_floor, Number.mul.
  intros Hrandom Hbound [[sign ->]|[sign ->]].
  - by destruct (default MAX_RANDOM_DELAY_TIME max).
  - by destruct random.
Qed.

Lemma random_delay_zero_witness :
  Number.isFinite (S754_zero false) = true ∧
  Number.isFinite (default three None) = true ∧
  getRandomDelayTimeInSecound three (S754_zero false) None = Some 0%Z.
Proof.
  split; [reflexivity|]. split; [reflexivity|].
  exact (random_delay_zero three (S754_zero false) None eq_refl eq_refl
           (or_introl (ex_intro _ false eq_refl))).
Defined.
